(** * libcups: address lists, the connection racer and notification subjects

    A shallow embedding of [cups/http-addrlist.c] ([httpAddrConnect],
    [httpAddrCopyList], [httpAddrFreeList], [httpAddrGetList]) and of
    [cups/notify.c] ([cupsLocalizeNotifySubject]).

    The embedding fixes one build configuration, the one of a Linux/glibc
    system: [O_NONBLOCK], [FD_CLOEXEC], [SO_REUSEPORT], [AF_LOCAL],
    [AF_INET6] and [HAVE_RES_INIT] are defined, [_WIN32], [__sun],
    [SO_NOSIGPIPE] and [DEBUG] are not.  Everything outside the process
    (system calls, the C library's allocator and resolver, the shared cancel
    flag) is an explicit part of the state, the [world]. *)

From stdpp Require Import gmap strings list fin_maps pretty.
From Stdlib Require Import ZArith Lia Ascii.

Local Open Scope Z_scope.

(** ** Constants of the system headers (Linux values) *)

Module Sys.

Definition INT_MAX : Z := 2147483647.

Definition EINTR : Z := 4.
Definition EBADF : Z := 9.
Definition EAGAIN : Z := 11.
Definition EWOULDBLOCK : Z := 11.
Definition ENOMEM : Z := 12.
Definition EINVAL : Z := 22.
Definition ETIMEDOUT : Z := 110.
Definition ECONNREFUSED : Z := 111.
Definition EHOSTDOWN : Z := 112.
Definition EINPROGRESS : Z := 115.

Definition POLLIN : Z := 1.
Definition POLLOUT : Z := 4.
Definition POLLERR : Z := 8.
Definition POLLHUP : Z := 16.

Definition AF_UNSPEC : Z := 0.
Definition AF_LOCAL : Z := 1.
Definition AF_INET : Z := 2.
Definition AF_INET6 : Z := 10.
Definition AI_PASSIVE : Z := 1.
Definition EAI_FAIL : Z := -4.

Definition SOCK_STREAM : Z := 1.
Definition SOL_SOCKET : Z := 1.
Definition SO_REUSEADDR : Z := 2.
Definition SO_ERROR : Z := 4.
Definition SO_REUSEPORT : Z := 15.
Definition IPPROTO_TCP : Z := 6.
Definition TCP_NODELAY : Z := 1.
Definition F_SETFD : Z := 2.
Definition F_GETFL : Z := 3.
Definition F_SETFL : Z := 4.
Definition FD_CLOEXEC : Z := 1.
Definition O_NONBLOCK : Z := 2048.

(** IPP status codes written to the last-error slot. *)
Definition IPP_STATUS_OK : Z := 0.
Definition IPP_STATUS_ERROR_INTERNAL : Z := 1280.
Definition IPP_STATUS_ERROR_SERVICE_UNAVAILABLE : Z := 1282.

End Sys.
Import Sys.

(** ** Socket addresses and list nodes *)

(** [http_addr_t] is a union of [sockaddr_in], [sockaddr_in6] and
    [sockaddr_un]; the port and the IPv4 address are kept as the code stores
    them, in network byte order.  [AddrZero] is the all-zero storage that
    [calloc] hands out. *)
Inductive http_addr_t : Type :=
| AddrZero
| AddrIPv4 (sin_port : Z) (s_addr : Z)
| AddrIPv6 (sin6_port : Z) (s6_addr32 : list Z) (sin6_scope_id : Z)
| AddrLocal (sun_path : string).

Global Instance http_addr_eq_dec : EqDecision http_addr_t.
Proof. solve_decision. Defined.

Definition httpAddrGetFamily (a : http_addr_t) : Z :=
  match a with
  | AddrZero => AF_UNSPEC
  | AddrIPv4 _ _ => AF_INET
  | AddrIPv6 _ _ _ => AF_INET6
  | AddrLocal _ => AF_LOCAL
  end.

(** A node of the singly linked [http_addrlist_t]. *)
Record http_addrlist_t : Type := Node {
  next : option positive;
  addr : http_addr_t;
}.

(** One result record of [getaddrinfo]. *)
Record addrinfo : Type := AddrInfo {
  ai_family : Z;
  ai_addr : http_addr_t;
}.

(** ** The world *)

(** The text handed to [_cupsSetError]. *)
Inductive errmsg : Type :=
| NoMessage
| Strerror (e : Z)
| GaiStrerror (e : Z)
| Message (s : string).

(** What one call into the system answers: the return value, the [errno] it
    leaves when it fails, and the values it writes through its out
    parameters ([revents] of [poll], [SO_ERROR] of [getsockopt]). *)
Record answer : Type := Answer {
  a_ret : Z;
  a_err : Z;
  a_out : list Z;
}.

Inductive event : Type :=
| EvCancel (v : Z)
| EvSocket (family : Z) (ret : Z)
| EvSetsockopt (fd level name : Z)
| EvFcntl (fd cmd arg : Z)
| EvConnect (fd : Z) (a : http_addr_t) (ret : Z)
| EvPoll (fds : list Z) (timeout : Z) (ret : Z) (err : Z)
| EvGetsockopt (fd : Z) (ret : Z) (serr : Z)
| EvClose (fd : Z) (ok : bool)
| EvAlloc (ok : bool)
| EvFree (p : positive)
| EvResInit
| EvGetaddrinfo (name service : option string) (family flags : Z)
| EvGetservbyname (name : string).

Record world : Type := World {
  w_script : list answer;      (* answers of the calls still to come *)
  w_errno : Z;
  w_open : list Z;             (* descriptors open in the process *)
  w_heap : gmap positive http_addrlist_t;
  w_fault : bool;              (* an invalid pointer was used or freed *)
  w_last_error : Z * errmsg;   (* the slot behind _cupsSetError *)
  w_need_res_init : bool;      (* cg->need_res_init *)
  w_dns : option string → option string → Z → Z → Z * list addrinfo;
  w_services : string → option Z;
  w_log : list event;          (* calls made so far, oldest first *)
}.

Definition set_script (s : list answer) (w : world) : world :=
  World s (w_errno w) (w_open w) (w_heap w) (w_fault w) (w_last_error w)
        (w_need_res_init w) (w_dns w) (w_services w) (w_log w).
Definition set_errno (e : Z) (w : world) : world :=
  World (w_script w) e (w_open w) (w_heap w) (w_fault w) (w_last_error w)
        (w_need_res_init w) (w_dns w) (w_services w) (w_log w).
Definition set_open (o : list Z) (w : world) : world :=
  World (w_script w) (w_errno w) o (w_heap w) (w_fault w) (w_last_error w)
        (w_need_res_init w) (w_dns w) (w_services w) (w_log w).
Definition set_heap (h : gmap positive http_addrlist_t) (w : world) : world :=
  World (w_script w) (w_errno w) (w_open w) h (w_fault w) (w_last_error w)
        (w_need_res_init w) (w_dns w) (w_services w) (w_log w).
Definition set_fault (w : world) : world :=
  World (w_script w) (w_errno w) (w_open w) (w_heap w) true (w_last_error w)
        (w_need_res_init w) (w_dns w) (w_services w) (w_log w).
Definition set_last_error (e : Z * errmsg) (w : world) : world :=
  World (w_script w) (w_errno w) (w_open w) (w_heap w) (w_fault w) e
        (w_need_res_init w) (w_dns w) (w_services w) (w_log w).
Definition set_need_res_init (b : bool) (w : world) : world :=
  World (w_script w) (w_errno w) (w_open w) (w_heap w) (w_fault w)
        (w_last_error w) b (w_dns w) (w_services w) (w_log w).
Definition add_log (ev : event) (w : world) : world :=
  World (w_script w) (w_errno w) (w_open w) (w_heap w) (w_fault w)
        (w_last_error w) (w_need_res_init w) (w_dns w) (w_services w)
        (w_log w ++ [ev]).

(** ** The state monad of the embedding *)

Definition M (A : Type) : Type := world → A * world.

Global Instance M_ret : MRet M := λ A a w, (a, w).
Global Instance M_bind : MBind M := λ A B f m w, let '(a, w') := m w in f a w'.
Global Instance M_fmap : FMap M := λ A B f m w, let '(a, w') := m w in (f a, w').

Definition get_errno : M Z := λ w, (w_errno w, w).
Definition put_errno (e : Z) : M unit := λ w, (tt, set_errno e w).

(** The next answer of the system; past the end of the script every call
    returns 0. *)
Definition default_answer : answer := Answer 0 0 [].

Definition next_answer : M answer := λ w,
  match w_script w with
  | [] => (default_answer, w)
  | a :: s => (a, set_script s w)
  end.

(** A call into the system: takes the next answer, leaves [errno] when the
    call fails, and records the call. *)
Definition syscall (ev : answer → event) : M answer := λ w,
  let '(a, w1) := next_answer w in
  let w2 := if a_ret a <? 0 then set_errno (a_err a) w1 else w1 in
  (a, add_log (ev a) w2).

(** Removing one occurrence of a descriptor from the open ones. *)
Fixpoint remove_first (x : Z) (l : list Z) : option (list Z) :=
  match l with
  | [] => None
  | y :: l' => if decide (x = y) then Some l'
               else cons y <$> remove_first x l'
  end.

Definition sys_socket (family type protocol : Z) : M Z :=
  a ← syscall (λ a, EvSocket family (a_ret a));
  if a_ret a <? 0 then mret (a_ret a)
  else λ w, (a_ret a, set_open (a_ret a :: w_open w) w).

Definition sys_setsockopt (fd level name val : Z) : M Z :=
  a ← syscall (λ _, EvSetsockopt fd level name); mret (a_ret a).

Definition sys_fcntl (fd cmd arg : Z) : M Z :=
  a ← syscall (λ _, EvFcntl fd cmd arg); mret (a_ret a).

Definition sys_connect (fd : Z) (a : http_addr_t) : M Z :=
  r ← syscall (λ r, EvConnect fd a (a_ret r)); mret (a_ret r).

(** [getsockopt(fd, SOL_SOCKET, SO_ERROR, &serr, &slen)]: the return value
    and the value stored in [serr]. *)
Definition sys_getsockopt_error (fd : Z) : M (Z * Z) :=
  a ← syscall (λ a, EvGetsockopt fd (a_ret a) (hd 0 (a_out a)));
  mret (a_ret a, hd 0 (a_out a)).

(** [close]: releases the descriptor when it is open, fails with [EBADF]
    otherwise. *)
Definition sys_close (fd : Z) : M Z := λ w,
  match remove_first fd (w_open w) with
  | Some o => (0, add_log (EvClose fd true) (set_open o w))
  | None => (-1, add_log (EvClose fd false) (set_errno EBADF w))
  end.

(** Reading the caller's cancel variable, which another thread may set. *)
Definition read_cancel : M Z :=
  a ← syscall (λ a, EvCancel (a_ret a)); mret (a_ret a).

(** Modelled from the spec: [_cupsSetError] is defined outside the files
    shown; it stores a status code and a text in the process-wide last-error
    slot. *)
Definition _cupsSetError (status : Z) (msg : errmsg) : M unit :=
  λ w, (tt, set_last_error (status, msg) w).

(** Modelled from the spec: [httpAddrClose] is defined outside the files
    shown; with no address given it closes the socket. *)
Definition httpAddrClose (fd : Z) : M Z := sys_close fd.

(** ** httpAddrConnect: the connection racer *)

Module Racer.

(** A node pointer into the caller's list is the list from that node on;
    [[]] is [NULL]. *)
Definition node : Type := list http_addr_t.

Record pollfd : Type := Pollfd {
  pfd_fd : Z;
  pfd_events : Z;
  pfd_revents : Z;
}.

Definition set_revents (r : Z) (p : pollfd) : pollfd :=
  Pollfd (pfd_fd p) (pfd_events p) r.

(** [x & m] is not zero. *)
Definition has (x m : Z) : bool := negb (Z.land x m =? 0).

(** The locals that live across iterations of the main loop.  [fds] and
    [addrs] hold the entries [0 .. nfds-1] of the two arrays, so [nfds] is
    their length; [sock] is the caller's [*sock]. *)
Record racer : Type := Racer {
  addrlist : node;
  fds : list Z;
  addrs : list node;
  remaining : Z;
  sock : Z;
}.

Definition nfds (st : racer) : Z := Z.of_nat (length (fds st)).

(** What the function hands back: the returned node and the final [*sock]. *)
Record result : Type := Result {
  r_ret : node;
  r_sock : Z;
}.

(** [while (nfds > 0) { nfds --; httpAddrClose(NULL, fds[nfds]); }] *)
Definition close_all (l : list Z) : M unit :=
  foldr (λ fd k, httpAddrClose fd ;; k) (mret tt) (reverse l).

(** [for (j = ...; j < ...; j ++) httpAddrClose(NULL, fds[j]);] *)
Definition close_each (l : list Z) : M unit :=
  foldr (λ fd k, httpAddrClose fd ;; k) (mret tt) l.

(** [cancel && *cancel]; [cancel] tells whether the pointer is set. *)
Definition check_cancel (cancel : bool) : M bool :=
  if cancel then v ← read_cancel; mret (negb (v =? 0)) else mret false.

(** How one pass through a block of the loop body ends. *)
Inductive flow : Type :=
| Continue (st : racer)        (* [continue]: back to the loop test *)
| Fall (st : racer)            (* on to the next statement *)
| Return (r : result).

(** The block [if (addrlist && nfds < 100) { ... }]. *)
Definition try_candidate (st : racer) : M flow :=
  match addrlist st with
  | [] => mret (Fall st)
  | a :: rest =>
    if nfds st <? 100 then
      fd ← sys_socket (httpAddrGetFamily a) SOCK_STREAM 0;
      if fd <? 0 then
        mret (Continue (Racer rest (fds st) (addrs st) (remaining st) (sock st)))
      else
        sys_setsockopt fd SOL_SOCKET SO_REUSEADDR 1 ;;
        sys_setsockopt fd SOL_SOCKET SO_REUSEPORT 1 ;;
        sys_setsockopt fd IPPROTO_TCP TCP_NODELAY 1 ;;
        sys_fcntl fd F_SETFD FD_CLOEXEC ;;
        flags ← sys_fcntl fd F_GETFL 0;
        sys_fcntl fd F_SETFL (Z.lor flags O_NONBLOCK) ;;
        c ← sys_connect fd a;
        if c =? 0 then
          sys_fcntl fd F_SETFL flags ;;
          close_all (fds st) ;;
          mret (Return (Result (a :: rest) fd))
        else
          e ← get_errno;
          if negb (e =? EINPROGRESS) && negb (e =? EWOULDBLOCK) then
            httpAddrClose fd ;;
            mret (Continue (Racer rest (fds st) (addrs st) (remaining st) (sock st)))
          else
            sys_fcntl fd F_SETFL flags ;;
            mret (Fall (Racer rest (fds st ++ [fd]) (addrs st ++ [a :: rest])
                              (remaining st) (sock st)))
    else mret (Fall st)
  end.

(** The timeout handed to [poll]:
    [addrlist ? 100 : remaining > 250 ? 250 : remaining]. *)
Definition slice (st : racer) : Z :=
  match addrlist st with
  | _ :: _ => 100
  | [] => if remaining st >? 250 then 250 else remaining st
  end.

(** [poll(pfds, nfds, timeout)]: the return value and the array with the
    [revents] the kernel stored.  On failure the array is left as it was.
    The call is recorded with its return value and the [errno] of a
    failure. *)
Definition sys_poll (pfds : list pollfd) (timeout : Z) : M (Z * list pollfd) :=
  a ← syscall (λ a, EvPoll (pfd_fd <$> pfds) timeout (a_ret a) (a_err a));
  if a_ret a <? 0 then mret (a_ret a, pfds)
  else mret (a_ret a,
             imap (λ i p, set_revents (nth i (a_out a) 0) p) pfds).

Inductive waited : Type :=
| Cancelled
| Polled (result : Z) (pfds : list pollfd)
| Interrupted.                 (* the retry budget of the model ran out *)

(** The [do { ... } while (result < 0 && (errno == EINTR || errno == EAGAIN))]
    loop.  [n] bounds the retries. *)
Fixpoint wait_ready (n : nat) (cancel : bool) (st : racer) : M waited :=
  c ← check_cancel cancel;
  if (c : bool) then
    close_all (fds st) ;;
    mret Cancelled
  else
    '(result, pfds) ← sys_poll ((λ fd, Pollfd fd (Z.lor POLLIN POLLOUT) 0) <$> fds st)
                               (slice st);
    e ← get_errno;
    if (result <? 0) && ((e =? EINTR) || (e =? EAGAIN)) then
      match n with
      | O => mret Interrupted
      | S n' => wait_ready n' cancel st
      end
    else mret (Polled result pfds).

Definition revents_at (pfds : list pollfd) (i : nat) : Z :=
  from_option pfd_revents 0 (pfds !! i).

(** The first [if] of the scan: the SO_ERROR check for sockets that report
    POLLIN and POLLOUT after EINPROGRESS, or POLLHUP with POLLIN or POLLOUT.
    Returns the new [pfds[i].revents]. *)
Definition check_so_error (fd : Z) (rev : Z) : M Z :=
  e ← get_errno;
  if ((e =? EINPROGRESS) && has rev POLLIN && has rev POLLOUT)
     || (has rev POLLHUP && has rev (Z.lor POLLIN POLLOUT)) then
    '(sres, serr) ← sys_getsockopt_error fd;
    if negb (sres =? 0) || negb (serr =? 0) then
      mret (Z.lor rev POLLERR)
    else if negb (rev =? 0) && has rev POLLHUP && has rev (Z.lor POLLIN POLLOUT) then
      mret (Z.land rev (Z.lnot POLLHUP))
    else mret rev
  else mret rev.

(** The locals after the scan [for (i = 0; i < nfds; i ++)]: [connaddr]
    ([[]] for [NULL]), the index reached, the arrays and the caller's
    [*sock]. *)
Record scan : Type := Scan {
  s_connaddr : node;
  s_i : nat;
  s_fds : list Z;
  s_addrs : list node;
  s_pfds : list pollfd;
  s_sock : Z;
}.

(** The scan of the poll results.  A socket whose [revents] hold no
    POLLERR and no POLLHUP ends the scan: [*sock = fds[i]],
    [connaddr = addrs[i]], [break].  An erroring socket is closed and taken
    out of [fds] and [addrs] (the [memmove]s); [i --] followed by the loop's
    [i ++] leaves the index where it was, and [pfds] is not moved.  [n]
    counts the passes left: each pass advances [i] or shortens the arrays. *)
Fixpoint scan_results (n : nat) (i : nat) (fds : list Z) (addrs : list node)
    (pfds : list pollfd) (sock : Z) : M scan :=
  match n with
  | O => mret (Scan [] i fds addrs pfds sock)
  | S n' =>
    match fds !! i with
    | None => mret (Scan [] i fds addrs pfds sock)
    | Some fd =>
      rev ← check_so_error fd (revents_at pfds i);
      let pfds := alter (set_revents rev) i pfds in
      if negb (rev =? 0) && negb (has rev (Z.lor POLLERR POLLHUP)) then
        mret (Scan (default [] (addrs !! i)) i fds addrs pfds fd)
      else if has rev (Z.lor POLLERR POLLHUP) then
        httpAddrClose fd ;;
        scan_results n' i (delete i fds) (delete i addrs) pfds sock
      else scan_results n' (S i) fds addrs pfds sock
    end
  end.

(** The block [if (result > 0) { ... }], with its [if (connaddr)]. *)
Definition take_results (st : racer) (result : Z) (pfds : list pollfd) : M flow :=
  if result >? 0 then
    s ← scan_results (length (fds st)) 0 (fds st) (addrs st) pfds (sock st);
    match s_connaddr s with
    | _ :: _ =>
      close_each (take (s_i s) (s_fds s)) ;;
      close_each (drop (S (s_i s)) (s_fds s)) ;;
      mret (Return (Result (s_connaddr s) (s_sock s)))
    | [] =>
      mret (Fall (Racer (addrlist st) (s_fds s) (s_addrs s) (remaining st) (s_sock s)))
    end
  else mret (Fall st).

(** [if (addrlist) remaining -= 100; else remaining -= 250;] *)
Definition account (st : racer) : racer :=
  Racer (addrlist st) (fds st) (addrs st)
        (match addrlist st with
         | _ :: _ => remaining st - 100
         | [] => remaining st - 250
         end)
        (sock st).

(** Ends of the function after the loop, or from inside it. *)
Inductive step : Type :=
| Again (st : racer)           (* back to [while (remaining > 0)] *)
| Break (st : racer)           (* [break]: to the code after the loop *)
| Done (r : result)
| Stuck.

(** The second half of the loop body: the wait, the scan of its results and
    the budget accounting.  The wait loop is given as many retries as there
    are answers left in the script, which it cannot exceed: a retry takes a
    failing answer. *)
Definition wait_and_take (cancel : bool) (st : racer) : M step :=
  retries ← (λ w, (length (w_script w), w));
  wt ← wait_ready retries cancel st;
  match wt with
  | Cancelled => mret (Done (Result [] (-1)))
  | Interrupted => mret Stuck
  | Polled result pfds =>
    f ← take_results st result pfds;
    match f with
    | Return r => mret (Done r)
    | Continue st | Fall st => mret (Again (account st))
    end
  end.

(** One pass through the body of [while (remaining > 0)]. *)
Definition body (cancel : bool) (st : racer) : M step :=
  c ← check_cancel cancel;
  if (c : bool) then
    close_all (fds st) ;;
    mret (Done (Result [] (sock st)))
  else
    f ← try_candidate st;
    match f with
    | Return r => mret (Done r)
    | Continue st => mret (Again st)
    | Fall st =>
      match addrlist st, fds st with
      | [], [] =>
        put_errno EHOSTDOWN ;;
        mret (Break st)
      | _, _ => wait_and_take cancel st
      end
    end.

(** The code after the loop. *)
Definition give_up_connecting (st : racer) : M result :=
  (if remaining st <=? 0 then put_errno ETIMEDOUT else mret tt) ;;
  close_all (fds st) ;;
  e ← get_errno;
  _cupsSetError IPP_STATUS_ERROR_SERVICE_UNAVAILABLE (Strerror e) ;;
  mret (Result [] (sock st)).

(** The loop [while (remaining > 0)] for at most [fuel] passes; [None] when
    they do not suffice. *)
Fixpoint connect_loop (fuel : nat) (cancel : bool) (st : racer) : M (option result) :=
  if remaining st >? 0 then
    match fuel with
    | O => mret None
    | S fuel' =>
      s ← body cancel st;
      match s with
      | Again st' => connect_loop fuel' cancel st'
      | Break st' => Some <$> give_up_connecting st'
      | Done r => mret (Some r)
      | Stuck => mret None
      end
    end
  else Some <$> give_up_connecting st.

(** [httpAddrConnect(addrlist, sock, msec, cancel)].  [sock] is [None] for a
    null pointer and otherwise the value the caller's variable holds; the
    result is the returned node with the final value of that variable.
    [httpInitialize] only prepares the process and is left out. *)
Definition httpAddrConnect (fuel : nat) (addrlist : node) (sock : option Z)
    (msec : Z) (cancel : bool) : M (option (node * option Z)) :=
  match sock with
  | None =>
    put_errno EINVAL ;;
    e ← get_errno;
    _cupsSetError IPP_STATUS_ERROR_INTERNAL (Strerror e) ;;
    mret (Some ([], None))
  | Some s =>
    c ← check_cancel cancel;
    if (c : bool) then mret (Some ([], Some s))
    else
      let msec := if msec <=? 0 then INT_MAX else msec in
      r ← connect_loop fuel cancel (Racer addrlist [] [] msec s);
      mret ((λ r, (r_ret r, Some (r_sock r))) <$> r)
  end.

(** Passes of the main loop that always suffice. *)
Definition enough_fuel (addrlist : node) (msec : Z) : nat :=
  length addrlist + Z.to_nat (if msec <=? 0 then INT_MAX else msec).

End Racer.

(** ** Address lists in memory: httpAddrCopyList and httpAddrFreeList *)

Module AddrList.

(** A pointer to a node; [None] is [NULL]. *)
Definition ptr : Type := option positive.

Definition zero_node : http_addrlist_t := Node None AddrZero.

(** Reading and writing the node a pointer refers to.  Using a pointer to no
    live node is a memory error, recorded in [w_fault]. *)
Definition load (p : positive) : M http_addrlist_t := λ w,
  match w_heap w !! p with
  | Some n => (n, w)
  | None => (zero_node, set_fault w)
  end.

Definition store (p : positive) (n : http_addrlist_t) : M unit := λ w,
  match w_heap w !! p with
  | Some _ => (tt, set_heap (<[p := n]> (w_heap w)) w)
  | None => (tt, set_fault w)
  end.

(** [malloc(sizeof(http_addrlist_t))] and [calloc(1, sizeof(...))]: [NULL]
    when the allocator refuses, else a block that was not live.  The block
    starts out zeroed; after [malloc] the code overwrites all of it before
    reading it. *)
Definition alloc : M ptr :=
  a ← syscall (λ a, EvAlloc (negb (a_ret a <? 0)));
  if a_ret a <? 0 then mret None
  else λ w, let p := fresh (dom (w_heap w)) in
            (Some p, set_heap (<[p := zero_node]> (w_heap w)) w).

Definition malloc : M ptr := alloc.
Definition calloc : M ptr := alloc.

Definition free (p : positive) : M unit := λ w,
  match w_heap w !! p with
  | Some _ => (tt, add_log (EvFree p) (set_heap (delete p (w_heap w)) w))
  | None => (tt, set_fault w)
  end.

(** [p->next] and [p->next = q]. *)
Definition get_next (p : positive) : M ptr := n ← load p; mret (next n).
Definition set_next (p : positive) (q : ptr) : M unit :=
  n ← load p; store p (Node q (addr n)).
Definition set_addr (p : positive) (a : http_addr_t) : M unit :=
  n ← load p; store p (Node (next n) a).

(** [while (addrlist) { next = addrlist->next; free(addrlist);
    addrlist = next; }], for at most [fuel] nodes; [None] when they do not
    suffice. *)
Fixpoint free_loop (fuel : nat) (addrlist : ptr) : M (option unit) :=
  match addrlist with
  | None => mret (Some tt)
  | Some p =>
    match fuel with
    | O => mret None
    | S fuel' =>
      nx ← get_next p;
      free p ;;
      free_loop fuel' nx
    end
  end.

Definition httpAddrFreeList (fuel : nat) (addrlist : ptr) : M (option unit) :=
  free_loop fuel addrlist.

(** The loop of [httpAddrCopyList] with its locals [src], [dst] and [prev],
    for at most [fuel] nodes.  When [malloc] fails the nodes built so far
    are freed by a loop that is the one of [httpAddrFreeList] (given the
    function's whole allowance [fuel0]), and [NULL] is returned. *)
Fixpoint copy_loop (fuel0 fuel : nat) (src dst prev : ptr) : M (option ptr) :=
  match src with
  | None => mret (Some dst)
  | Some s =>
    match fuel with
    | O => mret None
    | S fuel' =>
      current ← malloc;
      match current with
      | None =>
        r ← free_loop fuel0 dst;
        mret ((λ _, None) <$> r)
      | Some c =>
        n ← load s;
        store c n ;;
        set_next c None ;;
        dst' ← match prev with
               | Some p => set_next p (Some c) ;; mret dst
               | None => mret (Some c)
               end;
        nx ← get_next s;
        copy_loop fuel0 fuel' nx dst' (Some c)
      end
    end
  end.

Definition httpAddrCopyList (fuel : nat) (src : ptr) : M (option ptr) :=
  copy_loop fuel fuel src None None.

(** The nodes from [p] up to [q], with the blocks they live in. *)
Fixpoint lseg (h : gmap positive http_addrlist_t) (p : ptr)
    (nodes : list (positive * http_addr_t)) (q : ptr) : Prop :=
  match nodes with
  | [] => p = q
  | (l, a) :: rest =>
    p = Some l ∧ ∃ nx, h !! l = Some (Node nx a) ∧ lseg h nx rest q
  end.

(** [p] heads a list made of [nodes]. *)
Definition is_list (h : gmap positive http_addrlist_t) (p : ptr)
    (nodes : list (positive * http_addr_t)) : Prop :=
  lseg h p nodes None.

(** The addresses of a list in memory, read off by following [next] for at
    most [fuel] nodes. *)
Fixpoint addresses (fuel : nat) (h : gmap positive http_addrlist_t) (p : ptr)
    : list http_addr_t :=
  match fuel, p with
  | S fuel', Some l =>
    match h !! l with
    | Some n => addr n :: addresses fuel' h (next n)
    | None => []
    end
  | _, _ => []
  end.

End AddrList.

(** ** httpAddrGetList: the resolver *)

Module Resolver.

Import AddrList.

(** *** Strings of the C library *)

Definition is_char (c : ascii) (d : string) : bool :=
  match d with
  | String d' EmptyString => if decide (c = d') then true else false
  | _ => false
  end.

(** [isdigit(c & 255)] *)
Definition isdigit (c : ascii) : bool :=
  let n := N_of_ascii c in (48 <=? n)%N && (n <=? 57)%N.

(** [*s], the first byte of a string (the terminating 0 when it is empty). *)
Definition first_char (s : string) : ascii :=
  match s with
  | EmptyString => zero
  | String c _ => c
  end.

(** [isspace(c)] in the C locale. *)
Definition isspace (c : ascii) : bool :=
  let n := N_of_ascii c in (n =? 32)%N || ((9 <=? n)%N && (n <=? 13)%N).

Fixpoint skip_space (s : string) : string :=
  match s with
  | String c s' => if isspace c then skip_space s' else s
  | EmptyString => s
  end.

(** The value of the leading decimal digits of a string, after [acc]. *)
Fixpoint atoi_from (acc : Z) (s : string) : Z :=
  match s with
  | String c s' =>
    if isdigit c then atoi_from (10 * acc + (Z.of_N (N_of_ascii c) - 48)) s'
    else acc
  | EmptyString => acc
  end.

(** [long] has 64 bits and [int] 32. *)
Definition LONG_MAX : Z := 9223372036854775807.
Definition LONG_MIN : Z := -9223372036854775808.

(** [strtol(s, NULL, 10)]: white space is skipped, one sign is taken, the
    decimal digits are read, and a value that does not fit a [long] is
    replaced by [LONG_MAX] or [LONG_MIN]. *)
Definition strtol (s : string) : Z :=
  match skip_space s with
  | String c s' =>
    if is_char c "-" then Z.max LONG_MIN (- atoi_from 0 s')
    else if is_char c "+" then Z.min LONG_MAX (atoi_from 0 s')
    else Z.min LONG_MAX (atoi_from 0 (String c s'))
  | EmptyString => 0
  end.

(** The conversion of a [long] to [int]: the low 32 bits, as a signed
    number. *)
Definition to_int (x : Z) : Z := (x + 2147483648) `mod` 4294967296 - 2147483648.

(** [atoi(s)] as the C library of the GNU system has it:
    [(int)strtol(s, NULL, 10)]. *)
Definition atoi (s : string) : Z := to_int (strtol s).

Definition tolower (c : ascii) : ascii :=
  let n := N_of_ascii c in
  if (65 <=? n)%N && (n <=? 90)%N then ascii_of_N (n + 32) else c.

(** Modelled from the spec: [_cups_strcasecmp] is defined outside the files
    shown; it compares two strings without regard to the case of ASCII
    letters and returns 0 when they are equal. *)
Fixpoint _cups_strcasecmp (s t : string) : Z :=
  match s, t with
  | EmptyString, EmptyString => 0
  | EmptyString, String _ _ => -1
  | String _ _, EmptyString => 1
  | String c s', String d t' =>
    let x := N_of_ascii (tolower c) in
    let y := N_of_ascii (tolower d) in
    if (x <? y)%N then -1
    else if (y <? x)%N then 1
    else _cups_strcasecmp s' t'
  end.

(** [strcmp(s, t) == 0] *)
Definition streq (s t : string) : bool := if decide (s = t) then true else false.

Fixpoint str_take (n : nat) (s : string) : string :=
  match n, s with
  | S n', String c s' => String c (str_take n' s')
  | _, _ => EmptyString
  end.

Fixpoint str_drop (n : nat) (s : string) : string :=
  match n, s with
  | S n', String _ s' => str_drop n' s'
  | _, _ => s
  end.

(** Modelled from the spec: [cupsCopyString] is defined outside the files
    shown; it copies a string into a buffer of [size] bytes, keeping at most
    [size - 1] bytes of it. *)
Definition cupsCopyString (src : string) (size : nat) : string :=
  str_take (size - 1) src.

(** [if ((len = strlen(s) - 1) >= 0 && s[len] == ']') s[len] = '\0';]: the
    string without its last byte when that byte is a closing bracket. *)
Fixpoint chop_bracket (s : string) : option string :=
  match s with
  | EmptyString => None
  | String c EmptyString => if is_char c "]" then Some EmptyString else None
  | String c s' => String c <$> chop_bracket s'
  end.

(** [if ((p = strrchr(s, '+')) != NULL) *p = '%';]: the string with its
    last plus sign turned into a percent sign, and whether there was one. *)
Fixpoint zone_percent (s : string) : string * bool :=
  match s with
  | EmptyString => (EmptyString, false)
  | String c s' =>
    let '(t, found) := zone_percent s' in
    if found then (String c t, true)
    else if is_char c "+" then (String "%" t, true)
    else (String c t, false)
  end.

(** The block [if (hostname && *hostname == '[') { ... }]: the name handed
    to [getaddrinfo], with [ipv6] a buffer of 64 bytes. *)
Definition unbracket (hostname : string) : string :=
  if is_char (first_char hostname) "[" then
    if String.prefix "[v1." hostname then
      let ipv6 := cupsCopyString (str_drop 4 hostname) 64 in
      match chop_bracket ipv6 with
      | Some ipv6 => (zone_percent ipv6).1
      | None => hostname
      end
    else
      let ipv6 := cupsCopyString (str_drop 1 hostname) 64 in
      match chop_bracket ipv6 with
      | Some ipv6 => ipv6
      | None => hostname
      end
  else hostname.

(** *** Byte order (little-endian host) *)

(** [htons] and [htonl] swap the bytes of the low 16 and 32 bits. *)
Definition htons (x : Z) : Z :=
  (x mod 256) * 256 + (x / 256) mod 256.

Definition ntohs (x : Z) : Z := htons x.

Definition htonl (x : Z) : Z :=
  (x mod 256) * 16777216 + ((x / 256) mod 256) * 65536
  + ((x / 65536) mod 256) * 256 + (x / 16777216) mod 256.

(** Modelled from the spec: [httpAddrGetPort] is defined outside the files
    shown; it gives the port of an address in host byte order. *)
Definition httpAddrGetPort (a : http_addr_t) : Z :=
  match a with
  | AddrIPv4 p _ | AddrIPv6 p _ _ => ntohs p
  | _ => 0
  end.

(** *** The resolver of the C library *)

(** [getaddrinfo(name, service, &hints, &results)] with [hints.ai_family]
    and [hints.ai_flags]: the error code and the results. *)
Definition sys_getaddrinfo (name service : option string) (family flags : Z)
    : M (Z * list addrinfo) := λ w,
  (w_dns w name service family flags,
   add_log (EvGetaddrinfo name service family flags) w).

(** [getservbyname(service, NULL)]: [s_port] of the entry, if there is
    one. *)
Definition sys_getservbyname (service : string) : M (option Z) := λ w,
  (w_services w service, add_log (EvGetservbyname service) w).

Definition res_init : M unit := λ w, (tt, add_log EvResInit w).

Definition get_need_res_init : M bool := λ w, (w_need_res_init w, w).
Definition put_need_res_init (b : bool) : M unit :=
  λ w, (tt, set_need_res_init b w).

(** *** httpAddrGetList *)

(** The service lookup of the fallback, [if (!service) ... else ...]:
    the port number, or [None] where the code gives up on an unknown
    service name. *)
Definition service_port (service : option string) : M (option Z) :=
  match service with
  | None => mret (Some 0)
  | Some s =>
    if isdigit (first_char s) then mret (Some (atoi s))
    else
      port ← sys_getservbyname s;
      match port with
      | Some s_port => mret (Some (ntohs s_port))
      | None =>
        if streq s "http" then mret (Some 80)
        else if streq s "https" then mret (Some 443)
        else if streq s "ipp" || streq s "ipps" then mret (Some 631)
        else if streq s "lpd" then mret (Some 515)
        else if streq s "socket" then mret (Some 9100)
        else mret None
      end
  end.

(** The lists [first .. addr] the function builds, and how a block ends:
    with the two cursors, or by returning from the function. *)
Inductive built : Type :=
| Going (first addr : ptr)
| Returned (r : option ptr).

(** The loop over the results of [getaddrinfo]. *)
Fixpoint copy_results (fuel : nat) (results : list addrinfo) (first addr : ptr)
    : M built :=
  match results with
  | [] => mret (Going first addr)
  | current :: results' =>
    if (ai_family current =? AF_INET) || (ai_family current =? AF_INET6) then
      temp ← calloc;
      match temp with
      | None =>
        r ← httpAddrFreeList fuel first;
        e ← get_errno;
        _cupsSetError IPP_STATUS_ERROR_INTERNAL (Strerror e) ;;
        mret (Returned ((λ _, None) <$> r))
      | Some t =>
        set_addr t (ai_addr current) ;;
        let first := match first with None => Some t | Some _ => first end in
        match addr with
        | Some a => set_next a (Some t)
        | None => mret tt
        end ;;
        copy_results fuel results' first (Some t)
      end
    else copy_results fuel results' first addr
  end.

(** One address of the fallback: [calloc], fill in, [if (!first) first =
    temp;] and then either [addr = temp;] (the IPv6 entries) or
    [if (addr) addr->next = temp;] (the IPv4 entries). *)
Definition add_fallback (fuel : nat) (a : http_addr_t) (ipv6 : bool)
    (first addr : ptr) : M built :=
  temp ← calloc;
  match temp with
  | None =>
    e ← get_errno;
    _cupsSetError IPP_STATUS_ERROR_INTERNAL (Strerror e) ;;
    r ← httpAddrFreeList fuel first;
    mret (Returned ((λ _, None) <$> r))
  | Some t =>
    set_addr t a ;;
    let first := match first with None => Some t | Some _ => first end in
    if ipv6 then mret (Going first (Some t))
    else
      match addr with
      | Some p => set_next p (Some t)
      | None => mret tt
      end ;;
      mret (Going first addr)
  end.

(** The two entries of a fallback: the IPv6 one [if (family != AF_INET)],
    the IPv4 one [if (family != AF_INET6)]. *)
Definition add_fallbacks (fuel : nat) (family : Z) (a6 a4 : http_addr_t)
    (first addr : ptr) : M built :=
  b ← (if negb (family =? AF_INET) then add_fallback fuel a6 true first addr
       else mret (Going first addr));
  match b with
  | Returned r => mret (Returned r)
  | Going first addr =>
    if negb (family =? AF_INET6) then add_fallback fuel a4 false first addr
    else mret (Going first addr)
  end.

(** [httpAddrGetList(hostname, family, service)]; [fuel] bounds the loops
    of [httpAddrFreeList], and the result is [None] when it does not
    suffice.  [httpInitialize] only prepares the process and is left out. *)
Definition httpAddrGetList (fuel : nat) (hostname : option string) (family : Z)
    (service : option string) : M (option ptr) :=
  need ← get_need_res_init;
  (if (need : bool) then res_init ;; put_need_res_init false else mret tt) ;;
  '(b, hostname) ←
    match hostname with
    | Some h =>
      if is_char (first_char h) "/" then
        first ← calloc;
        match first with
        | Some f =>
          set_addr f (AddrLocal (cupsCopyString h 108)) ;;
          mret (Going first first, hostname)
        | None => mret (Going None None, hostname)
        end
      else if negb (_cups_strcasecmp h "localhost" =? 0) then
        let h := unbracket h in
        '(error, results) ← sys_getaddrinfo (Some h) service family 0;
        if error =? 0 then
          b ← copy_results fuel results None None;
          mret (b, Some h)
        else
          (if error =? EAI_FAIL then put_need_res_init true else mret tt) ;;
          _cupsSetError IPP_STATUS_ERROR_INTERNAL (GaiStrerror error) ;;
          mret (Going None None, Some h)
      else mret (Going None None, hostname)
    | None =>
      '(error, results) ← sys_getaddrinfo None service family AI_PASSIVE;
      if error =? 0 then
        b ← copy_results fuel results None None;
        mret (b, None)
      else
        (if error =? EAI_FAIL then put_need_res_init true else mret tt) ;;
        _cupsSetError IPP_STATUS_ERROR_INTERNAL (GaiStrerror error) ;;
        mret (Going None None, None)
    end;
  match b with
  | Returned r => mret r
  | Going first addr =>
    let localhost := match hostname with
                     | Some h => _cups_strcasecmp h "localhost" =? 0
                     | None => false
                     end in
    let absent := match hostname with None => true | Some _ => false end in
    match addr with
    | None =>
      if absent || localhost then
        port ← service_port service;
        match port with
        | None =>
          r ← httpAddrFreeList fuel first;
          _cupsSetError IPP_STATUS_ERROR_INTERNAL (Message "Unknown service name.") ;;
          mret ((λ _, None) <$> r)
        | Some portnum =>
          b ← (if localhost then
                 add_fallbacks fuel family
                   (AddrIPv6 (htons portnum) [0; 0; 0; htonl 1] 0)
                   (AddrIPv4 (htons portnum) (htonl 2130706433))
                   first addr
               else
                 add_fallbacks fuel family
                   (AddrIPv6 (htons portnum) [0; 0; 0; 0] 0)
                   (AddrIPv4 (htons portnum) 0)
                   first addr);
          match b with
          | Returned r => mret r
          | Going first _ => mret (Some first)
          end
        end
      else mret (Some first)
    | Some _ => mret (Some first)
    end
  end.

(** The table of service names the spec gives for the fallback. *)
Definition builtin_services : list (string * Z) :=
  [("http", 80); ("https", 443); ("ipp", 631); ("ipps", 631); ("lpd", 515);
   ("socket", 9100)]%string.

End Resolver.

(** ** cupsLocalizeNotifySubject *)

Module Notify.

Import Resolver.

(** The value tags and the job and printer state values of [ipp.h], which
    is not among the files shown: taken as parameters. *)
Class ipp_h : Type := IppH {
  IPP_TAG_INTEGER : Z;
  IPP_TAG_ENUM : Z;
  IPP_TAG_NAME : Z;
  IPP_TAG_KEYWORD : Z;
  IPP_TAG_URI : Z;
  IPP_JSTATE_PENDING : Z;
  IPP_JSTATE_HELD : Z;
  IPP_JSTATE_PROCESSING : Z;
  IPP_JSTATE_STOPPED : Z;
  IPP_JSTATE_CANCELED : Z;
  IPP_JSTATE_ABORTED : Z;
  IPP_JSTATE_COMPLETED : Z;
  IPP_PSTATE_IDLE : Z;
  IPP_PSTATE_PROCESSING : Z;
  IPP_PSTATE_STOPPED : Z;
}.

(** [values[0]] of an attribute, read as an integer and as a string. *)
Record ipp_attribute_t : Type := Attribute {
  integer : Z;
  text : string;
}.

Section notify.

Context `{ipp_h}.

(** The language data and the IPP message, with the two functions of the
    library that read them ([cupsLangGetString] gives the localized form of
    a message, [ippFindAttribute] the attribute of a name and value tag, if
    the message has one); both are defined outside the files shown. *)
Variables cups_lang_t ipp_t : Type.
Variable cupsLangGetString : cups_lang_t → string → string.
Variable ippFindAttribute : ipp_t → string → Z → option ipp_attribute_t.

(** [snprintf(buffer, sizeof(buffer), ...)] with [char buffer[1024]]
    keeps the first 1023 bytes of the formatted text. *)
Definition buffer_size : nat := 1024.

Definition snprintf (formatted : string) : string :=
  str_take (buffer_size - 1) formatted.

(** [strdup]: [NULL] when the allocator refuses. *)
Definition strdup (s : string) : M (option string) :=
  a ← syscall (λ a, EvAlloc (negb (a_ret a <? 0)));
  if a_ret a <? 0 then mret None else mret (Some s).

(** The [switch (job_state->values[0].integer)]. *)
Definition job_state_word (lang : cups_lang_t) (state : Z) : string :=
  if state =? IPP_JSTATE_PENDING then cupsLangGetString lang "pending"
  else if state =? IPP_JSTATE_HELD then cupsLangGetString lang "held"
  else if state =? IPP_JSTATE_PROCESSING then cupsLangGetString lang "processing"
  else if state =? IPP_JSTATE_STOPPED then cupsLangGetString lang "stopped"
  else if state =? IPP_JSTATE_CANCELED then cupsLangGetString lang "canceled"
  else if state =? IPP_JSTATE_ABORTED then cupsLangGetString lang "aborted"
  else if state =? IPP_JSTATE_COMPLETED then cupsLangGetString lang "completed"
  else cupsLangGetString lang "unknown".

(** The [switch (printer_state->values[0].integer)]. *)
Definition printer_state_word (lang : cups_lang_t) (state : Z) : string :=
  if state =? IPP_PSTATE_IDLE then cupsLangGetString lang "idle"
  else if state =? IPP_PSTATE_PROCESSING then cupsLangGetString lang "processing"
  else if state =? IPP_PSTATE_STOPPED then cupsLangGetString lang "stopped"
  else cupsLangGetString lang "unknown".

(** The text formatted by ["%s %s-%d (%s) %s"]. *)
Definition job_subject (prefix printer : string) (job_id : Z)
    (job_name state : string) : string :=
  (prefix +:+ " " +:+ printer +:+ "-" +:+ pretty job_id +:+ " (" +:+ job_name
   +:+ ") " +:+ state)%string.

(** The text formatted by ["%s %s %s"]. *)
Definition printer_subject (prefix printer state : string) : string :=
  (prefix +:+ " " +:+ printer +:+ " " +:+ state)%string.

Definition cupsLocalizeNotifySubject (lang : option cups_lang_t)
    (event : option ipp_t) : M (option string) :=
  match event, lang with
  | Some event, Some lang =>
    let job_id := ippFindAttribute event "notify-job-id" IPP_TAG_INTEGER in
    let job_name := ippFindAttribute event "job-name" IPP_TAG_NAME in
    let job_state := ippFindAttribute event "job-state" IPP_TAG_ENUM in
    let printer_name := ippFindAttribute event "printer-name" IPP_TAG_NAME in
    let printer_state := ippFindAttribute event "printer-state" IPP_TAG_ENUM in
    let printer_uri := ippFindAttribute event "notify-printer-uri" IPP_TAG_URI in
    let subscribed :=
      ippFindAttribute event "notify-subscribed-event" IPP_TAG_KEYWORD in
    match job_id, printer_name, printer_uri, job_state with
    | Some job_id, Some printer_name, Some _, Some job_state =>
      let prefix := cupsLangGetString lang "Print Job:" in
      let state := job_state_word lang (integer job_state) in
      strdup (snprintf (job_subject prefix (text printer_name) (integer job_id)
                          (match job_name with
                           | Some job_name => text job_name
                           | None => cupsLangGetString lang "untitled"
                           end)
                          state))
    | _, _, _, _ =>
      match printer_uri, printer_name, printer_state with
      | Some _, Some printer_name, Some printer_state =>
        let prefix := cupsLangGetString lang "Printer:" in
        let state := printer_state_word lang (integer printer_state) in
        strdup (snprintf (printer_subject prefix (text printer_name) state))
      | _, _, _ =>
        match subscribed with
        | Some subscribed =>
          strdup (cupsCopyString (text subscribed) buffer_size)
        | None => mret None
        end
      end
    end
  | _, _ => mret None
  end.

End notify.

(** ** cupsLocalizeNotifyText *)

Section notify_text.

(** The tag of text values in [ipp.h], and the types and the attribute
    lookup of the library, as for the subject. *)
Variable IPP_TAG_TEXT : Z.
Variables cups_lang_t ipp_t : Type.
Variable ippFindAttribute : ipp_t → string → Z → option ipp_attribute_t.

Definition cupsLocalizeNotifyText (lang : option cups_lang_t)
    (event : option ipp_t) : M (option string) :=
  match event, lang with
  | Some event, Some lang =>
    match ippFindAttribute event "notify-text" IPP_TAG_TEXT with
    | None => mret None
    | Some notify_text => strdup (text notify_text)
    end
  | _, _ => mret None
  end.

End notify_text.

(** The values of RFC 8011, and a message kept as a list of named, tagged
    attributes, to run the function on. *)
Definition rfc8011 : ipp_h :=
  IppH 33 35 66 68 69 3 4 5 6 7 8 9 3 4 5.

Definition message : Type := list (string * Z * ipp_attribute_t).

Definition find_attribute (event : message) (name : string) (tag : Z)
    : option ipp_attribute_t :=
  (λ r, r.2.2) <$> list_find (λ a, a.1.1 = name ∧ a.1.2 = tag) event.

(** A language that leaves every message as it is. *)
Definition plain_language (_ : unit) (msg : string) : string := msg.

End Notify.

(** * Reasoning about runs *)

(** [post m w Q]: running [m] from [w] ends with a value and a world that
    satisfy [Q]. *)
Definition post {A} (m : M A) (w : world) (Q : A → world → Prop) : Prop :=
  Q (m w).1 (m w).2.

Lemma post_ret {A} (a : A) w (Q : A → world → Prop) : Q a w → post (mret a) w Q.
Proof. done. Qed.

Lemma post_bind {A B} (m : M A) (f : A → M B) w (Q : B → world → Prop) :
  post m w (λ a w1, post (f a) w1 Q) → post (m ≫= f) w Q.
Proof. unfold post, mbind, M_bind. cbv beta. by destruct (m w). Qed.

Lemma post_fmap {A B} (m : M A) (f : A → B) w (Q : B → world → Prop) :
  post m w (λ a w1, Q (f a) w1) → post (f <$> m) w Q.
Proof. unfold post, fmap, M_fmap. cbv beta. by destruct (m w). Qed.

Lemma post_mono {A} (m : M A) w (Q Q' : A → world → Prop) :
  post m w Q → (∀ a w1, Q a w1 → Q' a w1) → post m w Q'.
Proof. unfold post. auto. Qed.

Lemma post_eq {A} (m : M A) w (Q : A → world → Prop) a w1 :
  post m w Q → m w = (a, w1) → Q a w1.
Proof. unfold post. intros H E. by rewrite E in H. Qed.

(** The part of a run the theorems speak about: the calls it adds to the
    log, the last-error slot it leaves alone, the script it consumes. *)
Record steps (w w1 : world) (evs : list event) : Prop := Steps {
  steps_log : w_log w1 = w_log w ++ evs;
  steps_err : w_last_error w1 = w_last_error w;
  steps_script : (length (w_script w1) ≤ length (w_script w))%nat;
}.

Lemma steps_refl w : steps w w [].
Proof. split; [by rewrite app_nil_r | done | done]. Qed.

Lemma steps_trans w w1 w2 e1 e2 :
  steps w w1 e1 → steps w1 w2 e2 → steps w w2 (e1 ++ e2).
Proof.
  intros [L1 E1 S1] [L2 E2 S2]. split.
  - by rewrite L2, L1, app_assoc.
  - congruence.
  - lia.
Qed.

(** A cancel variable read as set. *)
Definition cancel_set (ev : event) : bool :=
  match ev with EvCancel v => negb (v =? 0) | _ => false end.

Definition cancel_seen (evs : list event) : bool := existsb cancel_set evs.

(** The timeouts of the [poll] calls of a trace, in order. *)
Definition polls (evs : list event) : list Z :=
  omap (λ ev, match ev with EvPoll _ t _ _ => Some t | _ => None end) evs.

Lemma cancel_seen_app e1 e2 :
  cancel_seen (e1 ++ e2) = cancel_seen e1 || cancel_seen e2.
Proof. apply existsb_app. Qed.

Lemma polls_app e1 e2 : polls (e1 ++ e2) = polls e1 ++ polls e2.
Proof. apply omap_app. Qed.

(** A trace with no cancel read as set and no [poll]. *)
Definition quiet (evs : list event) : Prop :=
  cancel_seen evs = false ∧ polls evs = [].

Lemma quiet_nil : quiet [].
Proof. done. Qed.

Lemma quiet_app e1 e2 : quiet e1 → quiet e2 → quiet (e1 ++ e2).
Proof.
  intros [Hc1 P1] [Hc2 P2]. split.
  - by rewrite cancel_seen_app, Hc1, Hc2.
  - by rewrite polls_app, P1, P2.
Qed.

Section primitives.

Lemma next_answer_post w :
  post next_answer w (λ a w1,
    steps w w1 [] ∧ w_open w1 = w_open w ∧ w_errno w1 = w_errno w ∧
    (a_ret a ≠ 0 → (length (w_script w1) < length (w_script w))%nat)).
Proof.
  unfold post, next_answer. destruct (w_script w) as [|a s] eqn:E; simpl.
  - split; [apply steps_refl|]. done.
  - split; [|split; [done|split; [done|simpl; lia]]].
    split; simpl; [by rewrite app_nil_r | done | rewrite E; simpl; lia].
Qed.

Lemma syscall_post ev w :
  post (syscall ev) w (λ a w1,
    steps w w1 [ev a] ∧ w_open w1 = w_open w ∧
    (a_ret a ≠ 0 → (length (w_script w1) < length (w_script w))%nat) ∧
    (0 ≤ a_ret a → w_errno w1 = w_errno w)).
Proof.
  pose proof (next_answer_post w) as H. unfold post in *. unfold syscall.
  destruct (next_answer w) as [a w1]. simpl in *.
  destruct H as ([L E S] & O & Er & Lt).
  rewrite app_nil_r in L.
  destruct (a_ret a <? 0) eqn:Hneg; simpl;
    (split; [split; simpl; [by rewrite L | done | done]|]);
    (split; [done|]); (split; [done|]); intros; [lia | done].
Qed.

Lemma remove_first_Some x l o : remove_first x l = Some o → l ≡ₚ x :: o.
Proof.
  revert o. induction l as [|y l IH]; intros o; simpl; [done|].
  case_decide as Hxy.
  - intros [= <-]. by subst.
  - destruct (remove_first x l) as [o'|]; simpl; [|done].
    intros [= <-]. rewrite (IH o' eq_refl). apply Permutation_swap.
Qed.

Lemma remove_first_elem x l : x ∈ l → is_Some (remove_first x l).
Proof.
  induction 1 as [|y z l Hin IH]; simpl.
  - rewrite decide_True by done. eauto.
  - case_decide; [eauto|]. destruct IH as [o ->]. simpl. eauto.
Qed.

Lemma sys_close_post fd w :
  post (sys_close fd) w (λ _ w1,
    ∃ ok, steps w w1 [EvClose fd ok] ∧
      ∀ O, w_open w ≡ₚ fd :: O → w_open w1 ≡ₚ O).
Proof.
  unfold post, sys_close.
  destruct (remove_first fd (w_open w)) as [o|] eqn:E; simpl.
  - exists true. split; [by split|].
    intros O HO. apply remove_first_Some in E.
    rewrite E in HO. by apply Permutation_cons_inv in HO.
  - exists false. split; [by split|].
    intros O HO. exfalso.
    destruct (remove_first_elem fd (w_open w)) as [? ?]; [|congruence].
    rewrite HO. left.
Qed.

Lemma sys_socket_post family type protocol w :
  post (sys_socket family type protocol) w (λ fd w1,
    ∃ evs, steps w w1 evs ∧ quiet evs ∧
      w_open w1 = if fd <? 0 then w_open w else fd :: w_open w).
Proof.
  unfold sys_socket. apply post_bind.
  eapply post_mono; [apply syscall_post|]. intros a w1 (S & O & _ & _).
  destruct (a_ret a <? 0) eqn:E.
  - apply post_ret. rewrite E. by exists [EvSocket family (a_ret a)].
  - unfold post; simpl. rewrite E. eexists. split; [|split; [|by rewrite O]].
    + destruct S. by split.
    + done.
Qed.

(** Calls that neither open nor close a descriptor. *)
Definition plain {A} (m : M A) : Prop :=
  ∀ w, post m w (λ _ w1, ∃ evs, steps w w1 evs ∧ quiet evs ∧ w_open w1 = w_open w).

Lemma plain_syscall ev :
  (∀ a, cancel_set (ev a) = false) →
  (∀ a, polls [ev a] = []) →
  ∀ {B} (f : answer → B), plain (a ← syscall ev; mret (f a)).
Proof.
  intros Hc Hp B f w. apply post_bind.
  eapply post_mono; [apply syscall_post|]. intros a w1 (S & O & _).
  apply post_ret. exists [ev a]. split; [done|]. split; [|done].
  split; [|done]. unfold cancel_seen; simpl. by rewrite Hc.
Qed.

Lemma plain_setsockopt fd level name val : plain (sys_setsockopt fd level name val).
Proof. by apply plain_syscall. Qed.

Lemma plain_fcntl fd cmd arg : plain (sys_fcntl fd cmd arg).
Proof. by apply plain_syscall. Qed.

Lemma plain_connect fd a : plain (sys_connect fd a).
Proof. by apply plain_syscall. Qed.

Lemma plain_getsockopt fd : plain (sys_getsockopt_error fd).
Proof.
  apply (plain_syscall (λ a, EvGetsockopt fd (a_ret a) (hd 0 (a_out a))));
    done.
Qed.

Lemma plain_get_errno : plain get_errno.
Proof. intros w. exists []. split; [apply steps_refl|]. done. Qed.

Lemma plain_put_errno e : plain (put_errno e).
Proof. intros w. exists []. split; [by split; simpl; rewrite ?app_nil_r|]. done. Qed.

End primitives.

(** * The racer: blocks of the loop body *)

Import Racer.

Ltac step L := apply post_bind; eapply post_mono; [apply L|]; cbv beta.

Ltac solve_steps :=
  first [ eassumption
        | apply steps_refl
        | eapply steps_trans; [eassumption | solve_steps] ].

Ltac solve_quiet :=
  repeat (apply quiet_app; [assumption|]);
  first [assumption | apply quiet_nil].

Ltac open_rw :=
  repeat match goal with
         | H : w_open ?x = _ |- context [w_open ?x] => rewrite H
         end.

(** Give the trace of a finished run from the [steps] facts collected. *)
Ltac trace := eexists; split; [solve_steps|].

Section racer_blocks.

Lemma check_cancel_post cancel w :
  post (check_cancel cancel) w (λ c w1,
    ∃ evs, steps w w1 evs ∧ cancel_seen evs = c ∧ polls evs = [] ∧
      w_open w1 = w_open w ∧
      (evs = [] ∨ (∃ a s, w_script w = a :: s) ∨ c = false)).
Proof.
  unfold check_cancel. destruct cancel.
  - unfold read_cancel. apply post_bind, post_bind.
    eapply post_mono; [apply syscall_post|]. intros a w1 (S & O & Lt & _).
    apply post_ret, post_ret. exists [EvCancel (a_ret a)].
    split; [done|]. unfold cancel_seen; simpl. rewrite orb_false_r.
    do 3 (split; [done|]). destruct (a_ret a =? 0) eqn:E; [by right; right|].
    right; left. apply Z.eqb_neq, Lt in E.
    destruct (w_script w); [simpl in E; lia|eauto].
  - apply post_ret. exists []. split; [apply steps_refl|]. by repeat split; auto.
Qed.

Lemma httpAddrClose_post fd w :
  post (httpAddrClose fd) w (λ _ w1,
    ∃ evs, steps w w1 evs ∧ quiet evs ∧
      ∀ O, w_open w ≡ₚ fd :: O → w_open w1 ≡ₚ O).
Proof.
  eapply post_mono; [apply sys_close_post|].
  intros _ w1 (ok & S & O). by exists [EvClose fd ok].
Qed.

Lemma close_each_post l w :
  post (close_each l) w (λ _ w1,
    ∃ evs, steps w w1 evs ∧ quiet evs ∧
      ∀ O, w_open w ≡ₚ l ++ O → w_open w1 ≡ₚ O).
Proof.
  revert w. induction l as [|fd l IH]; intros w.
  - apply post_ret. exists []. split; [apply steps_refl|]. by split.
  - unfold close_each; simpl. step httpAddrClose_post.
    intros _ w1 (e1 & S1 & Q1 & O1).
    eapply post_mono; [apply IH|]. intros _ w2 (e2 & S2 & Q2 & O2).
    trace. split; [solve_quiet|]. intros O HO. auto.
Qed.

Lemma close_all_post l w :
  post (close_all l) w (λ _ w1,
    ∃ evs, steps w w1 evs ∧ quiet evs ∧
      ∀ O, w_open w ≡ₚ l ++ O → w_open w1 ≡ₚ O).
Proof.
  eapply post_mono; [apply (close_each_post (reverse l))|].
  intros _ w1 (evs & S & Q & O). exists evs. do 2 (split; [done|]).
  intros O' HO. apply O. by rewrite reverse_Permutation.
Qed.

(** What a block promises about the budget and the cursor. *)
Definition flow_keeps (st : racer) (f : flow) : Prop :=
  match f with
  | Continue st' =>
    remaining st' = remaining st ∧
    (length (addrlist st') < length (addrlist st))%nat
  | Fall st' =>
    remaining st' = remaining st ∧
    (length (addrlist st') ≤ length (addrlist st))%nat
  | Return r => r_ret r ≠ []
  end.

(** The descriptors open after a block, given those open before it. *)
Definition flow_open (f : flow) (w1 : world) (O : list Z) : Prop :=
  match f with
  | Continue st' | Fall st' => w_open w1 ≡ₚ fds st' ++ O
  | Return r => w_open w1 ≡ₚ r_sock r :: O
  end.

Lemma try_candidate_post st w :
  post (try_candidate st) w (λ f w1,
    ∃ evs, steps w w1 evs ∧ quiet evs ∧ flow_keeps st f ∧
      ∀ O, w_open w ≡ₚ fds st ++ O → flow_open f w1 O).
Proof.
  unfold try_candidate. destruct (addrlist st) as [|a rest] eqn:Ea.
  { apply post_ret. exists []. split; [apply steps_refl|].
    split; [done|]. split; [by simpl|]. done. }
  destruct (nfds st <? 100); cycle 1.
  { apply post_ret. exists []. split; [apply steps_refl|].
    split; [done|]. split; [by simpl|]. done. }
  step sys_socket_post. intros fd w1 (e1 & S1 & Q1 & O1).
  destruct (fd <? 0) eqn:Efd.
  { apply post_ret. trace. split; [done|]. split; [simpl; rewrite Ea; simpl; lia|].
    intros O HO; simpl. by rewrite O1. }
  step plain_setsockopt. intros _ w2 (e2 & S2 & Q2 & O2).
  step plain_setsockopt. intros _ w3 (e3 & S3 & Q3 & O3).
  step plain_setsockopt. intros _ w4 (e4 & S4 & Q4 & O4).
  step plain_fcntl. intros _ w5 (e5 & S5 & Q5 & O5).
  step plain_fcntl. intros flags w6 (e6 & S6 & Q6 & O6).
  step plain_fcntl. intros _ w7 (e7 & S7 & Q7 & O7).
  step plain_connect. intros c w8 (e8 & S8 & Q8 & O8).
  destruct (c =? 0).
  { step plain_fcntl. intros _ w9 (e9 & S9 & Q9 & O9).
    step close_all_post. intros _ w10 (e10 & S10 & Q10 & O10).
    apply post_ret. trace. split; [solve_quiet|]. split; [done|].
    intros O HO; simpl. apply O10. open_rw.
    by rewrite HO, Permutation_middle. }
  step plain_get_errno. intros e w9 (e9 & S9 & Q9 & O9).
  destruct (negb (e =? EINPROGRESS) && negb (e =? EWOULDBLOCK)).
  { step httpAddrClose_post. intros _ w10 (e10 & S10 & Q10 & O10).
    apply post_ret. trace. split; [solve_quiet|]. split; [simpl; rewrite Ea; simpl; lia|].
    intros O HO; simpl. apply O10. open_rw. by rewrite HO. }
  step plain_fcntl. intros _ w10 (e10 & S10 & Q10 & O10).
  apply post_ret. trace. split; [solve_quiet|]. split; [simpl; rewrite Ea; simpl; lia|].
  intros O HO; simpl. open_rw.
  rewrite HO, <-(assoc_L (++)). simpl. by rewrite <-Permutation_middle.
Qed.

Lemma sys_poll_post pfds t w :
  post (sys_poll pfds t) w (λ r w1,
    ∃ e, steps w w1 [EvPoll (pfd_fd <$> pfds) t r.1 e] ∧ w_open w1 = w_open w ∧
      (r.1 < 0 → (length (w_script w1) < length (w_script w))%nat)).
Proof.
  unfold sys_poll. step syscall_post. intros a w1 (S & O & Lt & _).
  destruct (a_ret a <? 0); apply post_ret; simpl; exists (a_err a);
    (split; [done|]); (split; [done|]); intros; apply Lt; lia.
Qed.

Lemma wait_ready_eq n cancel st :
  wait_ready n cancel st =
  (c ← check_cancel cancel;
   if (c : bool) then close_all (fds st) ;; mret Cancelled
   else
     '(result, pfds) ← sys_poll ((λ fd, Pollfd fd (Z.lor POLLIN POLLOUT) 0) <$> fds st)
                                (slice st);
     e ← get_errno;
     if (result <? 0) && ((e =? EINTR) || (e =? EAGAIN)) then
       match n with
       | O => mret Interrupted
       | S n' => wait_ready n' cancel st
       end
     else mret (Polled result pfds)).
Proof. by destruct n. Qed.

(** What the wait loop leaves, by the way it ends. *)
Definition waited_ok (n : nat) (st : racer) (w w1 : world) (evs : list event)
    (wt : waited) : Prop :=
  match wt with
  | Cancelled =>
    cancel_seen evs = true ∧ ∀ O, w_open w ≡ₚ fds st ++ O → w_open w1 ≡ₚ O
  | Polled _ _ =>
    cancel_seen evs = false ∧ polls evs ≠ [] ∧ w_open w1 = w_open w
  | Interrupted => (n < length (w_script w))%nat
  end.

Lemma wait_ready_post n cancel st w :
  post (wait_ready n cancel st) w (λ wt w1,
    ∃ evs, steps w w1 evs ∧ Forall (λ t, t = slice st) (polls evs) ∧
      waited_ok n st w w1 evs wt).
Proof.
  revert w. induction n as [|n IH]; intros w; rewrite wait_ready_eq.
  all: step check_cancel_post; intros c w1 (e1 & S1 & Hc1 & P1 & O1 & _).
  all: destruct c.
  1, 3: step close_all_post; intros _ w2 (e2 & S2 & [Hc2 P2] & O2);
    apply post_ret; trace;
    (split; [by rewrite polls_app, P1, P2|]);
    (split; [by rewrite cancel_seen_app, Hc1|]);
    intros O HO; apply O2; by rewrite O1.
  all: step sys_poll_post; intros [r pfds] w2 (ep & S2 & O2 & Lt2);
    step plain_get_errno; intros e w3 (e3 & S3 & [Hc3 P3] & O3); simpl in *.
  all: destruct ((r <? 0) && ((e =? EINTR) || (e =? EAGAIN))) eqn:E.
  all: try (apply post_ret; trace;
    (split; [rewrite !polls_app, P1, P3; simpl; by repeat constructor|]);
    unfold waited_ok).
  - destruct S1, S3. apply andb_true_iff in E as [E _].
    apply Z.ltb_lt, Lt2 in E. lia.
  - rewrite !cancel_seen_app, Hc1, Hc3. split; [done|].
    rewrite !polls_app, P1, P3. split; [done|]. by rewrite O3, O2.
  - eapply post_mono; [apply IH|]. intros wt w4 (e4 & S4 & F4 & W4).
    trace. split.
    { rewrite !polls_app, P1, P3; simpl. by constructor. }
    assert (length (w_script w3) < length (w_script w))%nat as Hlt.
    { destruct S1, S3. apply andb_true_iff in E as [E _].
      apply Z.ltb_lt, Lt2 in E. lia. }
    destruct wt; unfold waited_ok in *.
    + destruct W4 as [Hc4 O4]. rewrite !cancel_seen_app, Hc4.
      split; [by rewrite !orb_true_r|].
      intros O HO. apply O4. by rewrite O3, O2, O1.
    + destruct W4 as (Hc4 & P4 & O4).
      rewrite !cancel_seen_app, Hc1, Hc3, Hc4. split; [done|].
      rewrite !polls_app, P1, P3. split; [done|]. by rewrite O4, O3, O2.
    + lia.
  - rewrite !cancel_seen_app, Hc1, Hc3. split; [done|].
    rewrite !polls_app, P1, P3. split; [done|]. by rewrite O3, O2.
Qed.

Lemma plain_check_so_error fd rev : plain (check_so_error fd rev).
Proof.
  intros w. unfold check_so_error.
  step plain_get_errno. intros e w1 (e1 & S1 & Q1 & O1).
  destruct (_ || _); cycle 1.
  { apply post_ret. trace. by split; [solve_quiet|]. }
  step plain_getsockopt. intros [sres serr] w2 (e2 & S2 & Q2 & O2).
  destruct (_ || _); [|destruct (_ && _)]; apply post_ret; trace;
    (split; [solve_quiet|]); by open_rw.
Qed.

Lemma scan_results_post n i fds addrs pfds sock w :
  post (scan_results n i fds addrs pfds sock) w (λ s w1,
    ∃ evs, steps w w1 evs ∧ quiet evs ∧
      (s_connaddr s ≠ [] → s_fds s !! s_i s = Some (s_sock s)) ∧
      ∀ O, w_open w ≡ₚ fds ++ O → w_open w1 ≡ₚ s_fds s ++ O).
Proof.
  revert i fds addrs pfds w. induction n as [|n IH]; intros i fds addrs pfds w.
  { apply post_ret. exists []. split; [apply steps_refl|]. by repeat split. }
  simpl. destruct (fds !! i) as [fd|] eqn:Hfd; cycle 1.
  { apply post_ret. exists []. split; [apply steps_refl|]. by repeat split. }
  step plain_check_so_error. intros rev w1 (e1 & S1 & Q1 & O1).
  destruct (_ && _).
  { apply post_ret. trace. split; [solve_quiet|]. split; [done|].
    intros O HO; simpl. by rewrite O1. }
  destruct (has rev _).
  - step httpAddrClose_post. intros _ w2 (e2 & S2 & Q2 & O2).
    eapply post_mono; [apply IH|]. intros s w3 (e3 & S3 & Q3 & W3 & O3).
    trace. split; [solve_quiet|]. split; [done|].
    intros O HO. apply O3, O2. rewrite O1, HO.
    by rewrite (delete_Permutation fds i fd) at 1.
  - eapply post_mono; [apply IH|]. intros s w3 (e3 & S3 & Q3 & W3 & O3).
    trace. split; [solve_quiet|]. split; [done|].
    intros O HO. apply O3. by rewrite O1.
Qed.

Lemma take_results_post st result pfds w :
  post (take_results st result pfds) w (λ f w1,
    ∃ evs, steps w w1 evs ∧ quiet evs ∧ flow_keeps st f ∧
      (∀ st', f ≠ Continue st') ∧
      (∀ st', f = Fall st' → addrlist st' = addrlist st) ∧
      ∀ O, w_open w ≡ₚ fds st ++ O → flow_open f w1 O).
Proof.
  unfold take_results. destruct (result >? 0); cycle 1.
  { apply post_ret. exists []. split; [apply steps_refl|].
    split; [done|]. split; [by simpl|]. split; [done|].
    split; [by intros ? [= <-]|done]. }
  step scan_results_post. intros s w1 (e1 & S1 & Q1 & W1 & O1).
  destruct (s_connaddr s) as [|a c] eqn:Ec.
  { apply post_ret. trace. split; [solve_quiet|]. split; [by simpl|].
    split; [done|]. split; [by intros ? [= <-]|]. intros O HO. by apply O1. }
  step close_each_post. intros _ w2 (e2 & S2 & Q2 & O2).
  step close_each_post. intros _ w3 (e3 & S3 & Q3 & O3).
  apply post_ret. trace. split; [solve_quiet|]. split; [by simpl|].
  split; [done|]. split; [done|].
  intros O HO; simpl. apply O3, O2. rewrite (O1 O HO).
  pose proof (take_drop_middle _ _ _ (W1 ltac:(done))) as Hmid.
  rewrite <-Hmid at 1.
  rewrite <-(assoc_L (++)). simpl. f_equiv. apply Permutation_middle.
Qed.

End racer_blocks.

(** * The racer: the main loop *)

Section racer_loop.

(** The slice of a pass that waits, and what the pass takes off the
    budget; [st] is the state before the pass, [st'] the one after. *)
Definition wait_slice (st st' : racer) : Z :=
  match addrlist st' with
  | _ :: _ => 100
  | [] => Z.min 250 (remaining st)
  end.

Definition budget_step (st' : racer) : Z :=
  match addrlist st' with _ :: _ => 100 | [] => 250 end.

Lemma slice_min st :
  slice st = match addrlist st with
             | _ :: _ => 100
             | [] => Z.min 250 (remaining st)
             end.
Proof.
  unfold slice. destruct (addrlist st); [|done].
  destruct (remaining st >? 250) eqn:E; lia.
Qed.

Definition step_ok (st : racer) (evs : list event) (s : step) : Prop :=
  match s with
  | Again st' =>
    cancel_seen evs = false ∧
    ((polls evs = [] ∧ remaining st' = remaining st ∧
      (length (addrlist st') < length (addrlist st))%nat)
     ∨ (polls evs ≠ [] ∧ Forall (λ t, t = wait_slice st st') (polls evs) ∧
        remaining st' = remaining st - budget_step st' ∧
        (length (addrlist st') ≤ length (addrlist st))%nat))
  | Break st' => cancel_seen evs = false ∧ fds st' = []
  | Done r => cancel_seen evs = true → r_ret r = []
  | Stuck => False
  end.

Definition step_open (s : step) (w1 : world) (O : list Z) : Prop :=
  match s with
  | Again st' | Break st' => w_open w1 ≡ₚ fds st' ++ O
  | Done r => w_open w1 ≡ₚ match r_ret r with
                           | [] => O
                           | _ :: _ => r_sock r :: O
                           end
  | Stuck => True
  end.

Lemma wait_and_take_post cancel st w :
  post (wait_and_take cancel st) w (λ s w1,
    ∃ evs, steps w w1 evs ∧
      match s with
      | Again st' =>
        cancel_seen evs = false ∧ polls evs ≠ [] ∧
        Forall (λ t, t = slice st) (polls evs) ∧
        addrlist st' = addrlist st ∧
        remaining st' = remaining st - budget_step st
      | Done r => cancel_seen evs = true → r_ret r = []
      | Break _ | Stuck => False
      end ∧
      ∀ O, w_open w ≡ₚ fds st ++ O → step_open s w1 O).
Proof.
  unfold wait_and_take. apply post_bind. unfold post at 1; simpl.
  step wait_ready_post. intros wt w1 (e1 & S1 & F1 & W1).
  destruct wt as [|result pfds|]; simpl in W1.
  - apply post_ret. trace. by destruct W1.
  - destruct W1 as (Hc1 & P1 & O1).
    step take_results_post. intros f w2 (e2 & S2 & [Hc2 P2] & K2 & NC & FA & O2).
    destruct f as [st'|st'|r]; [by destruct (NC st')| |]; apply post_ret; trace.
    + rewrite cancel_seen_app, Hc1, Hc2, polls_app, P2, app_nil_r.
      destruct K2 as [R2 _]. pose proof (FA _ eq_refl) as A2.
      split.
      { do 3 (split; [done|]). simpl. unfold budget_step.
        rewrite A2, R2. by destruct (addrlist st). }
      intros O HO. simpl. apply O2. by rewrite O1.
    + rewrite cancel_seen_app, Hc1, Hc2. split; [done|].
      intros O HO. simpl in *. destruct (r_ret r); [done|].
      apply O2. by rewrite O1.
  - lia.
Qed.

Lemma body_post cancel st w :
  post (body cancel st) w (λ s w1,
    ∃ evs, steps w w1 evs ∧ step_ok st evs s ∧
      ∀ O, w_open w ≡ₚ fds st ++ O → step_open s w1 O).
Proof.
  unfold body. step check_cancel_post. intros c w1 (e1 & S1 & Hc1 & P1 & O1 & _).
  destruct c.
  { step close_all_post. intros _ w2 (e2 & S2 & Q2 & O2).
    apply post_ret. trace. split; [done|].
    intros O HO. simpl. apply O2. by rewrite O1. }
  step try_candidate_post. intros f w2 (e2 & S2 & [Hc2 P2] & K2 & O2).
  destruct f as [st'|st'|r]; simpl in K2.
  - apply post_ret. trace. simpl.
    rewrite cancel_seen_app, Hc1, Hc2, polls_app, P1, P2.
    split; [split; [done|by left]|].
    intros O HO. apply O2. by rewrite O1.
  - assert (post (wait_and_take cancel st') w2 (λ s w3,
        ∃ evs, steps w w3 evs ∧ step_ok st evs s ∧
          ∀ O, w_open w ≡ₚ fds st ++ O → step_open s w3 O)) as Hwait.
    { eapply post_mono; [apply wait_and_take_post|].
      intros s w3 (e3 & S3 & K3 & O3). trace. split.
      - destruct K2 as [R2 L2].
        destruct s as [st2|st2|r|]; simpl in *; try done.
        + destruct K3 as (Hc3 & P3 & F3 & A3 & R3).
          rewrite !cancel_seen_app, Hc1, Hc2, Hc3. split; [done|]. right.
          rewrite !polls_app, P1, P2. simpl. split; [done|].
          split; [|split].
          * eapply Forall_impl; [exact F3|]. intros t ->.
            rewrite slice_min. unfold wait_slice. by rewrite A3, R2.
          * rewrite R3, R2. unfold budget_step. by rewrite A3.
          * by rewrite A3.
        + rewrite !cancel_seen_app, Hc1, Hc2. exact K3.
      - intros O HO. apply O3. specialize (O2 O). simpl in O2.
        apply O2. by rewrite O1. }
    destruct (addrlist st') as [|a l] eqn:Ea; [|exact Hwait].
    destruct (fds st') as [|fd l] eqn:Ef; [|exact Hwait].
    clear Hwait. step plain_put_errno. intros _ w3 (e3 & S3 & [Hc3 P3] & O3).
    apply post_ret. trace. simpl.
    rewrite !cancel_seen_app, Hc1, Hc2, Hc3. split; [done|].
    intros O HO. rewrite O3. specialize (O2 O). simpl in O2.
    apply O2. by rewrite O1.
  - apply post_ret. trace. simpl.
    rewrite cancel_seen_app, Hc1, Hc2. split; [done|].
    intros O HO. destruct (r_ret r); [done|]. specialize (O2 O). simpl in O2.
    apply O2. by rewrite O1.
Qed.

Lemma give_up_connecting_post st w :
  post (give_up_connecting st) w (λ r w1,
    ∃ evs, w_log w1 = w_log w ++ evs ∧ quiet evs ∧ r_ret r = [] ∧
      ∀ O, w_open w ≡ₚ fds st ++ O → w_open w1 ≡ₚ O).
Proof.
  unfold give_up_connecting. apply post_bind.
  assert (post (if remaining st <=? 0 then put_errno ETIMEDOUT else mret tt) w
            (λ _ w1, ∃ evs, steps w w1 evs ∧ quiet evs ∧ w_open w1 = w_open w))
    as H0.
  { destruct (remaining st <=? 0); [apply plain_put_errno|].
    apply post_ret. exists []. split; [apply steps_refl|done]. }
  eapply post_mono; [exact H0|]. intros _ w1 (e1 & S1 & Q1 & O1).
  step close_all_post. intros _ w2 (e2 & S2 & Q2 & O2).
  step plain_get_errno. intros e w3 (e3 & S3 & Q3 & O3).
  apply post_bind. unfold post at 1, _cupsSetError; simpl.
  apply post_ret. exists (e1 ++ e2 ++ e3). simpl. split.
  { eapply steps_log. solve_steps. }
  split; [solve_quiet|]. split; [done|].
  intros O HO. rewrite O3. apply O2. by rewrite O1.
Qed.

(** The passes the loop needs from a state: each pass either takes a
    candidate without waiting or takes at least 100 ms off the budget. *)
Definition measure (st : racer) : nat :=
  length (addrlist st) + Z.to_nat (remaining st).

Lemma connect_loop_eq fuel cancel st :
  connect_loop fuel cancel st =
  if remaining st >? 0 then
    match fuel with
    | O => mret None
    | S fuel' =>
      s ← body cancel st;
      match s with
      | Again st' => connect_loop fuel' cancel st'
      | Break st' => Some <$> give_up_connecting st'
      | Done r => mret (Some r)
      | Stuck => mret None
      end
    end
  else Some <$> give_up_connecting st.
Proof. by destruct fuel. Qed.

(** What the caller sees of the descriptors once the function is back. *)
Definition open_after (res : result) (w1 : world) (O : list Z) : Prop :=
  w_open w1 ≡ₚ match r_ret res with
               | [] => O
               | _ :: _ => r_sock res :: O
               end.

Lemma connect_loop_post fuel cancel st w :
  post (connect_loop fuel cancel st) w (λ r w1,
    ∃ evs, w_log w1 = w_log w ++ evs ∧
      match r with
      | None => cancel_seen evs = false ∧ (fuel < measure st)%nat
      | Some res =>
        (cancel_seen evs = true →
         r_ret res = [] ∧ w_last_error w1 = w_last_error w) ∧
        ∀ O, w_open w ≡ₚ fds st ++ O → open_after res w1 O
      end).
Proof.
  revert st w. induction fuel as [|fuel IH]; intros st w;
    rewrite connect_loop_eq; destruct (remaining st >? 0) eqn:Er.
  2, 4: apply post_fmap; (eapply post_mono; [apply give_up_connecting_post|]);
    intros r w1 (evs & L & [C P] & R & O); exists evs; (split; [done|]);
    (split; [by rewrite C|]); intros O' HO; unfold open_after; rewrite R; auto.
  { apply post_ret. exists []. rewrite app_nil_r. split; [done|].
    split; [done|]. unfold measure. lia. }
  step body_post. intros s w1 (e1 & S1 & K1 & O1).
  destruct s as [st'|st'|r|]; simpl in K1; [| | |done].
  - eapply post_mono; [apply IH|]. intros r w2 (e2 & L2 & K2).
    exists (e1 ++ e2). split.
    { by rewrite L2, (steps_log _ _ _ S1), (assoc_L (++)). }
    destruct K1 as [Hc1 K1]. rewrite cancel_seen_app, Hc1. simpl.
    destruct r as [res|].
    + destruct K2 as [K2 O2]. split.
      * intros HC. destruct (K2 HC) as [-> ->]. split; [done|]. apply S1.
      * intros O HO. apply O2. by apply (O1 O).
    + destruct K2 as [Hc2 Lt]. split; [done|]. unfold measure in *.
      destruct K1 as [(_ & R & L)|(_ & _ & R & L)]; [lia|].
      unfold budget_step in R. destruct (addrlist st'); lia.
  - destruct K1 as [Hc1 F1]. apply post_fmap.
    eapply post_mono; [apply give_up_connecting_post|].
    intros r w2 (e2 & L2 & [Hc2 P2] & R2 & O2). exists (e1 ++ e2). split.
    { by rewrite L2, (steps_log _ _ _ S1), (assoc_L (++)). }
    rewrite cancel_seen_app, Hc1, Hc2. split; [done|].
    intros O HO. unfold open_after. rewrite R2. apply O2. by apply (O1 O).
  - apply post_ret. exists e1. split; [apply S1|]. split.
    + intros HC. split; [auto|apply S1].
    + intros O HO. by apply (O1 O).
Qed.

End racer_loop.

(** * The racer: the whole call *)

Section racer_call.

Lemma httpAddrConnect_post fuel addrlist sock msec cancel w :
  post (httpAddrConnect fuel addrlist sock msec cancel) w (λ r w1,
    ∃ evs, w_log w1 = w_log w ++ evs ∧
      match r with
      | None => cancel_seen evs = false ∧ (fuel < enough_fuel addrlist msec)%nat
      | Some (ret, s) =>
        (cancel_seen evs = true →
         ret = [] ∧ is_Some s ∧ w_last_error w1 = w_last_error w) ∧
        match ret with
        | [] => w_open w1 ≡ₚ w_open w
        | _ :: _ => ∃ fd, s = Some fd ∧ w_open w1 ≡ₚ fd :: w_open w
        end
      end).
Proof.
  unfold httpAddrConnect. destruct sock as [s|].
  - step check_cancel_post. intros c w1 (e1 & S1 & Hc1 & P1 & O1 & _).
    destruct c.
    { apply post_ret. exists e1. split; [apply S1|]. split; [|by rewrite O1].
      intros _. split; [done|]. split; [eauto|apply S1]. }
    step connect_loop_post. intros r w2 (e2 & L2 & K2).
    apply post_ret. exists (e1 ++ e2). split.
    { by rewrite L2, (steps_log _ _ _ S1), (assoc_L (++)). }
    rewrite cancel_seen_app, Hc1. simpl.
    destruct r as [res|]; simpl.
    + destruct K2 as [K2 O2]. split.
      * intros HC. destruct (K2 HC) as [-> ->].
        split; [done|]. split; [eauto|apply S1].
      * specialize (O2 (w_open w1) (reflexivity _)). unfold open_after in O2.
        rewrite O1 in O2. destruct (r_ret res); [done|eauto].
    + exact K2.
  - apply post_bind. unfold post at 1; simpl.
    apply post_bind. unfold post at 1; simpl.
    apply post_bind. unfold post at 1; simpl.
    apply post_ret. exists []. simpl. rewrite app_nil_r. by repeat split.
Qed.

End racer_call.

(** A world to run examples in: descriptors 0, 1 and 2 are open, nothing is
    allocated, no error has been recorded, and names do not resolve. *)
Definition world0 (script : list answer) : world :=
  World script 0 [0; 1; 2] ∅ false (IPP_STATUS_OK, NoMessage) false
        (λ _ _ _ _, (-2, [])) (λ _, None) [].

Definition ok : answer := Answer 0 0 [].
Definition in_progress : answer := Answer (-1) EINPROGRESS [].
Definition printer4 : http_addr_t := AddrIPv4 30466 16777343.
Definition printer6 : http_addr_t := AddrIPv6 30466 [0; 0; 0; 16777216] 0.

(** The answers to the calls that open a socket for a candidate and start
    its connection: [socket] returns [fd], the options are set, [connect]
    answers [c]. *)
Definition opening (fd : Z) (c : answer) : list answer :=
  [Answer fd 0 []; ok; ok; ok; ok; Answer 2 0 []; ok; c; ok].

(** C1.  Whatever the system answers, a call to [httpAddrConnect] with
    enough passes returns, and when it does every socket it opened has been
    closed again, except the one it hands back through [*sock] together with
    a non-null node: the descriptors open afterwards are those open before,
    plus that socket on success. *)
Theorem connect_closes_all_but_winner fuel addrlist sock msec cancel w :
  (enough_fuel addrlist msec ≤ fuel)%nat →
  ∃ ret s w1,
    httpAddrConnect fuel addrlist sock msec cancel w = (Some (ret, s), w1) ∧
    match ret with
    | [] => w_open w1 ≡ₚ w_open w
    | _ :: _ => ∃ fd, s = Some fd ∧ w_open w1 ≡ₚ fd :: w_open w
    end.
Proof.
  intros Hfuel.
  pose proof (httpAddrConnect_post fuel addrlist sock msec cancel w) as H.
  unfold post in H.
  destruct (httpAddrConnect fuel addrlist sock msec cancel w) as [r w1].
  destruct H as (evs & _ & H). simpl in H.
  destruct r as [[ret s]|]; [|lia].
  exists ret, s, w1. split; [done|]. apply H.
Qed.

Lemma connect_closes_all_but_winner_witness :
  ∃ ret s w1,
    httpAddrConnect 400 [printer6; printer4] (Some (-1)) 300 true
      (world0 ([ok; ok] ++ opening 3 in_progress ++
               [ok; Answer 0 0 []; ok] ++ opening 4 in_progress ++
               [ok; Answer 1 0 [0; 4]]))
    = (Some (ret, s), w1) ∧
    match ret with
    | [] => w_open w1 ≡ₚ [0; 1; 2]
    | _ :: _ => ∃ fd, s = Some fd ∧ w_open w1 ≡ₚ fd :: [0; 1; 2]
    end.
Proof.
  apply (connect_closes_all_but_winner 400 [printer6; printer4] (Some (-1)) 300 true).
  unfold enough_fuel. simpl. lia.
Defined.

(** The run of the witness: the second candidate connects and its socket is
    the one left open. *)
Example connect_second_candidate_wins :
  let r := httpAddrConnect 400 [printer6; printer4] (Some (-1)) 300 true
      (world0 ([ok; ok] ++ opening 3 in_progress ++
               [ok; Answer 0 0 []; ok] ++ opening 4 in_progress ++
               [ok; Answer 1 0 [0; 4]])) in
  r.1 = Some ([printer4], Some 4) ∧ w_open r.2 = [4; 0; 1; 2] ∧
  polls (w_log r.2) = [100; 200].
Proof. vm_compute. done. Qed.

(** The last-error slot holds an error. *)
Definition reports_error (w : world) : Prop :=
  (w_last_error w).1 ≠ IPP_STATUS_OK.

(** C4, as the code has it.  When a read of the cancel variable finds it
    set, at the entry, at the top of a pass or at the top of a wait retry,
    the call gives up: it returns [NULL], every socket of the working set
    has been closed (the descriptors open are those open before the call),
    and the last-error slot is as it was, so that no error is recorded. *)
Theorem cancel_closes_working_set fuel addrlist sock msec cancel w evs :
  let r := httpAddrConnect fuel addrlist sock msec cancel w in
  w_log r.2 = w_log w ++ evs → cancel_seen evs = true →
  (∃ s, r.1 = Some ([], Some s)) ∧ w_open r.2 ≡ₚ w_open w ∧
  w_last_error r.2 = w_last_error w.
Proof.
  pose proof (httpAddrConnect_post fuel addrlist sock msec cancel w) as H.
  unfold post in H. simpl.
  destruct (httpAddrConnect fuel addrlist sock msec cancel w) as [r w1].
  destruct H as (evs' & L & H). simpl in *. intros L' HC.
  assert (evs = evs') as -> by (apply (app_inv_head (w_log w)); congruence).
  destruct r as [[ret s]|]; [|destruct H; congruence].
  destruct H as [H O]. destruct (H HC) as (-> & [s' ->] & E). eauto.
Qed.

Lemma cancel_closes_working_set_witness :
  let w := world0 ([ok; ok] ++ opening 3 in_progress ++ [Answer 1 0 []]) in
  let r := httpAddrConnect 400 [printer4] (Some 7) 300 true w in
  (∃ s, r.1 = Some ([], Some s)) ∧ w_open r.2 ≡ₚ w_open w ∧
  w_last_error r.2 = w_last_error w.
Proof.
  intros w r.
  apply (cancel_closes_working_set 400 [printer4] (Some 7) 300 true w (w_log r.2));
    vm_compute; reflexivity.
Defined.

(** C4 as stated fails: a cancelled call reports no error.  With the cancel
    variable set before the first admission the call makes no call into the
    system, returns [NULL] and leaves [*sock], [errno] and the last-error
    slot as they were; cancelled at a wait retry it closes the socket it
    opened, sets [*sock] to -1 and returns [NULL], and the last-error slot
    still holds no error. *)
Lemma cancel_records_no_error :
  let w0 := world0 [Answer 1 0 []] in
  let at_entry := httpAddrConnect 400 [printer4] (Some 7) 300 true w0 in
  let w1 := world0 ([ok; ok] ++ opening 3 in_progress ++ [Answer 1 0 []]) in
  let at_wait := httpAddrConnect 400 [printer4] (Some 7) 300 true w1 in
  at_entry.1 = Some ([], Some 7) ∧ w_log at_entry.2 = [EvCancel 1] ∧
  w_errno at_entry.2 = w_errno w0 ∧
  w_last_error at_entry.2 = (IPP_STATUS_OK, NoMessage) ∧
  ¬ reports_error at_entry.2 ∧
  cancel_seen (w_log at_wait.2) = true ∧ at_wait.1 = Some ([], Some (-1)) ∧
  w_open at_wait.2 = [0; 1; 2] ∧
  w_last_error at_wait.2 = (IPP_STATUS_OK, NoMessage) ∧
  ¬ reports_error at_wait.2.
Proof. vm_compute. repeat split; first [done | intros H; by apply H]. Qed.

(** C3, as the code has it.  A pass of the main loop that loops back either
    made no wait and left the budget alone, or waited with the slice
    100 ms (candidates left) or min(250, budget) (none left) each time it
    called [poll], and then took 100 ms (candidates left) or 250 ms (none
    left) off the budget; the two agree unless no candidate is left and
    fewer than 250 ms remained. *)
Theorem budget_accounting cancel st w st' w1 :
  body cancel st w = (Again st', w1) →
  ∃ evs, w_log w1 = w_log w ++ evs ∧
    ((polls evs = [] ∧ remaining st' = remaining st) ∨
     (polls evs ≠ [] ∧ Forall (λ t, t = wait_slice st st') (polls evs) ∧
      remaining st' = remaining st - budget_step st' ∧
      (addrlist st' ≠ [] ∨ 250 ≤ remaining st →
       budget_step st' = wait_slice st st'))).
Proof.
  intros Hb. pose proof (post_eq _ _ _ _ _ (body_post cancel st w) Hb) as H.
  destruct H as (evs & S & K & _). exists evs. split; [apply S|].
  destruct K as [_ [(P & R & _)|(P & F & R & _)]]; [by left|right].
  do 3 (split; [done|]). unfold budget_step, wait_slice.
  destruct (addrlist st'); [|done]. intros [?|?]; [done|lia].
Qed.

Lemma budget_accounting_witness :
  let st := Racer [] [3] [[printer4]] 300 (-1) in
  let w := world0 [Answer 0 0 [0]] in
  let st' := Racer [] [3] [[printer4]] 50 (-1) in
  ∃ evs, w_log (body false st w).2 = w_log w ++ evs ∧
    ((polls evs = [] ∧ remaining st' = remaining st) ∨
     (polls evs ≠ [] ∧ Forall (λ t, t = wait_slice st st') (polls evs) ∧
      remaining st' = remaining st - budget_step st' ∧
      (addrlist st' ≠ [] ∨ 250 ≤ remaining st →
       budget_step st' = wait_slice st st'))).
Proof.
  intros st w st'. apply (budget_accounting false st w st').
  vm_compute. reflexivity.
Defined.

(** C3 as stated fails.  A call with a budget of 300 ms and one candidate
    whose connection stays in progress: the first pass waits 250 ms and
    takes 250 ms off; the second pass waits for the 50 ms left and takes
    250 ms off again, which leaves -200 and not 0. *)
Lemma budget_step_exceeds_slice :
  let st0 := Racer [printer4] [] [] 300 (-1) in
  let r1 := body false st0 (world0 (opening 3 in_progress ++ [ok; ok])) in
  let st1 := Racer [] [3] [[printer4]] 50 (-1) in
  let r2 := body false st1 r1.2 in
  r1.1 = Again st1 ∧ polls (w_log r1.2) = [250] ∧
  polls (w_log r2.2) = [250; 50] ∧
  (∃ st2, r2.1 = Again st2 ∧ remaining st2 = -200 ∧
          remaining st2 ≠ remaining st1 - 50).
Proof. vm_compute. repeat split; try done. eexists. by repeat split. Qed.

(** * The racer: hang-up reported together with readiness *)

Section hangup.

Lemma has_false x m : has x m = false ↔ Z.land x m = 0.
Proof.
  unfold has. rewrite negb_false_iff. apply Z.eqb_eq.
Qed.

Lemma has_true x m : has x m = true ↔ Z.land x m ≠ 0.
Proof.
  unfold has. rewrite negb_true_iff. apply Z.eqb_neq.
Qed.

Lemma has_clear x e h :
  has x e = false → has (Z.land x (Z.lnot h)) (Z.lor e h) = false.
Proof.
  rewrite !has_false. intros H. apply Z.bits_inj'. intros n Hn.
  apply (f_equal (λ z, Z.testbit z n)) in H.
  rewrite Z.land_spec, Z.bits_0 in H.
  rewrite !Z.land_spec, Z.lnot_spec, Z.lor_spec, Z.bits_0 by done.
  destruct (Z.testbit x n), (Z.testbit e n), (Z.testbit h n); done.
Qed.

Lemma has_keep x m h :
  Z.land m h = 0 → has (Z.land x (Z.lnot h)) m = has x m.
Proof.
  intros H. unfold has. do 2 f_equal. apply Z.bits_inj'. intros n Hn.
  apply (f_equal (λ z, Z.testbit z n)) in H.
  rewrite Z.land_spec, Z.bits_0 in H.
  rewrite !Z.land_spec, Z.lnot_spec by done.
  destruct (Z.testbit x n), (Z.testbit m n), (Z.testbit h n); done.
Qed.

Lemma has_nonzero x m : has x m = true → x ≠ 0.
Proof. rewrite has_true. intros H ->. by rewrite Z.land_0_l in H. Qed.

(** The answer the next call will get. *)
Definition peek (w : world) : answer := hd default_answer (w_script w).

Lemma sys_getsockopt_error_eq fd w :
  let a := peek w in
  ∃ w1, sys_getsockopt_error fd w = ((a_ret a, hd 0 (a_out a)), w1) ∧
    w_log w1 = w_log w ++ [EvGetsockopt fd (a_ret a) (hd 0 (a_out a))] ∧
    w_open w1 = w_open w.
Proof.
  unfold peek, sys_getsockopt_error, syscall, next_answer, mbind, M_bind.
  destruct (w_script w) as [|a s]; simpl; [eauto|].
  eexists. split; [reflexivity|]. by destruct (a_ret a <? 0).
Qed.

Lemma check_so_error_hangup fd rev w :
  has rev POLLHUP = true → has rev (Z.lor POLLIN POLLOUT) = true →
  a_ret (peek w) = 0 → hd 0 (a_out (peek w)) = 0 →
  ∃ w1, check_so_error fd rev w = (Z.land rev (Z.lnot POLLHUP), w1) ∧
    w_log w1 = w_log w ++ [EvGetsockopt fd 0 0] ∧ w_open w1 = w_open w.
Proof.
  intros Hh Hr Hret Herr.
  destruct (sys_getsockopt_error_eq fd w) as (w1 & E & L & O).
  rewrite Hret, Herr in E, L.
  exists w1. split; [|done].
  unfold check_so_error, mbind, M_bind, get_errno. cbv beta.
  rewrite Hh, Hr, orb_true_r, E. simpl.
  by rewrite (proj2 (Z.eqb_neq _ _) (has_nonzero _ _ Hh)).
Qed.

Lemma check_so_error_failed fd rev w :
  has rev POLLHUP = true → has rev (Z.lor POLLIN POLLOUT) = true →
  a_ret (peek w) ≠ 0 ∨ hd 0 (a_out (peek w)) ≠ 0 →
  ∃ w1, check_so_error fd rev w = (Z.lor rev POLLERR, w1) ∧
    w_log w1
    = w_log w ++ [EvGetsockopt fd (a_ret (peek w)) (hd 0 (a_out (peek w)))] ∧
    w_open w1 = w_open w.
Proof.
  intros Hh Hr Hbad.
  destruct (sys_getsockopt_error_eq fd w) as (w1 & E & L & O).
  exists w1. split; [|done].
  unfold check_so_error, mbind, M_bind, get_errno. cbv beta.
  rewrite Hh, Hr, orb_true_r, E. simpl.
  destruct Hbad as [H|H]; apply Z.eqb_neq in H; rewrite H; simpl;
    [done|by rewrite orb_true_r].
Qed.

Lemma has_error x : has (Z.lor x POLLERR) (Z.lor POLLERR POLLHUP) = true.
Proof.
  apply has_true. intros H.
  apply (f_equal (λ z, Z.testbit z 3)) in H.
  rewrite Z.land_spec, Z.lor_spec in H. simpl in H.
  by rewrite orb_true_r in H.
Qed.

Lemma scan_results_eq n i fds addrs pfds sock :
  scan_results (S n) i fds addrs pfds sock =
  match fds !! i with
  | None => mret (Scan [] i fds addrs pfds sock)
  | Some fd =>
    rev ← check_so_error fd (revents_at pfds i);
    let pfds := alter (set_revents rev) i pfds in
    if negb (rev =? 0) && negb (has rev (Z.lor POLLERR POLLHUP)) then
      mret (Scan (default [] (addrs !! i)) i fds addrs pfds fd)
    else if has rev (Z.lor POLLERR POLLHUP) then
      httpAddrClose fd ;;
      scan_results n i (delete i fds) (delete i addrs) pfds sock
    else scan_results n (S i) fds addrs pfds sock
  end.
Proof. done. Qed.

(** The passes counted by [n] are enough as soon as [n] covers the entries
    from [i] on: one more pass changes nothing, so the scan started with
    [nfds] passes at index 0 is the whole [for] loop. *)
Lemma scan_results_fuel n : ∀ i fds addrs pfds sock w,
  (length fds ≤ i + n)%nat →
  scan_results (S n) i fds addrs pfds sock w = scan_results n i fds addrs pfds sock w.
Proof.
  induction n as [|n IH]; intros i fds addrs pfds sock w Hn.
  - rewrite scan_results_eq, lookup_ge_None_2 by lia. done.
  - rewrite (scan_results_eq (S n)), (scan_results_eq n).
    destruct (fds !! i) as [fd|] eqn:Hfd; [|done].
    apply lookup_lt_Some in Hfd.
    unfold mbind, M_bind.
    destruct (check_so_error fd (revents_at pfds i) w) as [rev w1]. cbv zeta.
    destruct (negb (rev =? 0) && negb (has rev (Z.lor POLLERR POLLHUP))); [done|].
    destruct (has rev (Z.lor POLLERR POLLHUP)).
    + destruct (httpAddrClose fd w1) as [u w2].
      apply IH. rewrite length_delete by (by apply lookup_lt_is_Some_2). lia.
    + apply IH. lia.
Qed.

End hangup.

(** The socket is still in the working set and no socket was taken as
    connected: it is kept as not yet ready. *)
Definition kept_pending (s : scan) (fd : Z) : Prop :=
  fd ∈ s_fds s ∧ s_connaddr s = [].




(** The [revents] are read at the index, not at the socket: once a socket is
    taken out of [fds], the next one moves down to an entry of [pfds] that
    still holds the removed socket's bits.  Here socket 3 failed and socket
    4 was writable; both are closed and none is taken as connected. *)
Example scan_after_removal :
  let r := scan_results 2 0 [3; 4] [[printer4]; [printer6]]
             [Pollfd 3 5 POLLERR; Pollfd 4 5 POLLOUT] (-1)
             (set_open [4; 3; 0; 1; 2] (world0 [])) in
  s_connaddr r.1 = [] ∧ s_fds r.1 = [] ∧ w_open r.2 = [0; 1; 2].
Proof. by vm_compute. Qed.

(** The scan seen from the caller, with the answers of a whole call: with
    SO_ERROR 0 the call returns the candidate as connected; with SO_ERROR
    EINPROGRESS, which the comment in the source means to be ignored like no
    error, the test [sres || serr] has the socket closed, no candidate is
    left and the call fails. *)
Example hangup_runs :
  let run serr :=
    httpAddrConnect 400 [printer4] (Some (-1)) 300 false
      (world0 (opening 3 in_progress ++ [Answer 1 0 [20]; Answer 0 0 [serr]])) in
  (run 0).1 = Some ([printer4], Some 3) ∧ w_open (run 0).2 = [3; 0; 1; 2] ∧
  (run EINPROGRESS).1 = Some ([], Some (-1)) ∧
  w_open (run EINPROGRESS).2 = [0; 1; 2] ∧
  w_last_error (run EINPROGRESS).2
  = (IPP_STATUS_ERROR_SERVICE_UNAVAILABLE, Strerror EHOSTDOWN).
Proof. vm_compute. done. Qed.

(** * Address lists in memory *)

Import AddrList.

Section lists_in_memory.

Implicit Types (h : gmap positive http_addrlist_t) (p q : ptr).
Implicit Types (nodes rest built : list (positive * http_addr_t)).

Lemma lseg_frame h h' p nodes q :
  (∀ l, l ∈ nodes.*1 → h' !! l = h !! l) →
  lseg h p nodes q → lseg h' p nodes q.
Proof.
  revert p. induction nodes as [|[l a] rest IH]; intros p Hf; simpl; [done|].
  intros (-> & nx & Hl & Hr). split; [done|]. exists nx. split.
  - rewrite Hf; [done|]. simpl. left.
  - apply IH; [|done]. intros l' Hin. apply Hf. simpl. by right.
Qed.

Lemma lseg_app h p n1 n2 q :
  lseg h p (n1 ++ n2) q ↔ ∃ m, lseg h p n1 m ∧ lseg h m n2 q.
Proof.
  revert p. induction n1 as [|[l a] n1 IH]; intros p; simpl.
  - split; [eauto|]. by intros (m & -> & H).
  - split.
    + intros (-> & nx & Hl & Hr). apply IH in Hr as (m & H1 & H2). eauto 10.
    + intros (m & (-> & nx & Hl & H1) & H2). split; [done|].
      exists nx. split; [done|]. apply IH. eauto.
Qed.

Lemma is_list_functional h p n1 n2 :
  is_list h p n1 → is_list h p n2 → n1 = n2.
Proof.
  unfold is_list. revert p n2.
  induction n1 as [|[l a] n1 IH]; intros p [|[l' a'] n2]; simpl; try done.
  - by intros -> [? ?].
  - by intros [-> ?] ?.
  - intros (-> & nx & Hl & H1) ([= <-] & nx' & Hl' & H2).
    rewrite Hl in Hl'. injection Hl' as <- <-. f_equal. eauto.
Qed.

Lemma is_list_head_fresh h l a rest :
  is_list h (Some l) ((l, a) :: rest) → l ∉ rest.*1.
Proof.
  intros H Hin. apply list_elem_of_fmap in Hin as ([l' a'] & -> & Hin).
  apply list_elem_of_split in Hin as (r1 & r2 & ->). simpl in *.
  pose proof H as (_ & nx & Hl & Hr).
  apply lseg_app in Hr as (m & _ & H2).
  pose proof H2 as (-> & _).
  pose proof (is_list_functional _ _ _ _ H H2) as E.
  apply (f_equal length) in E. simpl in E.
  rewrite length_app in E. simpl in E. lia.
Qed.

Lemma is_list_NoDup h p nodes : is_list h p nodes → NoDup nodes.*1.
Proof.
  revert p. induction nodes as [|[l a] rest IH]; intros p H; simpl.
  - constructor.
  - pose proof H as (-> & nx & Hl & Hr). constructor; [|by eapply IH].
    by eapply is_list_head_fresh.
Qed.

Lemma is_list_live h p nodes l :
  is_list h p nodes → l ∈ nodes.*1 → is_Some (h !! l).
Proof.
  unfold is_list. revert p.
  induction nodes as [|[l' a] rest IH]; intros p; simpl.
  - intros _ Hin. inversion Hin.
  - intros (-> & nx & Hl & Hr) Hin. apply elem_of_cons in Hin as [->|Hin]; eauto.
Qed.

Lemma is_list_addresses h p nodes fuel :
  is_list h p nodes → (length nodes ≤ fuel)%nat →
  addresses fuel h p = nodes.*2.
Proof.
  unfold is_list. revert p fuel.
  induction nodes as [|[l a] rest IH]; intros p fuel; simpl.
  - intros -> _. by destruct fuel.
  - intros (-> & nx & Hl & Hr) Hf. destruct fuel as [|fuel]; [lia|].
    simpl. rewrite Hl. simpl. f_equal. apply IH; [done|lia].
Qed.

(** The primitives on live blocks. *)
Lemma load_eq l n w : w_heap w !! l = Some n → load l w = (n, w).
Proof. unfold load. by intros ->. Qed.

Lemma store_eq l n w :
  is_Some (w_heap w !! l) →
  store l n w = (tt, set_heap (<[l := n]> (w_heap w)) w).
Proof. unfold store. by intros [? ->]. Qed.

Lemma free_eq l w :
  is_Some (w_heap w !! l) →
  free l w = (tt, add_log (EvFree l) (set_heap (delete l (w_heap w)) w)).
Proof. unfold free. by intros [? ->]. Qed.

Lemma get_next_eq l n w : w_heap w !! l = Some n → get_next l w = (next n, w).
Proof.
  intros H. unfold get_next, mbind, M_bind. by rewrite (load_eq _ _ _ H).
Qed.

Lemma set_next_eq l n q w :
  w_heap w !! l = Some n →
  set_next l q w = (tt, set_heap (<[l := Node q (addr n)]> (w_heap w)) w).
Proof.
  intros H. unfold set_next, mbind, M_bind.
  rewrite (load_eq _ _ _ H). apply store_eq. eauto.
Qed.

Lemma set_addr_eq l n a w :
  w_heap w !! l = Some n →
  set_addr l a w = (tt, set_heap (<[l := Node (next n) a]> (w_heap w)) w).
Proof.
  intros H. unfold set_addr, mbind, M_bind.
  rewrite (load_eq _ _ _ H). apply store_eq. eauto.
Qed.

(** The world after the allocator has answered. *)
Definition answered (w : world) : world :=
  (syscall (λ a, EvAlloc (negb (a_ret a <? 0))) w).2.

Lemma answered_heap w : w_heap (answered w) = w_heap w.
Proof.
  unfold answered, syscall, next_answer.
  destruct (w_script w) as [|a s] eqn:E; simpl; [by rewrite ?E|].
  by destruct (a_ret a <? 0); simpl; rewrite ?E.
Qed.

Lemma answered_fault w : w_fault (answered w) = w_fault w.
Proof.
  unfold answered, syscall, next_answer.
  destruct (w_script w) as [|a s] eqn:E; simpl; [by rewrite ?E|].
  by destruct (a_ret a <? 0); simpl; rewrite ?E.
Qed.

Lemma answered_last_error w : w_last_error (answered w) = w_last_error w.
Proof.
  unfold answered, syscall, next_answer.
  destruct (w_script w) as [|a s] eqn:E; simpl; [by rewrite ?E|].
  by destruct (a_ret a <? 0); simpl; rewrite ?E.
Qed.

Lemma answered_script w : w_script (answered w) = tail (w_script w).
Proof.
  unfold answered, syscall, next_answer.
  destruct (w_script w) as [|a s] eqn:E; simpl; [by rewrite ?E|].
  by destruct (a_ret a <? 0); simpl; rewrite ?E.
Qed.

Lemma alloc_eq w :
  alloc w =
  if a_ret (peek w) <? 0 then (None, answered w)
  else (Some (fresh (dom (w_heap w))),
        set_heap (<[fresh (dom (w_heap w)) := zero_node]> (w_heap w))
                 (answered w)).
Proof.
  unfold alloc, answered, peek, mbind, M_bind, syscall, next_answer.
  destruct (w_script w) as [|a s]; simpl; [done|].
  by destruct (a_ret a <? 0).
Qed.

Lemma fresh_block h : h !! fresh (dom h) = None.
Proof. apply not_elem_of_dom, is_fresh. Qed.

(** Freeing a list releases exactly its nodes. *)
Lemma free_loop_spec nodes fuel p w :
  is_list (w_heap w) p nodes → (length nodes ≤ fuel)%nat →
  ∃ w1, free_loop fuel p w = (Some tt, w1) ∧
    (∀ l, w_heap w1 !! l
          = if decide (l ∈ nodes.*1) then None else w_heap w !! l) ∧
    w_fault w1 = w_fault w ∧ w_last_error w1 = w_last_error w ∧
    w_script w1 = w_script w ∧ w_open w1 = w_open w.
Proof.
  revert fuel p w. induction nodes as [|[l a] rest IH]; intros fuel p w H Hf.
  { red in H; simpl in H; subst p. exists w. destruct fuel; simpl; eauto 10. }
  pose proof (is_list_head_fresh _ _ _ _ (eq_ind _ (λ p, is_list _ p _) H _
                (proj1 H))) as Hfresh.
  destruct H as (-> & nx & Hl & Hr). destruct fuel as [|fuel]; [simpl in Hf; lia|].
  simpl. unfold mbind, M_bind.
  rewrite (get_next_eq _ _ _ Hl), free_eq by eauto. simpl.
  destruct (IH fuel nx (add_log (EvFree l) (set_heap (delete l (w_heap w)) w)))
    as (w1 & E & Hh & Hrest).
  { simpl. eapply lseg_frame; [|exact Hr].
    intros l' Hin. apply lookup_delete_ne. by intros ->. }
  { simpl in Hf. lia. }
  exists w1. split; [done|]. split; [|exact Hrest].
  intros l'. rewrite Hh. simpl.
  destruct (decide (l' = l)) as [->|Hne];
    [rewrite lookup_delete_eq | rewrite lookup_delete_ne by done];
    repeat case_decide; first [done | exfalso; rewrite elem_of_cons in *; tauto].
Qed.

Lemma last_loc_in built l al : l ∈ (built ++ [(l, al)]).*1.
Proof.
  apply (list_elem_of_fmap_2' fst _ (l, al)); [|done].
  apply elem_of_app. right. left.
Qed.

Lemma lseg_link h dst built l al c a :
  is_list h dst (built ++ [(l, al)]) → h !! c = None →
  is_list (<[l := Node (Some c) al]> (<[c := Node None a]> h)) dst
          (built ++ [(l, al); (c, a)]).
Proof.
  unfold is_list. revert dst.
  induction built as [|[l0 a0] built IH]; intros dst H Hc.
  - destruct H as (-> & nx & Hl & Hnx). simpl in Hnx.
    assert (l ≠ c) by (intros ->; congruence). simpl.
    split; [done|]. eexists. split; [apply lookup_insert_eq|].
    split; [done|]. exists None. split; [|done].
    rewrite lookup_insert_ne by done. apply lookup_insert_eq.
  - pose proof H as (-> & nx & Hl & Hr).
    apply is_list_head_fresh in H. simpl.
    split; [done|]. exists nx. split; [|by apply IH].
    rewrite !lookup_insert_ne; [done| |].
    + intros ->. congruence.
    + intros ->. apply H, last_loc_in.
Qed.

(** The state of the copy loop: [built] is the list made so far, in
    blocks that were not live in the heap [h0] the call started with;
    every other block is as it was. *)
Record copying (h0 : gmap positive http_addrlist_t) (w : world)
    (dst prev : ptr) built : Prop := Copying {
  cp_built : is_list (w_heap w) dst built;
  cp_prev : prev = fst <$> last built;
  cp_fresh : ∀ l, l ∈ built.*1 → h0 !! l = None;
  cp_frame : ∀ l, l ∉ built.*1 → w_heap w !! l = h0 !! l;
}.

Lemma copy_loop_eq fuel0 fuel s dst prev :
  copy_loop fuel0 (S fuel) (Some s) dst prev =
  (current ← malloc;
   match current with
   | None => r ← free_loop fuel0 dst; mret ((λ _, None) <$> r)
   | Some c =>
     n ← load s;
     store c n ;;
     set_next c None ;;
     dst' ← match prev with
            | Some p => set_next p (Some c) ;; mret dst
            | None => mret (Some c)
            end;
     nx ← get_next s;
     copy_loop fuel0 fuel nx dst' (Some c)
   end).
Proof. done. Qed.

Lemma copy_step h0 w s nx a dst prev built :
  copying h0 w dst prev built → h0 !! s = Some (Node nx a) →
  (a_ret (peek w) <? 0) = false →
  ∃ w1 dst' c,
    (∀ fuel0 fuel,
       copy_loop fuel0 (S fuel) (Some s) dst prev w
       = copy_loop fuel0 fuel nx dst' (Some c) w1) ∧
    copying h0 w1 dst' (Some c) (built ++ [(c, a)]) ∧
    w_script w1 = tail (w_script w) ∧ w_fault w1 = w_fault w ∧
    w_last_error w1 = w_last_error w.
Proof.
  intros [Hb Hp Hfr Hfm] Hs Hok.
  set (h := w_heap w) in *. set (c := fresh (dom h)).
  assert (h !! c = None) as Hc by apply fresh_block.
  assert (c ∉ built.*1) as Hcb.
  { intros Hin. destruct (is_list_live _ _ _ _ Hb Hin). congruence. }
  assert (s ∉ built.*1) as Hsb.
  { intros Hin. apply Hfr in Hin. congruence. }
  assert (h !! s = Some (Node nx a)) as Hhs by (by rewrite Hfm).
  assert (s ≠ c) as Hsc by (intros ->; congruence).
  assert (∀ fuel0 fuel,
    copy_loop fuel0 (S fuel) (Some s) dst prev w
    = (dst' ← match prev with
              | Some p => set_next p (Some c) ;; mret dst
              | None => mret (Some c)
              end;
       nx ← get_next s; copy_loop fuel0 fuel nx dst' (Some c))
        (set_heap (<[c := Node None a]> h) (answered w))) as Hrun.
  { intros fuel0 fuel. rewrite copy_loop_eq. unfold malloc.
    unfold mbind at 1, M_bind at 1. rewrite alloc_eq, Hok. fold h c.
    unfold mbind at 1, M_bind at 1.
    rewrite (load_eq s (Node nx a)) by (simpl; by rewrite lookup_insert_ne).
    unfold mbind at 1, M_bind at 1.
    rewrite store_eq by (simpl; rewrite lookup_insert_eq; eauto).
    unfold mbind at 1, M_bind at 1.
    rewrite (set_next_eq c (Node nx a)) by (simpl; by rewrite lookup_insert_eq).
    simpl. by rewrite !insert_insert_eq. }
  destruct built as [|[l al] b _] using rev_ind.
  - simpl in Hp; subst prev. red in Hb; simpl in Hb; subst dst.
    exists (set_heap (<[c := Node None a]> h) (answered w)), (Some c), c.
    split; [|split; [|by simpl; rewrite ?answered_script, ?answered_fault,
                                 ?answered_last_error]].
    + intros fuel0 fuel. rewrite Hrun. unfold mbind, M_bind. simpl.
      by rewrite (get_next_eq s (Node nx a))
        by (simpl; by rewrite lookup_insert_ne).
    + split; simpl.
      * red. simpl. split; [done|]. eexists. by rewrite lookup_insert_eq.
      * done.
      * intros l [->|Hin]%elem_of_cons; [|inversion Hin].
        rewrite <-Hfm; [done|by intros ?%elem_of_nil].
      * intros l Hin. rewrite lookup_insert_ne;
          [apply Hfm; by intros ?%elem_of_nil|].
        intros ->. apply Hin. left.
  - rewrite last_snoc in Hp; simpl in Hp; subst prev.
    apply lseg_app in Hb as Hl. destruct Hl as (m & _ & (-> & x & Hl & _)).
    assert (l ≠ c) as Hlc by (intros ->; congruence).
    assert (l ≠ s) as Hls by (intros ->; apply Hsb, last_loc_in).
    exists (set_heap (<[l := Node (Some c) al]> (<[c := Node None a]> h))
                     (answered w)), dst, c.
    split; [|split; [|by simpl; rewrite ?answered_script, ?answered_fault,
                                 ?answered_last_error]].
    + intros fuel0 fuel. rewrite Hrun. unfold mbind, M_bind.
      rewrite (set_next_eq l (Node x al)) by (simpl; by rewrite lookup_insert_ne).
      simpl.
      by rewrite (get_next_eq s (Node nx a))
        by (simpl; by rewrite !lookup_insert_ne).
    + split; simpl.
      * rewrite <-(assoc_L (++)). simpl. by apply lseg_link.
      * by rewrite last_snoc.
      * intros l'. rewrite fmap_app. intros [Hin|Hin]%elem_of_app; [auto|].
        apply list_elem_of_singleton in Hin as ->. by rewrite <-Hfm.
      * intros l'. rewrite fmap_app. intros Hin.
        apply not_elem_of_app in Hin as [Hin1 Hin2].
        assert (l' ≠ c) by (intros ->; apply Hin2; left).
        assert (l' ≠ l) by (intros ->; apply Hin1, last_loc_in).
        rewrite !lookup_insert_ne by done. by apply Hfm.
Qed.
Lemma peek_head w n :
  Forall (λ a, (a_ret a <? 0) = false) (take (S n) (w_script w)) →
  (a_ret (peek w) <? 0) = false ∧
  Forall (λ a, (a_ret a <? 0) = false) (take n (tail (w_script w))).
Proof.
  unfold peek. destruct (w_script w) as [|a s]; simpl.
  - intros _. split; [done|]. by rewrite take_nil.
  - by intros [? ?]%Forall_cons.
Qed.

(** The loop when every allocation succeeds. *)
Lemma copy_loop_all rest fuel0 fuel w src dst prev built h0 :
  is_list h0 src rest → copying h0 w dst prev built →
  (length rest ≤ fuel)%nat →
  Forall (λ a, (a_ret a <? 0) = false) (take (length rest) (w_script w)) →
  ∃ dst' new w1,
    copy_loop fuel0 fuel src dst prev w = (Some dst', w1) ∧
    copying h0 w1 dst' (fst <$> last (built ++ new)) (built ++ new) ∧
    new.*2 = rest.*2 ∧ w_fault w1 = w_fault w ∧
    w_last_error w1 = w_last_error w.
Proof.
  revert fuel w src dst prev built.
  induction rest as [|[s a] rest IH]; intros fuel w src dst prev built Hsrc Hcp Hf Hok.
  - red in Hsrc; simpl in Hsrc; subst src. exists dst, [], w.
    split; [by destruct fuel|]. rewrite app_nil_r.
    split; [|done]. by rewrite <-(cp_prev _ _ _ _ _ Hcp).
  - destruct Hsrc as (-> & nx & Hs & Hrest).
    destruct fuel as [|fuel]; [simpl in Hf; lia|].
    apply peek_head in Hok as [Hok Hoks].
    destruct (copy_step _ _ _ _ _ _ _ _ Hcp Hs Hok)
      as (w1 & dst1 & c & Hrun & Hcp1 & Hsc & Hfa & Hle).
    destruct (IH fuel w1 nx dst1 (Some c) (built ++ [(c, a)]))
      as (dst' & new & w2 & E & Hcp2 & Hnew & Hfa2 & Hle2); try done.
    { simpl in Hf. lia. }
    { by rewrite Hsc. }
    exists dst', ((c, a) :: new), w2. rewrite Hrun, E.
    rewrite <-(assoc_L (++)) in Hcp2. simpl in Hcp2.
    split; [done|]. split; [done|]. split; [by rewrite !fmap_cons, Hnew|].
    split; congruence.
Qed.

Lemma peek_failing w n :
  Exists (λ a, (a_ret a <? 0) = true) (take (S n) (w_script w)) →
  (a_ret (peek w) <? 0) = true ∨
  ((a_ret (peek w) <? 0) = false ∧
   Exists (λ a, (a_ret a <? 0) = true) (take n (tail (w_script w)))).
Proof.
  unfold peek. destruct (w_script w) as [|a s]; simpl.
  - by intros ?%Exists_nil.
  - intros [?|?]%Exists_cons; [by left|].
    destruct (a_ret a <? 0); [by left|by right].
Qed.

(** The loop when an allocation fails: the heap is as the call found
    it. *)
Lemma copy_loop_fails rest fuel0 fuel w src dst prev built h0 :
  is_list h0 src rest → copying h0 w dst prev built →
  (length rest ≤ fuel)%nat → (length built + length rest ≤ fuel0)%nat →
  Exists (λ a, (a_ret a <? 0) = true) (take (length rest) (w_script w)) →
  ∃ w1,
    copy_loop fuel0 fuel src dst prev w = (Some None, w1) ∧
    w_heap w1 = h0 ∧ w_fault w1 = w_fault w ∧
    w_last_error w1 = w_last_error w.
Proof.
  revert fuel w src dst prev built.
  induction rest as [|[s a] rest IH];
    intros fuel w src dst prev built Hsrc Hcp Hf Hf0 Hbad.
  { simpl in Hbad. by apply Exists_nil in Hbad. }
  destruct Hsrc as (-> & nx & Hs & Hrest).
  destruct fuel as [|fuel]; [simpl in Hf; lia|].
  apply peek_failing in Hbad as [Hbad|[Hok Hbad]].
  - rewrite copy_loop_eq. unfold malloc, mbind, M_bind.
    rewrite alloc_eq, Hbad.
    destruct (free_loop_spec built fuel0 dst (answered w))
      as (w1 & E & Hh & Hfa & Hle & _).
    { rewrite answered_heap. apply Hcp. }
    { lia. }
    rewrite E. exists w1. split; [done|].
    rewrite Hfa, Hle, answered_fault, answered_last_error.
    split; [|done]. apply map_eq. intros l. rewrite Hh, answered_heap.
    case_decide as Hin.
    + symmetry. by apply (cp_fresh _ _ _ _ _ Hcp).
    + by apply (cp_frame _ _ _ _ _ Hcp).
  - destruct (copy_step _ _ _ _ _ _ _ _ Hcp Hs Hok)
      as (w1 & dst1 & c & Hrun & Hcp1 & Hsc & Hfa & Hle).
    destruct (IH fuel w1 nx dst1 (Some c) (built ++ [(c, a)]))
      as (w2 & E & Hh & Hfa2 & Hle2); try done.
    { simpl in Hf. lia. }
    { rewrite length_app. simpl in *. lia. }
    { by rewrite Hsc. }
    exists w2. rewrite Hrun, E. split; [done|]. split; [done|].
    split; congruence.
Qed.

Lemma copying_start w : copying (w_heap w) w None None [].
Proof. split; try done. intros l Hin. inversion Hin. Qed.

End lists_in_memory.

(** A heap with the two-node list [printer6], [printer4] in blocks 1 and 2. *)
Definition two_nodes : gmap positive http_addrlist_t :=
  <[1%positive := Node (Some 2%positive) printer6]>
    (<[2%positive := Node None printer4]> ∅).

Definition world_with (h : gmap positive http_addrlist_t)
    (script : list answer) : world :=
  set_heap h (world0 script).

Definition out_of_memory : answer := Answer (-1) ENOMEM [].

(** C7, as the code has it.  When every allocation succeeds, the copy is a
    list of new blocks (none of them live before, so none shared with the
    source) holding the source's addresses in the source's order, and every
    block that was live is as it was.  When an allocation fails, the nodes
    built so far have been freed (the heap is the one the call found), the
    source is untouched and [NULL] is returned; the last-error slot is not
    written in either case. *)
Theorem copy_list fuel src nodes w :
  is_list (w_heap w) src nodes → (length nodes ≤ fuel)%nat →
  (Forall (λ a, 0 ≤ a_ret a) (take (length nodes) (w_script w)) →
   ∃ dst copy w1,
     httpAddrCopyList fuel src w = (Some dst, w1) ∧
     is_list (w_heap w1) dst copy ∧ copy.*2 = nodes.*2 ∧
     (∀ l, l ∈ copy.*1 → w_heap w !! l = None ∧ l ∉ nodes.*1) ∧
     (∀ l, l ∉ copy.*1 → w_heap w1 !! l = w_heap w !! l) ∧
     is_list (w_heap w1) src nodes ∧
     w_fault w1 = w_fault w ∧ w_last_error w1 = w_last_error w) ∧
  (Exists (λ a, a_ret a < 0) (take (length nodes) (w_script w)) →
   ∃ w1,
     httpAddrCopyList fuel src w = (Some None, w1) ∧
     w_heap w1 = w_heap w ∧
     w_fault w1 = w_fault w ∧ w_last_error w1 = w_last_error w).
Proof.
  intros Hsrc Hf. split.
  - intros Hok.
    destruct (copy_loop_all nodes fuel fuel w src None None [] (w_heap w))
      as (dst & copy & w1 & E & Hcp & Hnew & Hfa & Hle); try done.
    { apply copying_start. }
    { eapply Forall_impl; [exact Hok|]. intros a Ha. by apply Z.ltb_ge. }
    simpl in Hcp. destruct Hcp as [Hb _ Hfr Hfm].
    exists dst, copy, w1. split; [done|]. split; [done|]. split; [done|].
    assert (∀ l, l ∈ copy.*1 → l ∉ nodes.*1) as Hdis.
    { intros l Hin Hin'. destruct (is_list_live _ _ _ _ Hsrc Hin') as [n Hn].
      rewrite (Hfr l Hin) in Hn. done. }
    split; [by auto|]. split; [done|]. split; [|done].
    eapply lseg_frame; [|exact Hsrc]. intros l Hin. apply Hfm.
    intros Hin'. by apply (Hdis l).
  - intros Hbad.
    destruct (copy_loop_fails nodes fuel fuel w src None None [] (w_heap w))
      as (w1 & E & Hh & Hfa & Hle); try done.
    { apply copying_start. }
    { eapply Exists_impl; [exact Hbad|]. intros a Ha. by apply Z.ltb_lt. }
    by exists w1.
Qed.

Lemma copy_list_witness :
  let nodes := [(1%positive, printer6); (2%positive, printer4)] in
  let good := world_with two_nodes [ok; ok] in
  let bad := world_with two_nodes [ok; out_of_memory] in
  (∃ dst copy w1,
     httpAddrCopyList 2 (Some 1%positive) good = (Some dst, w1) ∧
     is_list (w_heap w1) dst copy ∧ copy.*2 = nodes.*2 ∧
     (∀ l, l ∈ copy.*1 → w_heap good !! l = None ∧ l ∉ nodes.*1) ∧
     (∀ l, l ∉ copy.*1 → w_heap w1 !! l = w_heap good !! l) ∧
     is_list (w_heap w1) (Some 1%positive) nodes ∧
     w_fault w1 = w_fault good ∧ w_last_error w1 = w_last_error good) ∧
  (∃ w1,
     httpAddrCopyList 2 (Some 1%positive) bad = (Some None, w1) ∧
     w_heap w1 = w_heap bad ∧
     w_fault w1 = w_fault bad ∧ w_last_error w1 = w_last_error bad).
Proof.
  intros nodes good bad.
  assert (∀ script, is_list (w_heap (world_with two_nodes script))
                            (Some 1%positive) nodes) as Hsrc.
  { intros script. red. simpl. split; [done|]. exists (Some 2%positive).
    split; [done|]. split; [done|]. by exists None. }
  split.
  - apply (copy_list 2 (Some 1%positive) nodes good (Hsrc _)); [simpl; lia|].
    simpl. repeat constructor; simpl; lia.
  - apply (copy_list 2 (Some 1%positive) nodes bad (Hsrc _)); [simpl; lia|].
    simpl. apply Exists_cons_tl, Exists_cons_hd. simpl. lia.
Defined.

(** Two runs of the copy of that list: with memory, the copy holds the two
    addresses in order; when the second allocation fails the result is
    [NULL] and the heap is the one before the call. *)
Example copy_two_nodes :
  let good := httpAddrCopyList 2 (Some 1%positive) (world_with two_nodes []) in
  let bad := httpAddrCopyList 2 (Some 1%positive)
               (world_with two_nodes [ok; out_of_memory]) in
  (∃ dst, good.1 = Some dst ∧
     addresses 2 (w_heap good.2) dst = [printer6; printer4] ∧
     addresses 2 (w_heap good.2) (Some 1%positive) = [printer6; printer4]) ∧
  bad.1 = Some None ∧ w_heap bad.2 = two_nodes ∧ w_fault bad.2 = false.
Proof. vm_compute. split; [eexists; by repeat split|done]. Qed.

(** C7 as stated fails: a copy that ran out of memory does not return the
    Internal error.  What it returns is [NULL], which is also the copy of
    the empty list, and the last-error slot still says [IPP_STATUS_OK]. *)
Lemma failed_copy_reports_no_error :
  let w := world_with two_nodes [ok; out_of_memory] in
  let r := httpAddrCopyList 2 (Some 1%positive) w in
  r.1 = Some None ∧ r.1 = (httpAddrCopyList 2 None w).1 ∧
  w_last_error r.2 = (IPP_STATUS_OK, NoMessage) ∧
  (w_last_error r.2).1 ≠ IPP_STATUS_ERROR_INTERNAL ∧ ¬ reports_error r.2.
Proof. vm_compute. repeat split; first [done | intros H; by apply H]. Qed.

(** C10.  The copy of the empty list is [NULL] and changes nothing; a copy
    that fails for lack of memory also returns [NULL], leaves the heap as it
    was and does not write the last-error slot: return value, heap and
    last-error slot are the same in both cases. *)
Theorem empty_copy_like_failed_copy fuel src nodes w :
  is_list (w_heap w) src nodes → (length nodes ≤ fuel)%nat →
  Exists (λ a, a_ret a < 0) (take (length nodes) (w_script w)) →
  let failed := httpAddrCopyList fuel src w in
  let empty := httpAddrCopyList fuel None w in
  empty = (Some None, w) ∧
  failed.1 = empty.1 ∧ w_heap failed.2 = w_heap empty.2 ∧
  w_last_error failed.2 = w_last_error w ∧
  w_last_error empty.2 = w_last_error w.
Proof.
  intros Hsrc Hf Hbad.
  destruct (copy_loop_fails nodes fuel fuel w src None None [] (w_heap w))
    as (w1 & E & Hh & Hfa & Hle); try done.
  { apply copying_start. }
  { eapply Exists_impl; [exact Hbad|]. intros a Ha. by apply Z.ltb_lt. }
  unfold httpAddrCopyList. rewrite E. simpl.
  assert (copy_loop fuel fuel None None None w = (Some None, w)) as ->
    by (by destruct fuel).
  done.
Qed.

Lemma empty_copy_like_failed_copy_witness :
  let w := world_with two_nodes [ok; out_of_memory] in
  let failed := httpAddrCopyList 2 (Some 1%positive) w in
  let empty := httpAddrCopyList 2 None w in
  empty = (Some None, w) ∧
  failed.1 = empty.1 ∧ w_heap failed.2 = w_heap empty.2 ∧
  w_last_error failed.2 = w_last_error w ∧
  w_last_error empty.2 = w_last_error w.
Proof.
  intros w.
  apply (empty_copy_like_failed_copy 2 (Some 1%positive)
           [(1%positive, printer6); (2%positive, printer4)] w).
  - red. simpl. split; [done|]. exists (Some 2%positive). split; [done|].
    split; [done|]. by exists None.
  - simpl. lia.
  - simpl. apply Exists_cons_tl, Exists_cons_hd. simpl. lia.
Defined.

(** * The resolver *)

Import Resolver.

Section resolver_strings.

Local Open Scope string_scope.

(** A string without a plus sign. *)
Fixpoint plus_free (s : string) : bool :=
  match s with
  | EmptyString => true
  | String c s' => negb (is_char c "+") && plus_free s'
  end.

Lemma chop_bracket_app s : chop_bracket (s +:+ "]") = Some s.
Proof.
  induction s as [|c s IH]; [done|].
  change (String c s +:+ "]") with (String c (s +:+ "]")).
  simpl. rewrite IH. by destruct s.
Qed.

Lemma zone_percent_free z : plus_free z = true → zone_percent z = (z, false).
Proof.
  induction z as [|c z IH]; [done|]. simpl.
  intros [Hc Hz]%andb_true_iff. rewrite (IH Hz).
  by case_decide.
Qed.

Lemma zone_percent_app a z :
  plus_free z = true →
  zone_percent (a +:+ "+" +:+ z) = (a +:+ "%" +:+ z, true).
Proof.
  intros Hz. induction a as [|c a IH].
  - change ("" +:+ "+" +:+ z) with (String "+" z). simpl.
    by rewrite (zone_percent_free z Hz).
  - change (String c a +:+ "+" +:+ z) with (String c (a +:+ "+" +:+ z)).
    simpl. by rewrite IH.
Qed.

Lemma str_take_all n s : (String.length s ≤ n)%nat → str_take n s = s.
Proof.
  revert n. induction s as [|c s IH]; intros [|n]; simpl; try done; [lia|].
  intros H. f_equal. apply IH. lia.
Qed.

Lemma length_append s t :
  String.length (s +:+ t) = (String.length s + String.length t)%nat.
Proof. induction s; simpl; [done|]. by f_equal. Qed.

(** The literal [[v1.addr+zone]] is unwrapped to [addr%zone] when it fits
    the 64-byte buffer. *)
Lemma unbracket_v1 a z :
  plus_free z = true → (String.length (a +:+ "+" +:+ z) ≤ 62)%nat →
  unbracket ("[v1." +:+ a +:+ "+" +:+ z +:+ "]") = a +:+ "%" +:+ z.
Proof.
  intros Hz Hlen. unfold unbracket.
  change ("[v1." +:+ a +:+ "+" +:+ z +:+ "]")
    with (String "[" (String "v" (String "1" (String "."
            (a +:+ "+" +:+ z +:+ "]"))))).
  cbn [first_char is_char String.prefix str_drop].
  rewrite !decide_True by done.
  destruct (ascii_dec "v" "v"); [|done].
  destruct (ascii_dec "1" "1"); [|done].
  destruct (ascii_dec "." "."); [|done].
  destruct (ascii_dec "[" "["); [|done].
  unfold cupsCopyString.
  assert (a +:+ "+" +:+ z +:+ "]" = (a +:+ "+" +:+ z) +:+ "]") as ->.
  { clear. induction a as [|c a IH]; [done|].
    change (String c a +:+ "+" +:+ z +:+ "]")
      with (String c (a +:+ "+" +:+ z +:+ "]")).
    by rewrite IH. }
  rewrite str_take_all.
  - rewrite chop_bracket_app.
    assert (∀ s, String.prefix "" s = true) as -> by (by intros [|]).
    by rewrite zone_percent_app.
  - rewrite length_append. simpl. lia.
Qed.

End resolver_strings.

Section resolver_runs.

(** A computation only adds to the log of calls. *)
Definition grows {A} (m : M A) : Prop :=
  ∀ w, w_log w `prefix_of` w_log (m w).2.

Lemma grows_ret {A} (a : A) : grows (mret a).
Proof. by intros w. Qed.

Lemma grows_bind {A B} (m : M A) (f : A → M B) :
  grows m → (∀ a, grows (f a)) → grows (m ≫= f).
Proof.
  intros Hm Hf w. unfold mbind, M_bind. specialize (Hm w).
  destruct (m w) as [a w1]. simpl in Hm. etrans; [exact Hm|]. apply Hf.
Qed.

Lemma grows_pure {A} (m : M A) :
  (∀ w, w_log (m w).2 = w_log w) → grows m.
Proof. intros H w. by rewrite H. Qed.

Lemma grows_load l : grows (load l).
Proof. apply grows_pure. intros w. unfold load. by destruct (_ !! _). Qed.

Lemma grows_store l n : grows (store l n).
Proof. apply grows_pure. intros w. unfold store. by destruct (_ !! _). Qed.

Lemma grows_free l : grows (free l).
Proof.
  intros w. unfold free. destruct (_ !! _); simpl; [|done].
  by apply prefix_app_r.
Qed.

Lemma grows_alloc : grows alloc.
Proof.
  intros w. rewrite alloc_eq.
  assert (w_log w `prefix_of` w_log (answered w)) as H.
  { unfold answered, syscall, next_answer.
    destruct (w_script w) as [|a s]; simpl; [by apply prefix_app_r|].
    destruct (a_ret a <? 0); by apply prefix_app_r. }
  by destruct (_ <? 0).
Qed.

Lemma grows_get_next l : grows (get_next l).
Proof. apply grows_bind; [apply grows_load|intros; apply grows_ret]. Qed.

Lemma grows_set_next l q : grows (set_next l q).
Proof. apply grows_bind; [apply grows_load|intros; apply grows_store]. Qed.

Lemma grows_set_addr l a : grows (set_addr l a).
Proof. apply grows_bind; [apply grows_load|intros; apply grows_store]. Qed.

Lemma grows_free_loop fuel p : grows (free_loop fuel p).
Proof.
  revert p. induction fuel as [|fuel IH]; intros [l|]; simpl;
    try apply grows_ret.
  apply grows_bind; [apply grows_get_next|intros nx].
  apply grows_bind; [apply grows_free|intros _]. apply IH.
Qed.

Lemma grows_cupsSetError status msg : grows (_cupsSetError status msg).
Proof. by apply grows_pure. Qed.

Lemma grows_get_errno : grows get_errno.
Proof. by apply grows_pure. Qed.

Lemma grows_getservbyname s : grows (sys_getservbyname s).
Proof. intros w. by apply prefix_app_r. Qed.

Ltac grow :=
  repeat first
    [ apply grows_ret | apply grows_alloc | apply grows_set_addr
    | apply grows_set_next | apply grows_get_errno | apply grows_cupsSetError
    | apply grows_free_loop | apply grows_getservbyname
    | apply grows_bind; [|intros ?]
    | match goal with
      | |- grows (match ?x with _ => _ end) => destruct x
      end ].

Lemma grows_service_port service : grows (service_port service).
Proof. unfold service_port. grow. Qed.

Lemma grows_copy_results fuel results first addr :
  grows (copy_results fuel results first addr).
Proof.
  revert first addr. induction results as [|current results IH];
    intros first addr; simpl; [apply grows_ret|].
  destruct (_ || _); [|apply IH].
  unfold calloc, httpAddrFreeList.
  apply grows_bind; [apply grows_alloc|intros [t|]]; [|grow].
  apply grows_bind; [apply grows_set_addr|intros _].
  apply grows_bind; [destruct addr; grow|intros _]. apply IH.
Qed.

Lemma grows_add_fallback fuel a ipv6 first addr :
  grows (add_fallback fuel a ipv6 first addr).
Proof. unfold add_fallback, calloc, httpAddrFreeList. grow. Qed.

Lemma grows_add_fallbacks fuel family a6 a4 first addr :
  grows (add_fallbacks fuel family a6 a4 first addr).
Proof.
  unfold add_fallbacks.
  apply grows_bind; [destruct (negb _); [apply grows_add_fallback|grow]|].
  intros [first' addr'|r]; [|grow].
  destruct (negb _); [apply grows_add_fallback|grow].
Qed.

(** The part of [httpAddrGetList] after the lookup. *)
Definition after_lookup (fuel : nat) (family : Z) (service : option string)
    (bh : built * option string) : M (option ptr) :=
  let '(b, hostname) := bh in
  match b with
  | Returned r => mret r
  | Going first addr =>
    let localhost := match hostname with
                     | Some h => _cups_strcasecmp h "localhost" =? 0
                     | None => false
                     end in
    let absent := match hostname with None => true | Some _ => false end in
    match addr with
    | None =>
      if absent || localhost then
        port ← service_port service;
        match port with
        | None =>
          r ← httpAddrFreeList fuel first;
          _cupsSetError IPP_STATUS_ERROR_INTERNAL (Message "Unknown service name.") ;;
          mret ((λ _, None) <$> r)
        | Some portnum =>
          b ← (if localhost then
                 add_fallbacks fuel family
                   (AddrIPv6 (htons portnum) [0; 0; 0; htonl 1] 0)
                   (AddrIPv4 (htons portnum) (htonl 2130706433))
                   first addr
               else
                 add_fallbacks fuel family
                   (AddrIPv6 (htons portnum) [0; 0; 0; 0] 0)
                   (AddrIPv4 (htons portnum) 0)
                   first addr);
          match b with
          | Returned r => mret r
          | Going first _ => mret (Some first)
          end
        end
      else mret (Some first)
    | Some _ => mret (Some first)
    end
  end.

Lemma grows_after_lookup fuel family service bh :
  grows (after_lookup fuel family service bh).
Proof.
  destruct bh as [[first [a|]|r] hostname]; simpl; try apply grows_ret.
  destruct (_ || _); [|apply grows_ret].
  apply grows_bind; [apply grows_service_port|intros [portnum|]].
  - apply grows_bind; [destruct (match hostname with Some _ => _ | None => _ end);
                       apply grows_add_fallbacks|].
    intros [? ?|?]; apply grows_ret.
  - unfold httpAddrFreeList. grow.
Qed.

(** The statements of [httpAddrGetList] before the lookup. *)
Definition before_lookup : M unit :=
  need ← get_need_res_init;
  if (need : bool) then res_init ;; put_need_res_init false else mret tt.

Lemma httpAddrGetList_eq fuel hostname family service :
  httpAddrGetList fuel hostname family service =
  (before_lookup ;;
   bh ← match hostname with
        | Some h =>
          if is_char (first_char h) "/" then
            first ← calloc;
            match first with
            | Some f =>
              set_addr f (AddrLocal (cupsCopyString h 108)) ;;
              mret (Going first first, hostname)
            | None => mret (Going None None, hostname)
            end
          else if negb (_cups_strcasecmp h "localhost" =? 0) then
            let h := unbracket h in
            '(error, results) ← sys_getaddrinfo (Some h) service family 0;
            if error =? 0 then
              b ← copy_results fuel results None None;
              mret (b, Some h)
            else
              (if error =? EAI_FAIL then put_need_res_init true else mret tt) ;;
              _cupsSetError IPP_STATUS_ERROR_INTERNAL (GaiStrerror error) ;;
              mret (Going None None, Some h)
          else mret (Going None None, hostname)
        | None =>
          '(error, results) ← sys_getaddrinfo None service family AI_PASSIVE;
          if error =? 0 then
            b ← copy_results fuel results None None;
            mret (b, None)
          else
            (if error =? EAI_FAIL then put_need_res_init true else mret tt) ;;
            _cupsSetError IPP_STATUS_ERROR_INTERNAL (GaiStrerror error) ;;
            mret (Going None None, None)
        end;
   after_lookup fuel family service bh).
Proof.
  reflexivity.
Qed.

Lemma post_in_log {A} (m : M A) w ev :
  grows m → ev ∈ w_log w → post m w (λ _ w1, ev ∈ w_log w1).
Proof.
  intros Hm Hin. unfold post. destruct (Hm w) as [k ->].
  apply elem_of_app. by left.
Qed.

(** Two worlds with the same memory, script and name services. *)
Record same_mem (w w1 : world) : Prop := SameMem {
  sm_heap : w_heap w1 = w_heap w;
  sm_script : w_script w1 = w_script w;
  sm_fault : w_fault w1 = w_fault w;
  sm_services : w_services w1 = w_services w;
  sm_dns : w_dns w1 = w_dns w;
}.

Lemma same_mem_refl w : same_mem w w.
Proof. by split. Qed.

Lemma same_mem_trans w w1 w2 : same_mem w w1 → same_mem w1 w2 → same_mem w w2.
Proof. intros [] []. split; congruence. Qed.

Lemma before_lookup_mem w : same_mem w (before_lookup w).2.
Proof.
  unfold before_lookup, mbind, M_bind, get_need_res_init. cbv beta.
  by destruct (w_need_res_init w).
Qed.

Lemma before_lookup_error w :
  w_last_error (before_lookup w).2 = w_last_error w.
Proof.
  unfold before_lookup, mbind, M_bind, get_need_res_init. cbv beta.
  by destruct (w_need_res_init w).
Qed.

Definition inet (ai : addrinfo) : bool :=
  (ai_family ai =? AF_INET) || (ai_family ai =? AF_INET6).

(** The lookup gave an error, or no IPv4 or IPv6 address. *)
Definition no_addresses (r : Z * list addrinfo) : Prop :=
  r.1 ≠ 0 ∨ Forall (λ ai, inet ai = false) r.2.

(** The fallback is reached: no host name was given and the lookup
    produced no address, or the host name is [localhost], for which no
    lookup is made. *)
Definition fallback_reached (w : world) (hostname : option string)
    (family : Z) (service : option string) : Prop :=
  match hostname with
  | None => no_addresses (w_dns w None service family AI_PASSIVE)
  | Some h => _cups_strcasecmp h "localhost" = 0
  end.

Lemma copy_results_none fuel results first addr w :
  Forall (λ ai, inet ai = false) results →
  copy_results fuel results first addr w = (Going first addr, w).
Proof.
  induction 1 as [|ai results Hai _ IH]; simpl; [done|].
  unfold inet in Hai. by rewrite Hai.
Qed.

Lemma localhost_not_path h :
  _cups_strcasecmp h "localhost" = 0 → is_char (first_char h) "/" = false.
Proof.
  destruct h as [|c h]; [done|]. simpl.
  case_decide as Hc; [|done]. subst c. by vm_compute.
Qed.

Lemma lookup_stage fuel hostname family service w :
  fallback_reached w hostname family service →
  ∃ w2,
    httpAddrGetList fuel hostname family service w
    = after_lookup fuel family service (Going None None, hostname) w2 ∧
    same_mem w w2 ∧
    (hostname ≠ None → w_last_error w2 = w_last_error w).
Proof.
  intros Hfb. rewrite httpAddrGetList_eq. unfold mbind at 1, M_bind at 1.
  pose proof (before_lookup_mem w) as Hm.
  pose proof (before_lookup_error w) as He.
  destruct (before_lookup w) as [[] w1]. simpl in Hm, He.
  destruct hostname as [h|]; simpl in Hfb.
  - rewrite (localhost_not_path h Hfb), Hfb.
    exists w1. split; [reflexivity|]. by split.
  - unfold mbind, M_bind, sys_getaddrinfo. rewrite (sm_dns _ _ Hm).
    destruct (w_dns w None service family AI_PASSIVE) as [error results].
    destruct (error =? 0) eqn:Eerr.
    + destruct Hfb as [Hne|Hno].
      { simpl in Hne. apply Z.eqb_eq in Eerr. done. }
      rewrite (copy_results_none _ _ _ _ _ Hno). eexists. split; [done|].
      split; [|done]. destruct Hm. by split.
    + destruct (error =? EAI_FAIL); simpl; eexists; (split; [done|]);
        (split; [|done]); destruct Hm; by split.
Qed.

Lemma service_port_mem service w : same_mem w (service_port service w).2.
Proof.
  unfold service_port. destruct service as [s|]; [|done].
  destruct (isdigit _); [done|].
  unfold mbind, M_bind, sys_getservbyname.
  destruct (w_services w s); [done|].
  repeat (match goal with |- context [if ?b then _ else _] => destruct b end;
          [done|]).
  done.
Qed.

Lemma service_port_value service w w1 :
  w_services w1 = w_services w →
  (service_port service w1).1 = (service_port service w).1.
Proof.
  intros Hs. unfold service_port. destruct service as [s|]; [|done].
  destruct (isdigit _); [done|].
  unfold mbind, M_bind, sys_getservbyname. rewrite Hs.
  destruct (w_services w s); [done|].
  repeat (match goal with |- context [if ?b then _ else _] => destruct b end;
          [done|]).
  done.
Qed.

Lemma streq_false s t : s ≠ t → streq s t = false.
Proof. intros H. unfold streq. by rewrite decide_False. Qed.

(** A service name the fallback cannot resolve. *)
Lemma service_port_unknown s w :
  isdigit (first_char s) = false → w_services w s = None →
  s ∉ builtin_services.*1 →
  (service_port (Some s) w).1 = None.
Proof.
  intros Hd Hdb Htab. unfold service_port. rewrite Hd.
  unfold mbind, M_bind, sys_getservbyname. rewrite Hdb.
  rewrite !streq_false; [done|..]; intros ->; apply Htab; simpl;
    repeat first [left | right].
Qed.

(** A successful [calloc] followed by filling in the address. *)
Lemma new_node {B} a (k : positive → M B) (x : M B) w :
  (a_ret (peek w) <? 0) = false →
  (temp ← calloc;
   match temp with
   | None => x
   | Some t => set_addr t a ;; k t
   end) w
  = k (fresh (dom (w_heap w)))
      (set_heap (<[fresh (dom (w_heap w)) := Node None a]> (w_heap w))
                (answered w)).
Proof.
  intros Hok. unfold calloc. unfold mbind at 1, M_bind at 1.
  rewrite alloc_eq, Hok. unfold mbind, M_bind.
  rewrite (set_addr_eq _ zero_node) by (simpl; by rewrite lookup_insert_eq).
  simpl. by rewrite insert_insert_eq.
Qed.

(** The addresses the fallback is to give, in order. *)
Definition both_families (family : Z) (a6 a4 : http_addr_t) : list http_addr_t :=
  (if decide (family = AF_INET) then [] else [a6])
  ++ (if decide (family = AF_INET6) then [] else [a4]).

Lemma add_fallbacks_ok fuel family a6 a4 w :
  Forall (λ a, (a_ret a <? 0) = false) (take 2 (w_script w)) →
  ∃ first addr nodes w1,
    add_fallbacks fuel family a6 a4 None None w = (Going first addr, w1) ∧
    is_list (w_heap w1) first nodes ∧
    nodes.*2 = both_families family a6 a4 ∧
    (∀ l, l ∈ nodes.*1 → w_heap w !! l = None) ∧
    (∀ l, l ∉ nodes.*1 → w_heap w1 !! l = w_heap w !! l) ∧
    w_fault w1 = w_fault w ∧ w_last_error w1 = w_last_error w.
Proof.
  intros Hok. apply peek_head in Hok as [Hok1 Hok2].
  set (h := w_heap w). set (t1 := fresh (dom h)).
  assert (h !! t1 = None) as Ht1 by apply fresh_block.
  unfold add_fallbacks, both_families.
  destruct (decide (family = AF_INET)) as [->|Hn4].
  - (* IPv4 only *)
    unfold mbind at 1, M_bind at 1. simpl.
    unfold add_fallback. rewrite new_node by done. fold h t1.
    exists (Some t1), None, [(t1, a4)]. eexists. split; [reflexivity|]. simpl.
    split; [|split; [done|split; [|split]]].
    + red. simpl. split; [done|]. eexists. by rewrite lookup_insert_eq.
    + by intros l ->%list_elem_of_singleton.
    + intros l Hl. apply lookup_insert_ne. intros ->. apply Hl. left.
    + by rewrite answered_fault, answered_last_error.
  - apply Z.eqb_neq in Hn4 as Hn4'. rewrite Hn4'.
    unfold mbind at 1, M_bind at 1. simpl (negb false).
    unfold add_fallback at 1. rewrite new_node by done. fold h t1. simpl.
    destruct (decide (family = AF_INET6)) as [->|Hn6].
    + (* IPv6 only *)
      simpl. exists (Some t1), (Some t1), [(t1, a6)]. eexists.
      split; [reflexivity|]. simpl.
      split; [|split; [done|split; [|split]]].
      * red. simpl. split; [done|]. eexists. by rewrite lookup_insert_eq.
      * by intros l ->%list_elem_of_singleton.
      * intros l Hl. apply lookup_insert_ne. intros ->. apply Hl. left.
      * by rewrite answered_fault, answered_last_error.
    + (* both *)
      apply Z.eqb_neq in Hn6 as Hn6'. rewrite Hn6'. simpl (negb false).
      set (h1 := <[t1 := Node None a6]> h).
      set (w1 := set_heap h1 (answered w)).
      assert ((a_ret (peek w1) <? 0) = false) as Hok1'.
      { unfold peek, w1. simpl. rewrite answered_script.
        destruct (tail (w_script w)) as [|a s]; [done|].
        by apply Forall_cons in Hok2 as [? _]. }
      unfold add_fallback. rewrite new_node by done.
      change (w_heap w1) with h1. set (t2 := fresh (dom h1)).
      assert (h1 !! t2 = None) as Ht2 by apply fresh_block.
      assert (t1 ≠ t2) as Hne.
      { intros E. rewrite <-E in Ht2. unfold h1 in Ht2.
        by rewrite lookup_insert_eq in Ht2. }
      unfold mbind, M_bind.
      rewrite (set_next_eq t1 (Node None a6))
        by (simpl; rewrite lookup_insert_ne by done; apply lookup_insert_eq).
      simpl.
      exists (Some t1), (Some t1), [(t1, a6); (t2, a4)]. eexists.
      split; [reflexivity|]. simpl.
      split; [|split; [done|split; [|split]]].
      * red. simpl. split; [done|]. eexists. split; [apply lookup_insert_eq|].
        split; [done|]. exists None. split; [|done].
        rewrite lookup_insert_ne by done. apply lookup_insert_eq.
      * intros l [->|[->|Hl]%elem_of_cons]%elem_of_cons; [done| |inversion Hl].
        unfold h1 in Ht2. by rewrite lookup_insert_ne in Ht2.
      * intros l Hl.
        assert (t1 ≠ l) by (intros ->; apply Hl; left).
        assert (t2 ≠ l) by (intros ->; apply Hl; right; left).
        unfold h1. by rewrite !lookup_insert_ne.
      * unfold w1. simpl. rewrite answered_fault, answered_last_error.
        simpl. by rewrite answered_fault, answered_last_error.
Qed.

Lemma ntohs_htons p : 0 ≤ p < 65536 → ntohs (htons p) = p.
Proof.
  intros Hp. unfold ntohs, htons. Z.div_mod_to_equations. lia.
Qed.

End resolver_runs.

(** The wildcard and loopback addresses of the spec, bound to a port. *)
Definition wildcard6 (port : Z) : http_addr_t := AddrIPv6 (htons port) [0; 0; 0; 0] 0.
Definition wildcard4 (port : Z) : http_addr_t := AddrIPv4 (htons port) 0.
Definition loopback6 (port : Z) : http_addr_t :=
  AddrIPv6 (htons port) [0; 0; 0; htonl 1] 0.
Definition loopback4 (port : Z) : http_addr_t :=
  AddrIPv4 (htons port) (htonl 2130706433).

(** What the spec asks of the fallback: wildcards without a host name,
    loopbacks for [localhost]; the IPv6 entry unless the family is IPv4 only,
    then the IPv4 entry unless the family is IPv6 only. *)
Definition fallback_spec (hostname : option string) (family port : Z)
    : list http_addr_t :=
  match hostname with
  | None => both_families family (wildcard6 port) (wildcard4 port)
  | Some _ => both_families family (loopback6 port) (loopback4 port)
  end.


(** The services of a system that knows [ipp] as port 631. *)
Definition with_ipp (w : world) : world :=
  World (w_script w) (w_errno w) (w_open w) (w_heap w) (w_fault w)
        (w_last_error w) (w_need_res_init w) (w_dns w)
        (λ s, if decide (s = "ipp"%string) then Some (htons 631) else None)
        (w_log w).


(** Runs of the fallback: without a host name and with service [http] the
    wildcards on port 80, IPv6 first; for [localhost] and [ipp] the
    loopbacks on port 631; with an IPv4-only filter only the IPv4 entry. *)
Example fallback_runs :
  let run hostname family service :=
    let r := httpAddrGetList 2 hostname family (Some service) (world0 []) in
    (λ p, addresses 2 (w_heap r.2) p) <$> r.1 in
  run None AF_UNSPEC "http"%string = Some [wildcard6 80; wildcard4 80] ∧
  run (Some "localhost"%string) AF_UNSPEC "ipp"%string
  = Some [loopback6 631; loopback4 631] ∧
  run (Some "localhost"%string) AF_INET "ipp"%string = Some [loopback4 631] ∧
  run None AF_INET6 "9100"%string = Some [wildcard6 9100].
Proof. vm_compute. done. Qed.

Section resolver_fallback.

Lemma service_port_error service w :
  w_last_error (service_port service w).2 = w_last_error w.
Proof.
  unfold service_port. destruct service as [s|]; [|done].
  destruct (isdigit _); [done|].
  unfold mbind, M_bind, sys_getservbyname.
  destruct (w_services w s); [done|].
  repeat (match goal with |- context [if ?b then _ else _] => destruct b end;
          [done|]).
  done.
Qed.

Lemma both_families_cons family a6 a4 :
  ∃ a rest, both_families family a6 a4 = a :: rest.
Proof.
  unfold both_families. destruct (decide (family = AF_INET)) as [->|]; simpl;
    eauto.
Qed.

(** The fallback run from a world [w2] reached with no address found. *)
Lemma fallback_run fuel family service (localhost : bool) hostname w2 portnum :
  (match hostname with None => true | Some _ => false end
   || match hostname with
      | Some h => _cups_strcasecmp h "localhost" =? 0
      | None => false
      end) = true →
  match hostname with
  | Some h => _cups_strcasecmp h "localhost" =? 0
  | None => false
  end = localhost →
  (service_port service w2).1 = Some portnum →
  Forall (λ a, 0 ≤ a_ret a) (take 2 (w_script w2)) →
  ∃ first nodes w1,
    after_lookup fuel family service (Going None None, hostname) w2
    = (Some (Some first), w1) ∧
    is_list (w_heap w1) (Some first) nodes ∧
    nodes.*2 = (if localhost
                then both_families family (AddrIPv6 (htons portnum) [0; 0; 0; htonl 1] 0)
                                   (AddrIPv4 (htons portnum) (htonl 2130706433))
                else both_families family (AddrIPv6 (htons portnum) [0; 0; 0; 0] 0)
                                   (AddrIPv4 (htons portnum) 0)) ∧
    (∀ l, l ∈ nodes.*1 → w_heap w2 !! l = None) ∧
    (∀ l, l ∉ nodes.*1 → w_heap w1 !! l = w_heap w2 !! l) ∧
    w_fault w1 = w_fault w2 ∧ w_last_error w1 = w_last_error w2.
Proof.
  intros Hreach Hlocal Hport Hok. unfold after_lookup. rewrite Hreach, Hlocal.
  unfold mbind at 1, M_bind at 1.
  pose proof (service_port_mem service w2) as [Hh Hs Hf _ _].
  pose proof (service_port_error service w2) as He.
  destruct (service_port service w2) as [port w3]. simpl in *. subst port.
  assert (Forall (λ a, (a_ret a <? 0) = false) (take 2 (w_script w3))) as Hok3.
  { rewrite Hs. eapply Forall_impl; [exact Hok|]. intros a Ha. by apply Z.ltb_ge. }
  assert (∀ a6 a4,
    ∃ first nodes w1,
      (b ← add_fallbacks fuel family a6 a4 None None;
       match b with
       | Returned r => mret r
       | Going first _ => mret (Some first)
       end) w3 = (Some (Some first), w1) ∧
      is_list (w_heap w1) (Some first) nodes ∧
      nodes.*2 = both_families family a6 a4 ∧
      (∀ l, l ∈ nodes.*1 → w_heap w2 !! l = None) ∧
      (∀ l, l ∉ nodes.*1 → w_heap w1 !! l = w_heap w2 !! l) ∧
      w_fault w1 = w_fault w2 ∧ w_last_error w1 = w_last_error w2) as Hrun.
  { intros a6 a4.
    destruct (add_fallbacks_ok fuel family a6 a4 w3 Hok3)
      as (first & addr & nodes & w1 & E1 & Hl & Hn & Hnew & Hold & Hf1 & He1).
    destruct (both_families_cons family a6 a4) as (a & rest & Hb).
    rewrite Hb in Hn. destruct nodes as [|[l a'] nodes]; [done|].
    pose proof Hl as [-> _].
    exists l, ((l, a') :: nodes), w1. unfold mbind, M_bind. rewrite E1.
    rewrite Hh in Hnew, Hold. rewrite Hf in Hf1. rewrite He in He1.
    by rewrite Hb. }
  destruct localhost; apply Hrun.
Qed.

End resolver_fallback.




(** Each name of the builtin table resolves to its port when the system's
    database does not know it. *)
Lemma builtin_service_port s port w :
  (s, port) ∈ builtin_services → w_services w s = None →
  (service_port (Some s) w).1 = Some port.
Proof.
  intros Hin Hdb. unfold builtin_services in Hin.
  repeat (apply elem_of_cons in Hin as [[= -> ->]|Hin];
          [unfold service_port, mbind, M_bind, sys_getservbyname; simpl;
           by rewrite Hdb|]).
  inversion Hin.
Qed.

Section literals.

(** After the lookup with name [h] everything the call does is added
    behind it in the log. *)
Lemma lookup_logged fuel rest family service w :
  ∃ evs,
    w_log (httpAddrGetList fuel (Some (String "["%char rest)) family service w).2
    = w_log (before_lookup w).2
      ++ EvGetaddrinfo (Some (unbracket (String "["%char rest))) service family 0
      :: evs.
Proof.
  rewrite httpAddrGetList_eq. unfold mbind at 1, M_bind at 1.
  destruct (before_lookup w) as [[] w1]. simpl (_.2).
  set (h := unbracket (String "["%char rest)).
  set (ev := EvGetaddrinfo (Some h) service family 0).
  assert (∀ A (k : Z * list addrinfo → M A),
    grows (k (w_dns w1 (Some h) service family 0)) →
    ∃ evs, w_log ((sys_getaddrinfo (Some h) service family 0 ≫= k) w1).2
           = w_log w1 ++ ev :: evs) as Hstep.
  { intros A k Hk. destruct (Hk (add_log ev w1)) as [evs Hevs]. exists evs.
    unfold mbind, M_bind, sys_getaddrinfo. cbv beta iota. fold ev.
    rewrite Hevs. simpl. by rewrite <-(assoc_L (++)). }
  match goal with
  | |- ∃ evs, w_log ((?m ≫= ?k2) w1).2 = _ =>
    assert (m ≫= k2
            = sys_getaddrinfo (Some h) service family 0
              ≫= (λ r, (let '(error, results) := r in
                        if error =? 0 then
                          b ← copy_results fuel results None None;
                          mret (b, Some h)
                        else
                          (if error =? EAI_FAIL then put_need_res_init true
                           else mret tt) ;;
                          _cupsSetError IPP_STATUS_ERROR_INTERNAL
                                        (GaiStrerror error) ;;
                          mret (Going None None, Some h)) ≫= k2)) as ->
      by reflexivity
  end.
  apply Hstep. destruct (w_dns w1 (Some h) service family 0) as [error results].
  apply grows_bind; [|intros bh; apply grows_after_lookup].
  destruct (error =? 0).
  - apply grows_bind; [apply grows_copy_results|intros; apply grows_ret].
  - apply grows_bind; [destruct (_ =? _); [by apply grows_pure|apply grows_ret]|].
    intros _. apply grows_bind; [apply grows_cupsSetError|].
    intros _. apply grows_ret.
Qed.

End literals.

(** C8, as the code has it.  For a host name [[v1.addr+zone]] whose zone has
    no plus sign and whose [addr+zone] has at most 62 bytes (so that it fits,
    with the closing bracket, the 64-byte buffer), the first call after the
    function's preamble is the lookup of [addr%zone]: brackets and [v1.]
    are gone and the plus sign is the zone delimiter. *)
Theorem v1_literal_lookup fuel a z family service w :
  plus_free z = true →
  (String.length (a +:+ "+" +:+ z)%string ≤ 62)%nat →
  ∃ evs,
    w_log (httpAddrGetList fuel
             (Some ("[v1." +:+ a +:+ "+" +:+ z +:+ "]")%string)
             family service w).2
    = w_log (before_lookup w).2
      ++ EvGetaddrinfo (Some (a +:+ "%" +:+ z)%string) service family 0 :: evs.
Proof.
  intros Hz Hlen. rewrite <-(unbracket_v1 a z Hz Hlen).
  apply (lookup_logged fuel ("v1." +:+ a +:+ "+" +:+ z +:+ "]")%string).
Qed.

Lemma v1_literal_lookup_witness :
  ∃ evs,
    w_log (httpAddrGetList 2 (Some "[v1.fe80::1+eth0]"%string) AF_UNSPEC
             (Some "ipp"%string) (world0 [])).2
    = w_log (before_lookup (world0 [])).2
      ++ EvGetaddrinfo (Some "fe80::1%eth0"%string) (Some "ipp"%string)
                       AF_UNSPEC 0 :: evs.
Proof.
  apply (v1_literal_lookup 2 "fe80::1"%string "eth0"%string AF_UNSPEC (Some "ipp"%string)
           (world0 [])); [reflexivity|simpl; lia].
Defined.

(** C8 as stated fails for a literal that does not fit the buffer: with a
    zone of 59 bytes the copy is cut before the closing bracket, the name is
    left as it was, and the lookup receives the bracketed literal. *)
Lemma long_v1_literal_not_unwrapped :
  let zone := "enp0s31f6.vlan0100.bridge0.printing-room.second-floor.west0"%string in
  let literal := ("[v1.fe80::1+" +:+ zone +:+ "]")%string in
  plus_free zone = true ∧ String.length zone = 59%nat ∧
  w_log (httpAddrGetList 2 (Some literal) AF_UNSPEC (Some "ipp"%string)
           (world0 [])).2
  = [EvGetaddrinfo (Some literal) (Some "ipp"%string) AF_UNSPEC 0] ∧
  literal ≠ ("fe80::1%" +:+ zone)%string.
Proof. vm_compute. repeat split; done. Qed.

(** A literal that does not fit is not always left as it was: only its
    first 63 bytes after [[v1.] are looked at, and when the last of them is
    itself a closing bracket the lookup receives the 62 bytes before it. *)
Example cut_v1_literal :
  let zone := String.string_of_list_ascii (replicate 54 "a"%char) in
  unbracket ("[v1.fe80::1+" +:+ zone +:+ "]b]") = ("fe80::1%" +:+ zone)%string.
Proof. by vm_compute. Qed.

(** * Notification subjects *)

Import Notify.

Section notify_subject.

Context `{ipp_h} (cups_lang_t ipp_t : Type).
Context (cupsLangGetString : cups_lang_t → string → string).
Context (ippFindAttribute : ipp_t → string → Z → option ipp_attribute_t).

Local Abbreviation word := (job_state_word cups_lang_t cupsLangGetString).
Local Abbreviation subject_of :=
  (cupsLocalizeNotifySubject cups_lang_t ipp_t cupsLangGetString
                             ippFindAttribute).

(** The words a job state is shown as. *)
Definition job_state_words : list string :=
  ["pending"; "held"; "processing"; "stopped"; "canceled"; "aborted";
   "completed"; "unknown"]%string.

Lemma job_state_word_in lang state :
  word lang state ∈ cupsLangGetString lang <$> job_state_words.
Proof.
  unfold job_state_word, job_state_words.
  repeat (match goal with |- context [if ?b then _ else _] => destruct b end;
          [simpl; repeat constructor|]).
  simpl. repeat constructor.
Qed.

(** Which word each state gets, for state values that differ from one
    another as the case labels of a [switch] do. *)
Lemma job_state_word_table lang :
  NoDup [IPP_JSTATE_PENDING; IPP_JSTATE_HELD; IPP_JSTATE_PROCESSING;
         IPP_JSTATE_STOPPED; IPP_JSTATE_CANCELED; IPP_JSTATE_ABORTED;
         IPP_JSTATE_COMPLETED] →
  word lang <$> [IPP_JSTATE_PENDING; IPP_JSTATE_HELD; IPP_JSTATE_PROCESSING;
                 IPP_JSTATE_STOPPED; IPP_JSTATE_CANCELED; IPP_JSTATE_ABORTED;
                 IPP_JSTATE_COMPLETED]
  = cupsLangGetString lang <$> ["pending"; "held"; "processing"; "stopped";
                                "canceled"; "aborted"; "completed"]%string.
Proof.
  intros Hnd. repeat (apply NoDup_cons in Hnd as [? Hnd]).
  unfold job_state_word. simpl.
  repeat match goal with
         | |- context [?x =? ?x] => rewrite (Z.eqb_refl x)
         | |- context [?x =? ?y] =>
           rewrite (proj2 (Z.eqb_neq x y))
             by (intros E;
                 match goal with
                 | Hn : ?a ∉ _ |- _ =>
                   apply Hn; rewrite <-E; repeat constructor
                 end)
         end.
  done.
Qed.

Lemma strdup_ok s w : 0 ≤ a_ret (peek w) → (strdup s w).1 = Some s.
Proof.
  intros Hok. unfold strdup, mbind, M_bind, syscall, next_answer, peek in *.
  destruct (w_script w) as [|a scr]; simpl in *; [done|].
  by rewrite (proj2 (Z.ltb_ge _ _) Hok).
Qed.

Lemma strdup_fails s w : a_ret (peek w) < 0 → (strdup s w).1 = None.
Proof.
  intros Hno. unfold strdup, mbind, M_bind, syscall, next_answer, peek in *.
  destruct (w_script w) as [|a scr]; simpl in *; [lia|].
  by rewrite (proj2 (Z.ltb_lt _ _) Hno).
Qed.

(** C9, as the code has it.  For an event that has the attributes
    notify-job-id, printer-name, notify-printer-uri and job-state: with a
    language handle that is not null, when the copy of the result can be
    allocated, the function returns the first 1023 bytes of
    ["<prefix> <printer>-<jobid> (<name>) <state>"], so all of it when it
    is no longer than that.  The name is that of job-name when the event
    has one and the word for "untitled" otherwise; the state is one of the
    eight words for pending, held, processing, stopped, canceled, aborted,
    completed and unknown.  When the copy cannot be allocated the function
    returns [NULL], and with a null language handle it returns [NULL]
    without doing anything. *)
Theorem job_subject_returned lang event job_id printer_name uri job_state
    job_name w :
  ippFindAttribute event "notify-job-id" IPP_TAG_INTEGER = Some job_id →
  ippFindAttribute event "printer-name" IPP_TAG_NAME = Some printer_name →
  ippFindAttribute event "notify-printer-uri" IPP_TAG_URI = Some uri →
  ippFindAttribute event "job-state" IPP_TAG_ENUM = Some job_state →
  ippFindAttribute event "job-name" IPP_TAG_NAME = job_name →
  let name := match job_name with
              | Some n => text n
              | None => cupsLangGetString lang "untitled"
              end in
  let state := word lang (integer job_state) in
  let subject := job_subject (cupsLangGetString lang "Print Job:")
                             (text printer_name) (integer job_id) name state in
  (0 ≤ a_ret (peek w) →
   (subject_of (Some lang) (Some event) w).1 = Some (str_take 1023 subject) ∧
   ((String.length subject ≤ 1023)%nat →
    (subject_of (Some lang) (Some event) w).1 = Some subject)) ∧
  state ∈ cupsLangGetString lang <$> job_state_words ∧
  (a_ret (peek w) < 0 → (subject_of (Some lang) (Some event) w).1 = None) ∧
  subject_of None (Some event) w = (None, w).
Proof.
  intros Hid Hpn Huri Hst Hjn name state subject.
  assert (subject_of (Some lang) (Some event) w
          = strdup (str_take 1023 subject) w) as E.
  { unfold cupsLocalizeNotifySubject. by rewrite Hid, Hpn, Huri, Hst, Hjn. }
  split; [|split; [apply job_state_word_in|split; [|done]]].
  - intros Hok. rewrite E, (strdup_ok _ _ Hok). split; [done|].
    intros Hlen. by rewrite str_take_all.
  - intros Hno. by rewrite E, (strdup_fails _ _ Hno).
Qed.

End notify_subject.

(** A job event as a CUPS server sends it. *)
Definition job_event (printer job : string) : message :=
  [("notify-subscribed-event", 68, Attribute 0 "job-completed");
   ("notify-printer-uri", 69, Attribute 0 "ipp://localhost/printers/office");
   ("printer-name", 66, Attribute 0 printer);
   ("notify-job-id", 33, Attribute 42 "");
   ("job-name", 66, Attribute 0 job);
   ("job-state", 35, Attribute 9 "")]%string.

Definition subject_in_english : option unit → option message → M (option string) :=
  cupsLocalizeNotifySubject (H := rfc8011) unit message plain_language
                            find_attribute.

Lemma job_subject_returned_witness :
  let event := job_event "office" "report.pdf" in
  let subject := "Print Job: office-42 (report.pdf) completed"%string in
  let run lang script := subject_in_english lang (Some event) (world0 script) in
  (run (Some tt) []).1 = Some (str_take 1023 subject) ∧
  (run (Some tt) []).1 = Some subject ∧
  "completed"%string ∈ plain_language tt <$> job_state_words ∧
  (run (Some tt) [out_of_memory]).1 = None ∧
  run None [] = (None, world0 []).
Proof.
  intros event subject run.
  pose proof (λ w, job_subject_returned (H := rfc8011) unit message
                     plain_language find_attribute tt event
                     (Attribute 42 "") (Attribute 0 "office")
                     (Attribute 0 "ipp://localhost/printers/office")
                     (Attribute 9 "") (Some (Attribute 0 "report.pdf")) w
                     eq_refl eq_refl eq_refl eq_refl eq_refl) as H.
  destruct (H (world0 [])) as (Hok & Hword & _ & Hnull).
  destruct (H (world0 [out_of_memory])) as (_ & _ & Hfail & _).
  destruct Hok as [Hcut Hall]; [simpl; lia|].
  split; [exact Hcut|]. split; [apply Hall; simpl; lia|].
  split; [exact Hword|]. split; [apply Hfail; simpl; lia|exact Hnull].
Defined.

(** A printer name of 1100 bytes. *)
Definition long_name : string :=
  String.string_of_list_ascii (replicate 1100 "p"%char).

(** C9 as stated fails in three ways: with a null language handle the
    function returns [NULL] whatever the event holds; so it does when the
    copy of the result cannot be allocated; and for an event whose text is
    longer than the buffer the result is cut after 1023 bytes and so ends
    inside the printer name, without job id, job name or state. *)
Lemma job_subject_null_or_cut :
  let event := job_event long_name "report.pdf" in
  let short := job_event "office" "report.pdf" in
  (subject_in_english None (Some short) (world0 [])).1 = None ∧
  (subject_in_english (Some tt) (Some short) (world0 [out_of_memory])).1 = None ∧
  (subject_in_english (Some tt) (Some event) (world0 [])).1
  = Some (str_take 1023 ("Print Job: " +:+ long_name)%string) ∧
  (subject_in_english (Some tt) (Some event) (world0 [])).1
  ≠ Some ("Print Job: " +:+ long_name +:+ "-42 (report.pdf) completed")%string.
Proof.
  vm_compute. repeat split; done.
Qed.

(** * The racer: what a whole call keeps *)

Section racer_invariant.

(** A property of every [poll] of a trace: of its descriptors, its timeout
    and its return value. *)
Definition each_poll (P : list Z → Z → Z → Prop) (evs : list event) : Prop :=
  Forall (λ ev, match ev with EvPoll f t r _ => P f t r | _ => True end) evs.

Lemma each_poll_app P e1 e2 :
  each_poll P (e1 ++ e2) ↔ each_poll P e1 ∧ each_poll P e2.
Proof. apply Forall_app. Qed.

Lemma each_poll_none P evs : polls evs = [] → each_poll P evs.
Proof.
  unfold polls. induction evs as [|ev evs IH]; [constructor|].
  destruct ev; simpl; try discriminate; intros H; (constructor; [done|]);
    exact (IH H).
Qed.

Lemma each_poll_mono (P Q : list Z → Z → Z → Prop) evs :
  (∀ f t r, P f t r → Q f t r) → each_poll P evs → each_poll Q evs.
Proof.
  intros H HP. eapply Forall_impl; [exact HP|]. intros [] ?; auto.
Qed.

(** The time a trace asked [poll] to wait, in all. *)
Definition total (l : list Z) : Z := foldr Z.add 0 l.

Lemma total_app l k : total (l ++ k) = total l + total k.
Proof. induction l as [|x l IH]; simpl; lia. Qed.

Lemma steps_same w w1 e e' : steps w w1 e → steps w w1 e' → e = e'.
Proof.
  intros [L _ _] [L' _ _]. apply (app_inv_head (w_log w)). congruence.
Qed.

Lemma post_and {A} (m : M A) w (Q Q' : A → world → Prop) :
  post m w Q → post m w Q' → post m w (λ a w1, Q a w1 ∧ Q' a w1).
Proof. unfold post. auto. Qed.

(** [fd] is the socket on which the call tried to connect to the first
    address of the node [n] of the caller's list [L]. *)
Definition paired (evs : list event) (L : node) (fd : Z) (n : node) : Prop :=
  ∃ a rest r, n = a :: rest ∧ n `suffix_of` L ∧ EvConnect fd a r ∈ evs.

Lemma paired_more evs evs' L fd n :
  paired evs L fd n → paired (evs ++ evs') L fd n.
Proof.
  intros (a & rest & r & -> & Hs & Hin). exists a, rest, r.
  do 2 (split; [done|]). apply elem_of_app. by left.
Qed.

(** What the locals of the main loop satisfy between passes: the arrays
    hold at most 100 entries, [addrs[i]] is the node [fds[i]] was opened
    for, the cursor is in the caller's list, and [*sock] is as the caller
    left it. *)
Record racing (L : node) (s0 : Z) (st : racer) (evs : list event) : Prop := Racing {
  rc_room : (length (fds st) ≤ 100)%nat;
  rc_pairs : Forall2 (paired evs L) (fds st) (addrs st);
  rc_cursor : addrlist st `suffix_of` L;
  rc_sock : sock st = s0;
}.

Lemma racing_more L s0 st evs evs' :
  racing L s0 st evs → racing L s0 st (evs ++ evs').
Proof.
  intros [R P C S]. split; try done.
  eapply Forall2_impl; [exact P|]. intros fd n. apply paired_more.
Qed.

Lemma sys_connect_post fd a w :
  post (sys_connect fd a) w (λ c w1,
    steps w w1 [EvConnect fd a c] ∧ w_open w1 = w_open w).
Proof.
  unfold sys_connect. step syscall_post. intros r w1 (S & O & _).
  by apply post_ret.
Qed.

Ltac in_trace :=
  repeat (apply elem_of_app; first [left; by left | right]).

Lemma try_candidate_racing L s0 st evs0 w :
  racing L s0 st evs0 →
  post (try_candidate st) w (λ f w1,
    ∃ evs, steps w w1 evs ∧
      match f with
      | Continue st' => racing L s0 st' (evs0 ++ evs)
      | Fall st' =>
        racing L s0 st' (evs0 ++ evs) ∧ (fds st' = [] → addrlist st' = [])
      | Return r => paired (evs0 ++ evs) L (r_sock r) (r_ret r)
      end).
Proof.
  intros Hr. pose proof Hr as [Hroom Hpairs Hcur Hsock].
  unfold try_candidate. destruct (addrlist st) as [|a rest] eqn:Ea.
  { apply post_ret. exists []. split; [apply steps_refl|].
    rewrite app_nil_r. by split. }
  destruct (nfds st <? 100) eqn:En; cycle 1.
  { apply post_ret. exists []. split; [apply steps_refl|].
    rewrite app_nil_r. split; [done|]. intros Hf. unfold nfds in En.
    rewrite Hf in En. done. }
  assert (rest `suffix_of` L) as Hrest by (by eapply suffix_cons_l).
  assert (∀ evs, racing L s0 (Racer rest (fds st) (addrs st) (remaining st) (sock st))
                      (evs0 ++ evs)) as Hskip.
  { intros evs. split; simpl; try done.
    eapply Forall2_impl; [exact Hpairs|]. intros fd n. apply paired_more. }
  step sys_socket_post. intros fd w1 (e1 & S1 & Q1 & O1).
  destruct (fd <? 0) eqn:Efd.
  { apply post_ret. trace. apply Hskip. }
  step plain_setsockopt. intros _ w2 (e2 & S2 & Q2 & O2).
  step plain_setsockopt. intros _ w3 (e3 & S3 & Q3 & O3).
  step plain_setsockopt. intros _ w4 (e4 & S4 & Q4 & O4).
  step plain_fcntl. intros _ w5 (e5 & S5 & Q5 & O5).
  step plain_fcntl. intros flags w6 (e6 & S6 & Q6 & O6).
  step plain_fcntl. intros _ w7 (e7 & S7 & Q7 & O7).
  step sys_connect_post. intros c w8 (S8 & O8).
  assert (∀ k, paired (evs0 ++ e1 ++ e2 ++ e3 ++ e4 ++ e5 ++ e6 ++ e7 ++
                       [EvConnect fd a c] ++ k) L fd (a :: rest)) as Hnew.
  { intros k. exists a, rest, c. do 2 (split; [done|]). in_trace. }
  destruct (c =? 0).
  { step plain_fcntl. intros _ w9 (e9 & S9 & Q9 & O9).
    step close_all_post. intros _ w10 (e10 & S10 & Q10 & O10).
    apply post_ret. trace. simpl. apply Hnew. }
  step plain_get_errno. intros e w9 (e9 & S9 & Q9 & O9).
  destruct (negb (e =? EINPROGRESS) && negb (e =? EWOULDBLOCK)).
  { step httpAddrClose_post. intros _ w10 (e10 & S10 & Q10 & O10).
    apply post_ret. trace. apply Hskip. }
  step plain_fcntl. intros _ w10 (e10 & S10 & Q10 & O10).
  apply post_ret. trace. split; [|by destruct (fds st)].
  split; simpl; [| |done|done].
  - rewrite length_app. simpl. unfold nfds in En. lia.
  - apply Forall2_app; [|constructor; [apply (Hnew (e9 ++ e10))|constructor]].
    eapply Forall2_impl; [exact Hpairs|]. intros fd' n. apply paired_more.
Qed.

Lemma map_pollfd_fd (l : list Z) :
  pfd_fd <$> ((λ fd, Pollfd fd (Z.lor POLLIN POLLOUT) 0) <$> l) = l.
Proof. induction l as [|x l IH]; [done|]. rewrite !fmap_cons. simpl. by rewrite IH. Qed.

Lemma each_poll_polls (P : Z → Prop) evs :
  each_poll (λ _ t _, P t) evs → Forall P (polls evs).
Proof.
  unfold polls. induction 1 as [|ev evs Hev _ IH]; [constructor|].
  destruct ev; simpl; try done. by constructor.
Qed.

(** A [poll] the wait loop repeats: it failed with EINTR or EAGAIN. *)
Definition retry (r e : Z) : bool :=
  (r <? 0) && ((e =? EINTR) || (e =? EAGAIN)).

(** The timeouts of the [poll]s that ended a wait, which are those the
    budget is charged for. *)
Definition charged (evs : list event) : list Z :=
  omap (λ ev, match ev with
              | EvPoll _ t r e => if retry r e then None else Some t
              | _ => None
              end) evs.

(** What follows a [poll] that is repeated: the cancel variable is read,
    when the caller gave one, and unless it is set the same descriptors are
    polled with the same timeout. *)
Definition polled_again (f : list Z) (t : Z) (rest : list event) : Prop :=
  match rest with
  | EvPoll f' t' _ _ :: _ => f' = f ∧ t' = t
  | EvCancel v :: rest' =>
    v ≠ 0 ∨ match rest' with
            | EvPoll f' t' _ _ :: _ => f' = f ∧ t' = t
            | _ => False
            end
  | _ => False
  end.

(** Every [poll] of the trace that failed with EINTR or EAGAIN is polled
    again. *)
Fixpoint repeated (evs : list event) : Prop :=
  match evs with
  | [] => True
  | ev :: rest =>
    match ev with
    | EvPoll f t r e => retry r e = true → polled_again f t rest
    | _ => True
    end ∧ repeated rest
  end.

Lemma charged_app e1 e2 : charged (e1 ++ e2) = charged e1 ++ charged e2.
Proof. apply omap_app. Qed.

Lemma charged_none evs : polls evs = [] → charged evs = [].
Proof.
  unfold polls, charged. induction evs as [|ev evs IH]; [done|].
  destruct ev; simpl; try done. all: exact IH.
Qed.

Lemma charged_sub (P : Z → Prop) evs :
  Forall P (polls evs) → Forall P (charged evs).
Proof.
  unfold polls, charged. induction evs as [|ev evs IH]; [done|].
  destruct ev; simpl; try exact IH.
  intros [Ht Hr]%Forall_cons. destruct (retry _ _); [auto|].
  constructor; auto.
Qed.

Lemma charged_all evs :
  each_poll (λ _ _ r, 0 ≤ r) evs → charged evs = polls evs.
Proof.
  unfold polls, charged. induction 1 as [|ev evs Hev _ IH]; [done|].
  destruct ev; simpl; try exact IH.
  unfold retry. rewrite (proj2 (Z.ltb_ge _ _) Hev). simpl. f_equal. exact IH.
Qed.

Lemma polled_again_app f t e1 e2 :
  polled_again f t e1 → polled_again f t (e1 ++ e2).
Proof.
  destruct e1 as [|[] e1]; simpl; try done.
  intros [?|H]; [by left|right]. by destruct e1 as [|[] e1].
Qed.

Lemma repeated_app e1 e2 : repeated e1 → repeated e2 → repeated (e1 ++ e2).
Proof.
  intros H1 H2. induction e1 as [|ev e1 IH]; [done|].
  destruct H1 as [Hev H1]. split; [|by apply IH].
  destruct ev; try done. intros Hr. by apply polled_again_app, Hev.
Qed.

Lemma repeated_none evs : polls evs = [] → repeated evs.
Proof.
  unfold polls. induction evs as [|ev evs IH]; [done|].
  destruct ev; simpl; try done; intros H; split; try done; by apply IH.
Qed.

(** The trace of a read of the cancel variable. *)
Lemma check_cancel_trace cancel w :
  post (check_cancel cancel) w (λ c w1,
    ∃ evs, steps w w1 evs ∧ cancel_seen evs = c ∧ polls evs = [] ∧
      (evs = [] ∨ ∃ v, evs = [EvCancel v] ∧ (v = 0 ↔ c = false))).
Proof.
  unfold check_cancel. destruct cancel.
  - unfold read_cancel. apply post_bind, post_bind.
    eapply post_mono; [apply syscall_post|]. intros a w1 (S & _).
    apply post_ret, post_ret. exists [EvCancel (a_ret a)].
    split; [done|]. unfold cancel_seen; simpl. rewrite orb_false_r.
    do 2 (split; [done|]). right. exists (a_ret a). split; [done|].
    rewrite negb_false_iff. symmetry. apply Z.eqb_eq.
  - apply post_ret. exists []. split; [apply steps_refl|]. by repeat split; auto.
Qed.

(** The trace of a [poll], with the [errno] a failure leaves. *)
Lemma sys_poll_trace pfds t w :
  post (sys_poll pfds t) w (λ r w1,
    ∃ e, steps w w1 [EvPoll (pfd_fd <$> pfds) t r.1 e] ∧
      (r.1 < 0 → w_errno w1 = e)).
Proof.
  unfold post, sys_poll, mbind, M_bind, syscall, next_answer.
  destruct (w_script w) as [|a scr] eqn:Es; simpl.
  - exists 0. split; [by split|lia].
  - exists (a_err a). destruct (a_ret a <? 0) eqn:E; simpl.
    + split; [|done]. split; simpl; [done|done|rewrite Es; simpl; lia].
    + apply Z.ltb_ge in E. split; [|lia].
      split; simpl; [done|done|rewrite Es; simpl; lia].
Qed.

(** The wait loop polls the working set with the slice; at most one of its
    [poll]s is not repeated, and each one that is to be repeated is. *)
Lemma wait_ready_polls n cancel st w :
  post (wait_ready n cancel st) w (λ wt w1,
    ∃ evs, steps w w1 evs ∧
      each_poll (λ f t _, f = fds st ∧ t = slice st) evs ∧
      (length (charged evs) ≤ 1)%nat ∧
      polled_again (fds st) (slice st) evs ∧
      (wt ≠ Interrupted → repeated evs)).
Proof.
  revert w. induction n as [|n IH]; intros w; rewrite wait_ready_eq.
  all: step check_cancel_trace; intros c w1 (e1 & S1 & Hc1 & P1 & Sh1).
  all: destruct c.
  1, 3: step close_all_post; intros _ w2 (e2 & S2 & [Hc2 P2] & O2);
    apply post_ret; trace;
    (split; [apply each_poll_app; split; by apply each_poll_none|]);
    (split; [rewrite charged_app, !charged_none by done; simpl; lia|]);
    (split; [|intros _; apply repeated_none; by rewrite polls_app, P1, P2]);
    destruct Sh1 as [->|(v & -> & Hv)]; [done|]; simpl; left; intros ->;
    by destruct Hv as [Hv _]; specialize (Hv eq_refl).
  all: step sys_poll_trace; intros [r pfds] w2 (ep & S2 & Er2);
    apply post_bind; unfold post at 1, get_errno; simpl;
    rewrite map_pollfd_fd in S2.
  all: assert (e1 = [] ∨ e1 = [EvCancel 0]) as Sh
    by (destruct Sh1 as [->|(v & -> & Hv)]; [by left|right];
        by rewrite (proj2 Hv eq_refl)).
  all: assert (∀ k, polled_again (fds st) (slice st)
                      (e1 ++ [EvPoll (fds st) (slice st) r ep] ++ k)) as Hhead
    by (intros k; destruct Sh as [-> | ->]; simpl; [done|by right]).
  all: assert (each_poll (λ f t _, f = fds st ∧ t = slice st)
                 (e1 ++ [EvPoll (fds st) (slice st) r ep])) as Hpoll
    by (apply each_poll_app; split; [by apply each_poll_none|];
        by repeat constructor).
  all: destruct ((r <? 0) && ((w_errno w2 =? EINTR) || (w_errno w2 =? EAGAIN)))
         eqn:E.
  all: assert (retry r ep = (r <? 0) && ((w_errno w2 =? EINTR) || (w_errno w2 =? EAGAIN)))
         as Hretry
    by (unfold retry; destruct (r <? 0) eqn:Er; [|done];
        apply Z.ltb_lt in Er; by rewrite (Er2 Er)).
  all: rewrite E in Hretry.
  - apply post_ret. exists (e1 ++ [EvPoll (fds st) (slice st) r ep]).
    split; [by eapply steps_trans|]. split; [done|]. split.
    { rewrite charged_app, charged_none by done. simpl. rewrite Hretry. simpl. lia. }
    split; [|done]. specialize (Hhead []). by rewrite app_nil_r in Hhead.
  - apply post_ret. exists (e1 ++ [EvPoll (fds st) (slice st) r ep]).
    split; [by eapply steps_trans|]. split; [done|]. split.
    { rewrite charged_app, charged_none by done. simpl. rewrite Hretry. simpl. lia. }
    split; [specialize (Hhead []); by rewrite app_nil_r in Hhead|].
    intros _. apply repeated_app; [by apply repeated_none|].
    simpl. by rewrite Hretry.
  - eapply post_mono; [apply IH|]. intros wt w4 (e4 & S4 & F4 & C4 & A4 & R4).
    exists (e1 ++ [EvPoll (fds st) (slice st) r ep] ++ e4). split.
    { eapply steps_trans; [exact S1|]. by eapply steps_trans. }
    split.
    { rewrite (assoc_L (++)). by apply each_poll_app. }
    split.
    { rewrite !charged_app, charged_none by done. simpl. by rewrite Hretry. }
    split; [apply Hhead|].
    intros Hwt. apply repeated_app; [by apply repeated_none|].
    simpl. split; [done|by apply R4].
  - apply post_ret. exists (e1 ++ [EvPoll (fds st) (slice st) r ep]).
    split; [by eapply steps_trans|]. split; [done|]. split.
    { rewrite charged_app, charged_none by done. simpl. rewrite Hretry. simpl. lia. }
    split; [specialize (Hhead []); by rewrite app_nil_r in Hhead|].
    intros _. apply repeated_app; [by apply repeated_none|].
    simpl. by rewrite Hretry.
Qed.

Lemma scan_results_racing L evs0 n : ∀ i fds addrs pfds sock w,
  Forall2 (paired evs0 L) fds addrs →
  post (scan_results n i fds addrs pfds sock) w (λ s w1,
    Forall2 (paired evs0 L) (s_fds s) (s_addrs s) ∧
    (length (s_fds s) ≤ length fds)%nat ∧
    match s_connaddr s with
    | [] => s_sock s = sock
    | _ :: _ => paired evs0 L (s_sock s) (s_connaddr s)
    end).
Proof.
  induction n as [|n IH]; intros i fds addrs pfds sock w HF.
  { apply post_ret. by simpl. }
  simpl. destruct (fds !! i) as [fd|] eqn:Hfd; cycle 1.
  { apply post_ret. by simpl. }
  step plain_check_so_error. intros rev w1 _.
  destruct (_ && _).
  { apply post_ret. simpl. split; [done|]. split; [done|].
    destruct (Forall2_lookup_l _ _ _ _ _ HF Hfd) as (nd & Hnd & Hp).
    unfold node in *. rewrite Hnd.
    simpl. pose proof Hp as (a & rest & r & -> & _). done. }
  destruct (has rev _).
  - step httpAddrClose_post. intros _ w2 _.
    eapply post_mono; [apply IH; by apply Forall2_delete|].
    intros s w3 (H1 & H2 & H3). split; [done|]. split; [|done].
    rewrite length_delete in H2 by eauto. lia.
  - by apply IH.
Qed.

Lemma take_results_racing L s0 st evs0 result pfds w :
  racing L s0 st evs0 →
  post (take_results st result pfds) w (λ f w1,
    match f with
    | Fall st' =>
      racing L s0 st' evs0 ∧ addrlist st' = addrlist st ∧
      remaining st' = remaining st
    | Return r => paired evs0 L (r_sock r) (r_ret r)
    | Continue _ => False
    end).
Proof.
  intros [Hroom Hpairs Hcur Hsock]. unfold take_results.
  destruct (result >? 0); [|by apply post_ret].
  step (scan_results_racing L evs0 (length (fds st)) 0 (fds st) (addrs st) pfds
          (sock st) w Hpairs).
  intros s w1 (HF & Hlen & Hc).
  destruct (s_connaddr s) as [|a c] eqn:Ec.
  { apply post_ret. split; [|done]. split; simpl; [lia|done|done|congruence]. }
  step close_each_post. intros _ w2 _.
  step close_each_post. intros _ w3 _.
  by apply post_ret.
Qed.

(** What a pass asks of [poll]: at most one of its [poll]s is charged, and
    each [poll] to be repeated is. *)
Definition pass_polls (evs : list event) : Prop :=
  (length (charged evs) ≤ 1)%nat ∧ repeated evs.

Lemma pass_polls_none evs : polls evs = [] → pass_polls evs.
Proof.
  intros H. split; [|by apply repeated_none].
  rewrite charged_none by done. simpl. lia.
Qed.

Lemma pass_polls_after e1 e2 :
  polls e1 = [] → pass_polls e2 → pass_polls (e1 ++ e2).
Proof.
  intros H [N R]. split.
  - by rewrite charged_app, charged_none.
  - apply repeated_app; [by apply repeated_none|done].
Qed.

Lemma pass_polls_before e1 e2 :
  pass_polls e1 → polls e2 = [] → pass_polls (e1 ++ e2).
Proof.
  intros [N R] H. split.
  - by rewrite charged_app, (charged_none e2), app_nil_r.
  - apply repeated_app; [done|by apply repeated_none].
Qed.

(** What one pass leaves, by the way it ends; [evs] is the trace of the
    pass. *)
Definition pass_ok (L : node) (s0 : Z) (st : racer) (evs0 evs : list event)
    (s : step) (w1 : world) : Prop :=
  match s with
  | Again st' => racing L s0 st' (evs0 ++ evs)
  | Break st' =>
    racing L s0 st' (evs0 ++ evs) ∧ w_errno w1 = EHOSTDOWN ∧
    remaining st' = remaining st
  | Done r =>
    match r_ret r with
    | [] => cancel_seen evs = true
    | _ :: _ => paired (evs0 ++ evs) L (r_sock r) (r_ret r)
    end
  | Stuck => True
  end.

Lemma wait_and_take_racing L s0 cancel st evs0 w :
  racing L s0 st evs0 →
  post (wait_and_take cancel st) w (λ s w1,
    ∃ evs, steps w w1 evs ∧
      each_poll (λ f t _, f = fds st ∧ t = slice st) evs ∧
      pass_polls evs ∧
      (∀ st', s ≠ Break st') ∧
      pass_ok L s0 st evs0 evs s w1).
Proof.
  intros Hr. unfold wait_and_take. apply post_bind. unfold post at 1; simpl.
  apply post_bind. eapply post_mono;
    [apply post_and; [apply wait_ready_post|apply wait_ready_polls]|].
  intros wt w1 [(e1 & S1 & F1 & W1) (e1' & S1' & EP1 & N1 & _ & R1)].
  rewrite <-(steps_same _ _ _ _ S1 S1') in EP1, N1, R1. clear e1' S1'.
  destruct wt as [|result pfds|]; simpl in W1; [| |lia].
  - apply post_ret. trace. split; [done|].
    split; [split; [done|by apply R1]|]. split; [done|].
    simpl. by destruct W1.
  - assert (pass_polls e1) as PP1 by (split; [done|by apply R1]).
    apply post_bind. eapply post_mono;
      [apply post_and; [apply take_results_post|
                        apply (take_results_racing L s0 st evs0 _ _ _ Hr)]|].
    intros f w2 [(e2 & S2 & [Hc2 P2] & _) K2].
    assert (∀ s, each_poll (λ f t _, f = fds st ∧ t = slice st) (e1 ++ e2)
                 ∧ pass_polls (e1 ++ e2)
                 ∧ (∀ st', s ≠ Break st') ∧ pass_ok L s0 st evs0 (e1 ++ e2) s w2
                 ↔ (∀ st', s ≠ Break st') ∧ pass_ok L s0 st evs0 (e1 ++ e2) s w2)
      as Hall.
    { intros s. split; [tauto|]. intros H. split; [|split; [|done]].
      - apply each_poll_app; split; [done|].
        by apply each_poll_none.
      - by apply pass_polls_before. }
    destruct f as [st'|st'|r]; [done| |]; apply post_ret; trace; apply Hall.
    + split; [done|]. simpl. destruct K2 as ([R P C S] & _ & _).
      split; simpl; try done.
      eapply Forall2_impl; [exact P|]. intros fd nd. apply paired_more.
    + split; [done|]. simpl. pose proof K2 as (a & rest & c & E & _).
      rewrite E in *. by apply paired_more.
Qed.

Lemma body_racing L s0 cancel st evs0 w :
  racing L s0 st evs0 →
  post (body cancel st) w (λ s w1,
    ∃ evs, steps w w1 evs ∧
      each_poll (λ f t _, (1 ≤ length f ≤ 100)%nat ∧
                          (t = 100 ∨ t = Z.min 250 (remaining st))) evs ∧
      pass_polls evs ∧
      pass_ok L s0 st evs0 evs s w1).
Proof.
  intros Hr. unfold body.
  step check_cancel_post. intros c w1 (e1 & S1 & Hc1 & P1 & O1 & _).
  destruct c.
  { step close_all_post. intros _ w2 (e2 & S2 & [Hc2 P2] & O2).
    apply post_ret. trace. split.
    { apply each_poll_app; split; by apply each_poll_none. }
    split; [apply pass_polls_none; by rewrite polls_app, P1, P2|].
    simpl. by rewrite cancel_seen_app, Hc1. }
  apply post_bind. eapply post_mono;
    [apply post_and; [apply try_candidate_post|
                      apply (try_candidate_racing L s0 st (evs0 ++ e1))]|].
  { by apply racing_more. }
  intros f w2 [(e2 & S2 & [Hc2 P2] & K2 & _) (e2' & S2' & R2)].
  rewrite <-(steps_same _ _ _ _ S2 S2') in R2. clear e2' S2'.
  rewrite <-(assoc_L (++)) in R2.
  destruct f as [st'|st'|r]; simpl in K2.
  - apply post_ret. trace. split.
    { apply each_poll_app; split; by apply each_poll_none. }
    split; [apply pass_polls_none; by rewrite polls_app, P1, P2|done].
  - destruct R2 as [R2 Hne]. destruct K2 as [Hrem _].
    destruct (fds st') as [|fd0 fl] eqn:Ef.
    { rewrite (Hne eq_refl). apply post_bind. unfold post at 1, put_errno; simpl.
      apply post_ret. exists (e1 ++ e2). split.
      { destruct S1 as [L1 E1 C1], S2 as [L2 E2 C2].
        split; simpl; [|congruence|lia].
        by rewrite L2, L1, <-(assoc_L (++)). }
      split; [apply each_poll_app; split; by apply each_poll_none|].
      split; [apply pass_polls_none; by rewrite polls_app, P1, P2|].
      simpl. done. }
    assert (post (wait_and_take cancel st') w2 (λ s w3,
        ∃ evs, steps w w3 evs ∧
          each_poll (λ f t _, (1 ≤ length f ≤ 100)%nat ∧
                              (t = 100 ∨ t = Z.min 250 (remaining st))) evs ∧
          pass_polls evs ∧
          pass_ok L s0 st evs0 evs s w3)) as Hwait.
    { eapply post_mono; [apply (wait_and_take_racing L s0 cancel st' _ _ R2)|].
      intros s w3 (e3 & S3 & EP3 & N3 & NB & K3). trace. split.
      { apply each_poll_app; split; [by apply each_poll_none|].
        apply each_poll_app; split; [by apply each_poll_none|].
        eapply each_poll_mono; [|exact EP3]. intros f t _ [-> ->]. split.
        - pose proof (rc_room _ _ _ _ R2) as Hroom.
          rewrite Ef in *. simpl in *. lia.
        - rewrite slice_min, Hrem. destruct (addrlist st'); auto. }
      split; [by do 2 (apply pass_polls_after; [done|])|].
      destruct s as [st2|st2|r|]; simpl in *;
        rewrite <-?(assoc_L (++)) in K3; try done.
      - by destruct (NB st2).
      - destruct (r_ret r); [|done].
        rewrite !cancel_seen_app, K3. by rewrite !orb_true_r. }
    by destruct (addrlist st').
  - apply post_ret. trace. split.
    { apply each_poll_app; split; by apply each_poll_none. }
    split; [apply pass_polls_none; by rewrite polls_app, P1, P2|].
    simpl. pose proof R2 as (a & rest & c & E & _). by rewrite E in *.
Qed.

(** Closing descriptors that are open succeeds, and so leaves [errno]
    alone. *)
Lemma close_each_errno l : ∀ w O,
  w_open w ≡ₚ l ++ O → w_errno (close_each l w).2 = w_errno w.
Proof.
  induction l as [|fd l IH]; intros w O HO; [done|].
  unfold close_each. simpl. fold (close_each l).
  unfold mbind, M_bind, httpAddrClose, sys_close.
  destruct (remove_first fd (w_open w)) as [o|] eqn:E.
  - rewrite (IH _ O); [done|]. simpl.
    apply remove_first_Some in E. rewrite E in HO.
    by apply Permutation_cons_inv in HO.
  - destruct (remove_first_elem fd (w_open w)) as [? ?]; [|congruence].
    rewrite HO. left.
Qed.

(** The error a call that gives up leaves behind. *)
Definition report_ok (s0 : Z) (res : result) (w1 : world) : Prop :=
  r_sock res = s0 ∧
  w_last_error w1
  = (IPP_STATUS_ERROR_SERVICE_UNAVAILABLE, Strerror (w_errno w1)) ∧
  (w_errno w1 = ETIMEDOUT ∨ w_errno w1 = EHOSTDOWN).

Lemma give_up_report st w O :
  w_open w ≡ₚ fds st ++ O →
  remaining st ≤ 0 ∨ w_errno w = EHOSTDOWN →
  post (give_up_connecting st) w (λ r w1, report_ok (sock st) r w1).
Proof.
  intros HO He. unfold post, give_up_connecting, mbind, M_bind.
  change (close_all (fds st)) with (close_each (reverse (fds st))).
  destruct (remaining st <=? 0) eqn:Er.
  - unfold put_errno.
    pose proof (close_each_errno (reverse (fds st)) (set_errno ETIMEDOUT w) O)
      as Hc.
    destruct (close_each (reverse (fds st)) (set_errno ETIMEDOUT w)) as [u w2].
    unfold report_ok. simpl in *. rewrite Hc by (by rewrite reverse_Permutation).
    split; [done|]. split; [done|]. by left.
  - pose proof (close_each_errno (reverse (fds st)) w O) as Hc.
    unfold mret, M_ret.
    destruct (close_each (reverse (fds st)) w) as [u w2].
    unfold report_ok. simpl in *. rewrite Hc by (by rewrite reverse_Permutation).
    split; [done|]. split; [done|]. right. destruct He as [He|He]; [lia|done].
Qed.

Lemma connect_loop_racing L s0 cancel fuel : ∀ st w evs0 O,
  racing L s0 st evs0 → w_open w ≡ₚ fds st ++ O →
  post (connect_loop fuel cancel st) w (λ r w1,
    ∃ evs, w_log w1 = w_log w ++ evs ∧
      each_poll (λ f t _, (1 ≤ length f ≤ 100)%nat ∧ 0 < t ≤ 250) evs ∧
      (remaining st ≤ 0 → polls evs = []) ∧
      (repeated evs ∧
       (0 < remaining st → total (charged evs) ≤ remaining st + 99)) ∧
      match r with
      | None => True
      | Some res =>
        match r_ret res with
        | [] => cancel_seen evs = true ∨ report_ok s0 res w1
        | _ :: _ =>
          paired (evs0 ++ evs) L (r_sock res) (r_ret res) ∧
          w_last_error w1 = w_last_error w ∧ cancel_seen evs = false
        end
      end).
Proof.
  induction fuel as [|fuel IH]; intros st w evs0 O Hr HO;
    rewrite connect_loop_eq; destruct (remaining st >? 0) eqn:Er.
  2, 4: apply post_fmap; (eapply post_mono;
    [apply post_and; [apply give_up_connecting_post|
                      apply (give_up_report st w O HO); left; lia]|]);
    intros r w1 [(evs & L1 & [C P] & R & _) Hrep];
    exists evs; (split; [done|]); (split; [by apply each_poll_none|]);
    (split; [done|]); (split; [split; [by apply repeated_none|lia]|]);
    rewrite R; right; by rewrite <-(rc_sock _ _ _ _ Hr).
  { apply post_ret. exists []. rewrite app_nil_r. split; [done|].
    split; [constructor|]. split; [lia|]. split; [split; [done|simpl; lia]|done]. }
  apply post_bind. eapply post_mono;
    [apply post_and; [apply body_post|apply (body_racing L s0 cancel st evs0 w Hr)]|].
  intros s w1 [(e1 & S1 & K1 & O1) (e1' & S1' & EP1 & [N1 Q1] & R1)].
  rewrite <-(steps_same _ _ _ _ S1 S1') in EP1, N1, Q1, R1. clear e1' S1'.
  specialize (O1 O HO).
  assert (each_poll (λ f t _, (1 ≤ length f ≤ 100)%nat ∧ 0 < t ≤ 250) e1) as EP1'.
  { eapply each_poll_mono; [|exact EP1]. intros f t _ [? [->| ->]]; split; try done; lia. }
  assert (total (charged e1) ≤ remaining st + 99) as T1.
  { assert (Forall (λ t, t = 100 ∨ t = Z.min 250 (remaining st)) (charged e1)) as HF.
    { apply charged_sub, each_poll_polls. eapply each_poll_mono; [|exact EP1].
      by intros f t _ [_ ?]. }
    destruct (charged e1) as [|t [|? ?]]; simpl in *; [lia| |lia].
    apply Forall_cons in HF as [[->| ->] _]; lia. }
  destruct s as [st'|st'|r|]; simpl in K1, R1, O1; [| | |done].
  - eapply post_mono; [apply (IH st' w1 (evs0 ++ e1) O R1 O1)|].
    intros r w2 (e2 & L2 & EP2 & Q2 & [RP2 T2] & K2).
    exists (e1 ++ e2). split.
    { by rewrite L2, (steps_log _ _ _ S1), (assoc_L (++)). }
    split; [by apply each_poll_app|]. split; [lia|]. split.
    + split; [by apply repeated_app|]. intros _.
      rewrite charged_app, total_app.
      destruct K1 as [Hc1 [(P1 & Rm & _)|(P1 & F1 & Rm & _)]].
      * rewrite (charged_none e1 P1). simpl.
        destruct (Z.le_gt_cases (remaining st') 0) as [Hle|Hgt].
        -- rewrite (charged_none e2 (Q2 Hle)). simpl. lia.
        -- specialize (T2 Hgt). lia.
      * apply charged_sub in F1.
        destruct (charged e1) as [|t [|? ?]]; [| |simpl in N1; lia].
        -- simpl. unfold budget_step in *.
           destruct (Z.le_gt_cases (remaining st') 0) as [Hle|Hgt].
           ++ rewrite (charged_none e2 (Q2 Hle)). simpl. lia.
           ++ specialize (T2 Hgt). destruct (addrlist st'); lia.
        -- apply Forall_cons in F1 as [-> _]. simpl.
           unfold wait_slice, budget_step in *.
           destruct (Z.le_gt_cases (remaining st') 0) as [Hle|Hgt].
           ++ rewrite (charged_none e2 (Q2 Hle)). simpl.
              destruct (addrlist st'); lia.
           ++ specialize (T2 Hgt). destruct (addrlist st'); lia.
    + destruct r as [res|]; [|done]. rewrite <-(assoc_L (++)) in K2.
      destruct (r_ret res).
      * destruct K2 as [K2|K2]; [left|by right].
        by rewrite cancel_seen_app, K2, orb_true_r.
      * destruct K2 as (K2 & E2 & Hc2). split; [done|].
        split; [rewrite E2; apply S1|].
        rewrite cancel_seen_app, Hc2. by destruct K1 as [-> _].
  - destruct R1 as (R1 & Herr & Hrem). destruct K1 as [Hc1 Hf1].
    apply post_fmap. eapply post_mono;
      [apply post_and; [apply give_up_connecting_post|
                        apply (give_up_report st' w1 O O1); by right]|].
    intros r w2 [(e2 & L2 & [Hc2 P2] & R2 & _) Hrep].
    exists (e1 ++ e2). split.
    { by rewrite L2, (steps_log _ _ _ S1), (assoc_L (++)). }
    split; [apply each_poll_app; split; [done|by apply each_poll_none]|].
    split; [lia|]. split.
    + split; [apply repeated_app; [done|by apply repeated_none]|]. intros _.
      by rewrite charged_app, (charged_none e2 P2), app_nil_r.
    + rewrite R2. right. by rewrite <-(rc_sock _ _ _ _ R1).
  - apply post_ret. exists e1. split; [apply S1|]. split; [done|].
    split; [lia|]. split; [done|].
    destruct (r_ret r) as [|a rest]; [by left|].
    split; [done|]. split; [apply S1|].
    destruct (cancel_seen e1); [|done]. by specialize (K1 eq_refl).
Qed.

(** The whole call, for a caller that passes a [sock]. *)
Lemma httpAddrConnect_racing fuel addrlist s0 msec cancel w :
  post (httpAddrConnect fuel addrlist (Some s0) msec cancel) w (λ r w1,
    ∃ evs, w_log w1 = w_log w ++ evs ∧
      each_poll (λ f t _, (1 ≤ length f ≤ 100)%nat ∧ 0 < t ≤ 250) evs ∧
      (repeated evs ∧
       total (charged evs) ≤ (if msec <=? 0 then INT_MAX else msec) + 99) ∧
      match r with
      | None => True
      | Some ([], s) =>
        cancel_seen evs = false → ∃ res, s = Some (r_sock res) ∧ report_ok s0 res w1
      | Some (a :: rest, s) =>
        ∃ fd c, s = Some fd ∧ a :: rest `suffix_of` addrlist ∧
          EvConnect fd a c ∈ evs ∧ w_last_error w1 = w_last_error w ∧
          cancel_seen evs = false
      end).
Proof.
  unfold httpAddrConnect.
  step check_cancel_post. intros c w1 (e1 & S1 & Hc1 & P1 & O1 & _).
  assert (0 < (if msec <=? 0 then INT_MAX else msec)) as Hpos.
  { destruct (msec <=? 0) eqn:E; [done|lia]. }
  destruct c.
  { apply post_ret. exists e1. split; [apply S1|].
    split; [by apply each_poll_none|].
    split; [split; [by apply repeated_none|]; rewrite charged_none by done;
            simpl; lia|].
    intros ?. congruence. }
  set (st := Racer addrlist [] [] (if msec <=? 0 then INT_MAX else msec) s0).
  assert (racing addrlist s0 st []) as Hr by (by split; simpl; [lia|constructor| |]).
  step (connect_loop_racing addrlist s0 cancel fuel st w1 [] (w_open w1) Hr
          (reflexivity _)).
  intros r w2 (e2 & L2 & EP2 & Q2 & [RP2 T2] & K2).
  apply post_ret. exists (e1 ++ e2). split.
  { by rewrite L2, (steps_log _ _ _ S1), (assoc_L (++)). }
  split; [apply each_poll_app; split; [by apply each_poll_none|done]|].
  split.
  { split; [apply repeated_app; [by apply repeated_none|done]|].
    rewrite charged_app, (charged_none e1 P1). simpl. by apply T2. }
  destruct r as [res|]; [|done]. simpl.
  rewrite cancel_seen_app, Hc1. simpl.
  destruct (r_ret res) as [|a rest] eqn:Eret.
  - intros Hc. destruct K2 as [K2|K2]; [congruence|]. by exists res.
  - destruct K2 as ((a' & rest' & c & E & Hs & Hin) & Hle & Hc2).
    injection E as <- <-. exists (r_sock res), c. split; [done|].
    split; [done|]. split; [apply elem_of_app; by right|].
    split; [|done]. rewrite Hle. apply S1.
Qed.

End racer_invariant.

(** A failed call, run on one candidate that never answers within 300 ms. *)
Definition silent_peer : world := world0 (opening 3 in_progress).

(** X1.  The errors of [httpAddrConnect]: a call that returns [NULL] was
    given no [sock] (it then made no call into the system, set [errno] to
    [EINVAL] and recorded the Internal status with that error's text), or
    read its cancel variable as set (it then left the last-error slot alone),
    or gave up: it then left the caller's [*sock] as it was and recorded the
    status Service Unavailable with the text of [errno], which is
    [ETIMEDOUT] or [EHOSTDOWN]. *)
Theorem connect_failure_reported fuel addrlist sock msec cancel w s evs :
  let r := httpAddrConnect fuel addrlist sock msec cancel w in
  r.1 = Some ([], s) → w_log r.2 = w_log w ++ evs →
  match sock with
  | None =>
    s = None ∧ evs = [] ∧ w_errno r.2 = EINVAL ∧
    w_last_error r.2 = (IPP_STATUS_ERROR_INTERNAL, Strerror EINVAL)
  | Some s0 =>
    if cancel_seen evs then w_last_error r.2 = w_last_error w
    else
      s = Some s0 ∧
      w_last_error r.2
      = (IPP_STATUS_ERROR_SERVICE_UNAVAILABLE, Strerror (w_errno r.2)) ∧
      (w_errno r.2 = ETIMEDOUT ∨ w_errno r.2 = EHOSTDOWN)
  end.
Proof.
  destruct sock as [s0|]; cbv zeta.
  - pose proof (httpAddrConnect_racing fuel addrlist s0 msec cancel w) as H.
    pose proof (httpAddrConnect_post fuel addrlist (Some s0) msec cancel w) as H'.
    unfold post in *.
    destruct (httpAddrConnect fuel addrlist (Some s0) msec cancel w) as [r w1].
    simpl in *. intros -> L.
    destruct H as (e1 & L1 & _ & _ & H), H' as (e2 & L2 & H' & _).
    assert (e1 = evs) as -> by (apply (app_inv_head (w_log w)); congruence).
    assert (e2 = evs) as -> by (apply (app_inv_head (w_log w)); congruence).
    destruct (cancel_seen evs).
    + by destruct (H' eq_refl) as (_ & _ & ?).
    + destruct (H eq_refl) as (res & -> & <- & ? & ?). done.
  - simpl. intros [= <-] L. split; [done|]. split; [|done].
    apply (app_inv_head (w_log w)). by rewrite app_nil_r.
Qed.

Lemma connect_failure_reported_witness :
  let r := httpAddrConnect 400 [printer4] (Some 7) 300 false silent_peer in
  Some 7 = Some 7 ∧
  w_last_error r.2
  = (IPP_STATUS_ERROR_SERVICE_UNAVAILABLE, Strerror (w_errno r.2)) ∧
  (w_errno r.2 = ETIMEDOUT ∨ w_errno r.2 = EHOSTDOWN).
Proof.
  intros r.
  apply (connect_failure_reported 400 [printer4] (Some 7) 300 false silent_peer
           (Some 7) (w_log r.2)); reflexivity.
Defined.

(** The run of the claims in which the second of two candidates connects. *)
Definition second_answers : world :=
  world0 ([ok; ok] ++ opening 3 in_progress ++
          [ok; Answer 0 0 []; ok] ++ opening 4 in_progress ++
          [ok; Answer 1 0 [0; 4]]).

(** X2.  What a successful call hands back: the returned node is a node of
    the caller's list (a suffix of it), [*sock] is a socket on which this
    call called [connect] with that node's address, no cancel was seen and
    the last-error slot is as it was. *)
Theorem connect_returns_listed_node fuel addrlist sock msec cancel w a rest s evs :
  let r := httpAddrConnect fuel addrlist sock msec cancel w in
  r.1 = Some (a :: rest, s) → w_log r.2 = w_log w ++ evs →
  ∃ fd c, s = Some fd ∧ a :: rest `suffix_of` addrlist ∧
    EvConnect fd a c ∈ evs ∧ cancel_seen evs = false ∧
    w_last_error r.2 = w_last_error w.
Proof.
  destruct sock as [s0|]; cbv zeta; [|done].
  pose proof (httpAddrConnect_racing fuel addrlist s0 msec cancel w) as H.
  unfold post in *.
  destruct (httpAddrConnect fuel addrlist (Some s0) msec cancel w) as [r w1].
  simpl in *. intros -> L.
  destruct H as (e1 & L1 & _ & _ & fd & c & -> & Hs & Hin & Hle & Hc).
  assert (e1 = evs) as -> by (apply (app_inv_head (w_log w)); congruence).
  by exists fd, c.
Qed.

Lemma connect_returns_listed_node_witness :
  let r := httpAddrConnect 400 [printer6; printer4] (Some (-1)) 300 true
             second_answers in
  ∃ fd c, Some 4 = Some fd ∧ [printer4] `suffix_of` [printer6; printer4] ∧
    EvConnect fd printer4 c ∈ w_log r.2 ∧ cancel_seen (w_log r.2) = false ∧
    w_last_error r.2 = w_last_error second_answers.
Proof.
  intros r.
  apply (connect_returns_listed_node 400 [printer6; printer4] (Some (-1)) 300
           true second_answers printer4 [] (Some 4) (w_log r.2)); reflexivity.
Defined.

(** X3.  Every [poll] of a call is given between 1 and 100 descriptors
    (the arrays of 100 entries are never overrun) and a timeout between 1
    and 250 ms: the call never polls without a time limit. *)
Theorem polls_are_bounded fuel addrlist sock msec cancel w evs :
  w_log (httpAddrConnect fuel addrlist sock msec cancel w).2 = w_log w ++ evs →
  each_poll (λ f t _, (1 ≤ length f ≤ 100)%nat ∧ 0 < t ≤ 250) evs.
Proof.
  destruct sock as [s0|]; cbv zeta.
  - pose proof (httpAddrConnect_racing fuel addrlist s0 msec cancel w) as H.
    unfold post in *.
    destruct (httpAddrConnect fuel addrlist (Some s0) msec cancel w) as [r w1].
    simpl in *. intros L. destruct H as (e1 & L1 & H & _).
    assert (e1 = evs) as -> by (apply (app_inv_head (w_log w)); congruence).
    done.
  - simpl. intros L. assert (evs = []) as ->; [|constructor].
    apply (app_inv_head (w_log w)). by rewrite app_nil_r.
Qed.

Lemma polls_are_bounded_witness :
  each_poll (λ f t _, (1 ≤ length f ≤ 100)%nat ∧ 0 < t ≤ 250)
    (w_log (httpAddrConnect 400 [printer4] (Some 7) 300 false silent_peer).2).
Proof.
  apply (polls_are_bounded 400 [printer4] (Some 7) 300 false silent_peer).
  reflexivity.
Defined.


(** A call that is interrupted twice while it waits for one candidate that
    never answers within 300 ms. *)
Definition interrupted_wait : world :=
  world0 (opening 3 in_progress ++
          [Answer (-1) EINTR []; Answer (-1) EAGAIN []]).


(** The failed run polls for 250 ms and then for the 50 ms left, closes the
    socket and reports the timeout; in the interrupted run the first [poll]
    is made three times with the same timeout, and only the last of the
    three is charged. *)
Example silent_peer_run :
  let r := httpAddrConnect 400 [printer4] (Some 7) 300 false silent_peer in
  let again := httpAddrConnect 400 [printer4] (Some 7) 300 false
                 interrupted_wait in
  r.1 = Some ([], Some 7) ∧ polls (w_log r.2) = [250; 50] ∧
  w_errno r.2 = ETIMEDOUT ∧ w_open r.2 = [0; 1; 2] ∧
  polls (w_log again.2) = [250; 250; 250; 50] ∧
  charged (w_log again.2) = [250; 50] ∧
  total (polls (w_log again.2)) = 800.
Proof. by vm_compute. Qed.

(** * The racer: the scan of the [poll] results *)

Section racer_scan.

Lemma has_lor x a b : has x (Z.lor a b) = has x a || has x b.
Proof.
  unfold has. rewrite Z.land_lor_distr_r, <-negb_andb. f_equal.
  apply eq_true_iff_eq. rewrite andb_true_iff, !Z.eqb_eq.
  apply Z.lor_eq_0_iff.
Qed.

Lemma has_set x m : m ≠ 0 → has (Z.lor x m) m = true.
Proof.
  intros Hm. apply has_true. rewrite Z.land_lor_distr_l, Z.land_diag.
  rewrite Z.lor_eq_0_iff. tauto.
Qed.

Lemma has_zero m : has 0 m = false.
Proof. done. Qed.

(** The SO_ERROR check never takes POLLERR away. *)
Lemma check_so_error_err fd rev w :
  has rev POLLERR = true → has (check_so_error fd rev w).1 POLLERR = true.
Proof.
  intros He. unfold check_so_error, mbind, M_bind, get_errno. cbv beta.
  destruct (_ || _); [|done].
  destruct (sys_getsockopt_error fd w) as [[sres serr] w1].
  destruct (_ || _); [by apply has_set|].
  destruct (_ && _); [|done]. simpl. by rewrite has_keep.
Qed.

Lemma take_delete {A} (l : list A) i : take i (delete i l) = take i l.
Proof.
  revert i. induction l as [|x l IH]; intros [|i]; simpl; try done.
  by rewrite IH.
Qed.

Lemma scan_results_cascade n : ∀ i fds addrs pfds sock w,
  has (revents_at pfds i) POLLERR = true → (length fds ≤ i + n)%nat →
  post (scan_results n i fds addrs pfds sock) w (λ s w1,
    s_connaddr s = [] ∧ s_fds s = take i fds ∧ s_sock s = sock ∧
    ∀ O, w_open w ≡ₚ fds ++ O → w_open w1 ≡ₚ take i fds ++ O).
Proof.
  induction n as [|n IH]; intros i fds addrs pfds sock w He Hn.
  { apply post_ret. simpl. rewrite take_ge by lia. done. }
  rewrite scan_results_eq. destruct (fds !! i) as [fd|] eqn:Hfd; cycle 1.
  { apply post_ret. simpl. apply lookup_ge_None in Hfd.
    rewrite take_ge by lia. done. }
  apply post_bind. eapply post_mono;
    [apply post_and; [apply plain_check_so_error|
       exact (check_so_error_err fd _ w He
              : post (check_so_error fd (revents_at pfds i)) w
                     (λ rev _, has rev POLLERR = true))]|].
  intros rev w1 [(e1 & S1 & Q1 & O1) Hrev]. cbv zeta.
  assert (has rev (Z.lor POLLERR POLLHUP) = true) as ->
    by (by rewrite has_lor, Hrev).
  rewrite andb_false_r.
  step httpAddrClose_post. intros _ w2 (e2 & S2 & Q2 & O2).
  eapply post_mono; [apply IH|].
  - unfold revents_at. rewrite list_lookup_alter, decide_True by done.
    unfold revents_at in He. destruct (pfds !! i) as [p|]; [done|].
    by vm_compute in He.
  - rewrite length_delete by eauto. apply lookup_lt_Some in Hfd. lia.
  - intros s w3 (H1 & H2 & H3 & H4). rewrite take_delete in H2, H4.
    do 3 (split; [done|]). intros O HO. apply H4, O2.
    rewrite O1, HO. by rewrite (delete_Permutation fds i fd) at 1.
Qed.

(** A scan that meets only idle entries moves on. *)
Lemma check_so_error_idle fd w : check_so_error fd 0 w = (0, w).
Proof.
  unfold check_so_error, mbind, M_bind, get_errno. cbv beta.
  rewrite !has_zero. by rewrite !andb_false_r.
Qed.

Lemma alter_idle pfds k :
  revents_at pfds k = 0 → alter (set_revents 0) k pfds = pfds.
Proof.
  intros H. apply list_eq. intros j. rewrite list_lookup_alter.
  case_decide as E; [|done]. subst j. unfold revents_at in H.
  destruct (pfds !! k) as [[fd ev rev]|]; [|done]. simpl in *. by subst rev.
Qed.

Lemma scan_results_skip d : ∀ n j fds addrs pfds sock w,
  (∀ k, (j ≤ k < j + d)%nat → revents_at pfds k = 0) →
  (j + d < length fds)%nat →
  scan_results (d + n) j fds addrs pfds sock w
  = scan_results n (j + d) fds addrs pfds sock w.
Proof.
  induction d as [|d IH]; intros n j fds addrs pfds sock w Hz Hl.
  { by rewrite Nat.add_0_r. }
  change (S d + n)%nat with (S (d + n)). rewrite scan_results_eq.
  destruct (lookup_lt_is_Some_2 fds j ltac:(lia)) as [fd Hfd]. rewrite Hfd.
  unfold mbind, M_bind. rewrite (Hz j) by lia. rewrite check_so_error_idle.
  cbv zeta. rewrite alter_idle by (apply Hz; lia). simpl.
  rewrite IH; [f_equal; lia| |lia]. intros k Hk. apply Hz. lia.
Qed.

End racer_scan.

(** X5.  A scan that reads POLLERR at the index it is at closes the socket
    at that index and every socket after it, whatever [poll] reported for
    those, and takes none as connected: the entries of [pfds] stay where
    they are when a socket is taken out of [fds], so each later socket is
    judged by the bits of the removed one. *)
Theorem error_closes_later_sockets n i fds addrs pfds sock w O :
  has (revents_at pfds i) POLLERR = true → (length fds ≤ i + n)%nat →
  w_open w ≡ₚ fds ++ O →
  let r := scan_results n i fds addrs pfds sock w in
  s_connaddr r.1 = [] ∧ s_fds r.1 = take i fds ∧ s_sock r.1 = sock ∧
  w_open r.2 ≡ₚ take i fds ++ O.
Proof.
  intros He Hn HO.
  destruct (scan_results_cascade n i fds addrs pfds sock w He Hn)
    as (H1 & H2 & H3 & H4).
  auto.
Qed.

Lemma error_closes_later_sockets_witness :
  let w := set_open [5; 4; 3; 0; 1; 2] (world0 []) in
  let r := scan_results 3 0 [3; 4; 5] [[printer4]; [printer6]; [printer4]]
             [Pollfd 3 5 POLLERR; Pollfd 4 5 0; Pollfd 5 5 POLLOUT] (-1) w in
  s_connaddr r.1 = [] ∧ s_fds r.1 = take 0 [3; 4; 5] ∧ s_sock r.1 = -1 ∧
  w_open r.2 ≡ₚ take 0 [3; 4; 5] ++ [0; 1; 2].
Proof.
  intros w.
  apply (error_closes_later_sockets 3 0 [3; 4; 5]
           [[printer4]; [printer6]; [printer4]]
           [Pollfd 3 5 POLLERR; Pollfd 4 5 0; Pollfd 5 5 POLLOUT] (-1) w
           [0; 1; 2]); [reflexivity|simpl; lia|].
  simpl. change [5; 4; 3; 0; 1; 2] with (reverse [3; 4; 5] ++ [0; 1; 2]).
  by rewrite reverse_Permutation.
Defined.

(** X6.  How a connection is detected: when [poll] reports something, the
    entries before index [i] are idle, and the entry at [i] is ready with
    neither POLLERR nor POLLHUP (and not both readable and writable, so that
    SO_ERROR is not asked for), the socket at [i] is the connected one: its
    node is returned, [*sock] is set to it, and every other socket of the
    working set is closed. *)
Theorem first_ready_socket_wins st result pfds w i fd nd O :
  0 < result →
  fds st !! i = Some fd → addrs st !! i = Some nd → nd ≠ [] →
  (∀ k, (k < i)%nat → revents_at pfds k = 0) →
  revents_at pfds i ≠ 0 →
  has (revents_at pfds i) (Z.lor POLLERR POLLHUP) = false →
  has (revents_at pfds i) POLLIN && has (revents_at pfds i) POLLOUT = false →
  w_open w ≡ₚ fds st ++ O →
  ∃ w1, take_results st result pfds w = (Return (Result nd fd), w1) ∧
    w_open w1 ≡ₚ fd :: O.
Proof.
  intros Hres Hfd Hnd Hne Hidle Hrev Herr Hio HO.
  pose proof (take_results_post st result pfds w) as Hpost. unfold post in Hpost.
  destruct (take_results st result pfds w) as [f w1] eqn:E.
  assert (f = Return (Result nd fd)) as ->.
  { apply (f_equal fst) in E. simpl in E. rewrite <-E. clear E Hpost.
    unfold take_results. rewrite (proj2 (Z.gtb_lt _ _) Hres).
    apply lookup_lt_Some in Hfd as Hlt.
    replace (length (fds st)) with (i + S (length (fds st) - S i))%nat by lia.
    unfold mbind at 1, M_bind at 1.
    rewrite (scan_results_skip i _ 0); [|intros k Hk; apply Hidle; lia|simpl; lia].
    simpl (0 + i)%nat. rewrite scan_results_eq, Hfd.
    assert (check_so_error fd (revents_at pfds i) w = (revents_at pfds i, w)) as Hc.
    { unfold check_so_error, mbind, M_bind, get_errno. cbv beta.
      rewrite has_lor in Herr. apply orb_false_iff in Herr as [_ ->].
      rewrite <-andb_assoc, Hio, andb_false_r. done. }
    unfold mbind at 1, M_bind at 1. rewrite Hc. cbv zeta.
    rewrite Herr, (proj2 (Z.eqb_neq _ _) Hrev). simpl.
    unfold node in *. rewrite Hnd. simpl.
    destruct nd as [|a rest]; [done|]. unfold mbind, M_bind.
    by do 2 destruct (close_each _ _). }
  exists w1. split; [done|]. simpl in Hpost.
  destruct Hpost as (evs & _ & _ & _ & _ & _ & Hopen). by apply Hopen.
Qed.

Lemma first_ready_socket_wins_witness :
  let st := Racer [] [3; 4; 5] [[printer6; printer4]; [printer4]; [printer6]]
              250 (-1) in
  let w := set_open [5; 4; 3; 0; 1; 2] (world0 []) in
  ∃ w1,
    take_results st 1 [Pollfd 3 5 0; Pollfd 4 5 POLLOUT; Pollfd 5 5 POLLOUT] w
    = (Return (Result [printer4] 4), w1) ∧
    w_open w1 ≡ₚ 4 :: [0; 1; 2].
Proof.
  intros st w.
  apply (first_ready_socket_wins st 1
           [Pollfd 3 5 0; Pollfd 4 5 POLLOUT; Pollfd 5 5 POLLOUT] w 1%nat 4
           [printer4] [0; 1; 2]); try reflexivity; try done.
  - intros [|k] Hk; [reflexivity|lia].
  - simpl. change [5; 4; 3; 0; 1; 2] with (reverse [3; 4; 5] ++ [0; 1; 2]).
    by rewrite reverse_Permutation.
Defined.

(** X7.  The empty list: without a cancel variable, a call on an empty
    list (a [NULL] [addrlist]) fails at once, whatever the timeout: it makes
    no call into the system, sets [errno] to [EHOSTDOWN], records the status
    Service Unavailable with that error's text and leaves [*sock] alone. *)
Theorem empty_list_fails_at_once fuel s0 msec w :
  httpAddrConnect (S fuel) [] (Some s0) msec false w
  = (Some ([], Some s0),
     set_last_error (IPP_STATUS_ERROR_SERVICE_UNAVAILABLE, Strerror EHOSTDOWN)
                    (set_errno EHOSTDOWN w)).
Proof.
  unfold httpAddrConnect, check_cancel.
  assert (0 < (if msec <=? 0 then INT_MAX else msec)) as Hpos.
  { destruct (msec <=? 0) eqn:E; [done|lia]. }
  generalize dependent (if msec <=? 0 then INT_MAX else msec). intros R Hpos.
  unfold mbind, M_bind. simpl.
  rewrite (proj2 (Z.gtb_lt _ _) Hpos). unfold mbind, M_bind. simpl.
  unfold give_up_connecting, fmap, M_fmap, mbind, M_bind. simpl.
  by rewrite (proj2 (Z.leb_gt _ _) Hpos).
Qed.

(** * Address lists: freeing, and copies that outlive their source *)

Section lists_freed.

Lemma free_loop_trace nodes : ∀ fuel p w,
  is_list (w_heap w) p nodes → (length nodes ≤ fuel)%nat →
  w_log (free_loop fuel p w).2 = w_log w ++ (EvFree <$> nodes.*1).
Proof.
  induction nodes as [|[l a] rest IH]; intros fuel p w H Hf.
  { red in H; simpl in H; subst p. destruct fuel; simpl; by rewrite app_nil_r. }
  pose proof (is_list_head_fresh _ _ _ _ (eq_ind _ (λ p, is_list _ p _) H _
                (proj1 H))) as Hfresh.
  destruct H as (-> & nx & Hl & Hr). destruct fuel as [|fuel]; [simpl in Hf; lia|].
  simpl. unfold mbind, M_bind.
  rewrite (get_next_eq _ _ _ Hl), free_eq by eauto. simpl.
  rewrite IH; simpl.
  - by rewrite <-(assoc_L (++)).
  - eapply lseg_frame; [|exact Hr].
    intros l' Hin. apply lookup_delete_ne. by intros ->.
  - simpl in Hf. lia.
Qed.

End lists_freed.

(** X8.  [httpAddrFreeList] on a list in memory returns after freeing each
    node of the list once, in list order: the blocks of the list are no
    longer live, every other block is as it was, and no invalid pointer was
    used.  Freeing [NULL] does nothing. *)
Theorem free_list_releases_nodes fuel p nodes w :
  is_list (w_heap w) p nodes → (length nodes ≤ fuel)%nat →
  ∃ w1, httpAddrFreeList fuel p w = (Some tt, w1) ∧
    w_log w1 = w_log w ++ (EvFree <$> nodes.*1) ∧
    (∀ l, w_heap w1 !! l
          = if decide (l ∈ nodes.*1) then None else w_heap w !! l) ∧
    w_fault w1 = w_fault w ∧ w_last_error w1 = w_last_error w ∧
    (p = None → w1 = w).
Proof.
  intros H Hf. unfold httpAddrFreeList.
  pose proof (free_loop_trace nodes fuel p w H Hf) as Hlog.
  destruct (free_loop_spec nodes fuel p w H Hf) as (w1 & E & Hh & Hfa & Hle & _).
  rewrite E in Hlog. exists w1. do 5 (split; [done|]).
  intros ->. destruct fuel; simpl in E; unfold mret, M_ret in E; congruence.
Qed.

Lemma free_list_releases_nodes_witness :
  ∃ w1, httpAddrFreeList 2 (Some 1%positive) (world_with two_nodes [])
        = (Some tt, w1) ∧
    w_log w1 = w_log (world_with two_nodes [])
               ++ (EvFree <$> [(1%positive, printer6); (2%positive, printer4)].*1) ∧
    (∀ l, w_heap w1 !! l
          = if decide (l ∈ [(1%positive, printer6); (2%positive, printer4)].*1)
            then None else w_heap (world_with two_nodes []) !! l) ∧
    w_fault w1 = w_fault (world_with two_nodes []) ∧
    w_last_error w1 = w_last_error (world_with two_nodes []) ∧
    (Some 1%positive = None → w1 = world_with two_nodes []).
Proof.
  apply (free_list_releases_nodes 2 (Some 1%positive)
           [(1%positive, printer6); (2%positive, printer4)]
           (world_with two_nodes [])).
  - red. simpl. split; [done|]. exists (Some 2%positive). split; [done|].
    split; [done|]. by exists None.
  - simpl. lia.
Defined.

(** X9.  A copy outlives its source: after [httpAddrCopyList] succeeds,
    freeing the source leaves the copy a list with the source's addresses
    in their order; freeing the copy afterwards frees no block twice and
    uses no freed block, and leaves the heap the call started with, less
    the source. *)
Theorem copy_outlives_source fuel src nodes w :
  is_list (w_heap w) src nodes → (length nodes ≤ fuel)%nat →
  Forall (λ a, 0 ≤ a_ret a) (take (length nodes) (w_script w)) →
  ∃ dst copy w1 w2 w3,
    httpAddrCopyList fuel src w = (Some dst, w1) ∧
    httpAddrFreeList fuel src w1 = (Some tt, w2) ∧
    is_list (w_heap w2) dst copy ∧ copy.*2 = nodes.*2 ∧
    httpAddrFreeList fuel dst w2 = (Some tt, w3) ∧
    w_fault w3 = w_fault w ∧
    ∀ l, w_heap w3 !! l = if decide (l ∈ nodes.*1) then None else w_heap w !! l.
Proof.
  intros Hsrc Hf Hok.
  destruct (copy_loop_all nodes fuel fuel w src None None [] (w_heap w))
    as (dst & copy & w1 & E & Hcp & Hnew & Hfa & Hle); try done.
  { apply copying_start. }
  { eapply Forall_impl; [exact Hok|]. intros a Ha. by apply Z.ltb_ge. }
  simpl in Hcp. destruct Hcp as [Hb _ Hfr Hfm].
  assert (∀ l, l ∈ copy.*1 → l ∉ nodes.*1) as Hdis.
  { intros l Hin Hin'. destruct (is_list_live _ _ _ _ Hsrc Hin') as [n Hn].
    rewrite (Hfr l Hin) in Hn. done. }
  assert (is_list (w_heap w1) src nodes) as Hsrc1.
  { eapply lseg_frame; [|exact Hsrc]. intros l Hin. apply Hfm.
    intros Hin'. by apply (Hdis l). }
  destruct (free_loop_spec nodes fuel src w1 Hsrc1 Hf)
    as (w2 & E2 & Hh2 & Hfa2 & _).
  assert (is_list (w_heap w2) dst copy) as Hb2.
  { eapply lseg_frame; [|exact Hb]. intros l Hin. rewrite Hh2.
    rewrite decide_False; [done|]. by apply Hdis. }
  assert (length copy = length nodes) as Hlen.
  { apply (f_equal length) in Hnew. by rewrite !length_fmap in Hnew. }
  destruct (free_loop_spec copy fuel dst w2 Hb2 ltac:(lia))
    as (w3 & E3 & Hh3 & Hfa3 & _).
  exists dst, copy, w1, w2, w3. unfold httpAddrCopyList, httpAddrFreeList.
  do 5 (split; [done|]). split; [congruence|].
  intros l. rewrite Hh3, Hh2.
  destruct (decide (l ∈ copy.*1)) as [Hin|Hin].
  - rewrite decide_False by (by apply Hdis). symmetry. by apply Hfr.
  - case_decide; [done|]. by apply Hfm.
Qed.

Lemma copy_outlives_source_witness :
  let nodes := [(1%positive, printer6); (2%positive, printer4)] in
  let w := world_with two_nodes [ok; ok] in
  ∃ dst copy w1 w2 w3,
    httpAddrCopyList 2 (Some 1%positive) w = (Some dst, w1) ∧
    httpAddrFreeList 2 (Some 1%positive) w1 = (Some tt, w2) ∧
    is_list (w_heap w2) dst copy ∧ copy.*2 = nodes.*2 ∧
    httpAddrFreeList 2 dst w2 = (Some tt, w3) ∧
    w_fault w3 = w_fault w ∧
    ∀ l, w_heap w3 !! l = if decide (l ∈ nodes.*1) then None else w_heap w !! l.
Proof.
  intros nodes w.
  apply (copy_outlives_source 2 (Some 1%positive) nodes w).
  - red. simpl. split; [done|]. exists (Some 2%positive). split; [done|].
    split; [done|]. by exists None.
  - simpl. lia.
  - simpl. repeat constructor; simpl; lia.
Defined.

(** The same on a run: the copy is read back after the source is freed, and
    in the end no block is live and no fault was recorded. *)
Example copy_then_free_both :
  let w := world_with two_nodes [] in
  let c := httpAddrCopyList 2 (Some 1%positive) w in
  let f := httpAddrFreeList 2 (Some 1%positive) c.2 in
  (∃ dst, c.1 = Some dst ∧
     addresses 2 (w_heap f.2) dst = [printer6; printer4] ∧
     let g := httpAddrFreeList 2 dst f.2 in
     w_heap g.2 = ∅ ∧ w_fault g.2 = false) ∧
  w_fault (httpAddrFreeList 2 (Some 1%positive) f.2).2 = true.
Proof. vm_compute. split; [eexists; by repeat split|done]. Qed.

(** * The resolver: results of the lookup *)

Section resolver_results.

Implicit Types (h : gmap positive http_addrlist_t).
Implicit Types (built : list (positive * http_addr_t)).

(** The addresses [httpAddrGetList] keeps of the results of [getaddrinfo]:
    those of family [AF_INET] or [AF_INET6], in order. *)
Definition kept (results : list addrinfo) : list http_addr_t :=
  ai_addr <$> filter (λ ai, inet ai = true) results.

Lemma kept_cons_inet (cur : addrinfo) results :
  inet cur = true → kept (cur :: results) = ai_addr cur :: kept results.
Proof. intros H. unfold kept. by rewrite filter_cons_True. Qed.

Lemma kept_cons_other (cur : addrinfo) results :
  inet cur = false → kept (cur :: results) = kept results.
Proof.
  intros H. unfold kept. rewrite filter_cons_False; [done|]. by rewrite H.
Qed.

(** One result taken into the list being built. *)
Lemma copy_results_step h0 w (cur : addrinfo) first addr built :
  copying h0 w first addr built → inet cur = true →
  (a_ret (peek w) <? 0) = false →
  ∃ w1 first' t,
    (∀ fuel results,
       copy_results fuel (cur :: results) first addr w
       = copy_results fuel results first' (Some t) w1) ∧
    copying h0 w1 first' (Some t) (built ++ [(t, ai_addr cur)]) ∧
    w_script w1 = tail (w_script w) ∧ w_fault w1 = w_fault w ∧
    w_last_error w1 = w_last_error w.
Proof.
  intros [Hb Hp Hfr Hfm] Hinet Hok.
  set (hp := w_heap w) in *. set (t := fresh (dom hp)).
  set (a := ai_addr cur).
  assert (hp !! t = None) as Ht by apply fresh_block.
  assert (t ∉ built.*1) as Htb.
  { intros Hin. destruct (is_list_live _ _ _ _ Hb Hin). congruence. }
  assert (∀ fuel results,
    copy_results fuel (cur :: results) first addr w
    = (match addr with
       | Some p => set_next p (Some t)
       | None => mret tt
       end ;;
       copy_results fuel results
         (match first with None => Some t | Some _ => first end) (Some t))
        (set_heap (<[t := Node None a]> hp) (answered w))) as Hrun.
  { intros fuel results. simpl. unfold inet in Hinet. rewrite Hinet.
    by rewrite new_node. }
  destruct built as [|[l al] b _] using rev_ind.
  - simpl in Hp; subst addr. red in Hb; simpl in Hb; subst first.
    exists (set_heap (<[t := Node None a]> hp) (answered w)), (Some t), t.
    split; [|split; [|by simpl; rewrite ?answered_script, ?answered_fault,
                                 ?answered_last_error]].
    + intros fuel results. by rewrite Hrun.
    + split; simpl.
      * red. simpl. split; [done|]. eexists. by rewrite lookup_insert_eq.
      * done.
      * intros l [->|Hin]%elem_of_cons; [|inversion Hin].
        rewrite <-Hfm; [done|by intros ?%elem_of_nil].
      * intros l Hin. rewrite lookup_insert_ne;
          [apply Hfm; by intros ?%elem_of_nil|].
        intros ->. apply Hin. left.
  - rewrite last_snoc in Hp; simpl in Hp; subst addr.
    apply lseg_app in Hb as Hl. destruct Hl as (m & Hm & (-> & x & Hl & _)).
    assert (l ≠ t) as Hlt by (intros ->; congruence).
    assert (∃ l0, first = Some l0) as [l0 ->].
    { destruct b as [|[l0 a0] b]; simpl in Hm; [by exists l|].
      destruct Hm as [-> _]. by exists l0. }
    exists (set_heap (<[l := Node (Some t) al]> (<[t := Node None a]> hp))
                     (answered w)), (Some l0), t.
    split; [|split; [|by simpl; rewrite ?answered_script, ?answered_fault,
                                 ?answered_last_error]].
    + intros fuel results. rewrite Hrun. unfold mbind, M_bind.
      by rewrite (set_next_eq l (Node x al)) by (simpl; by rewrite lookup_insert_ne).
    + split; simpl.
      * rewrite <-(assoc_L (++)). simpl. by apply lseg_link.
      * by rewrite last_snoc.
      * intros l'. rewrite fmap_app. intros [Hin|Hin]%elem_of_app; [auto|].
        apply list_elem_of_singleton in Hin as ->. by rewrite <-Hfm.
      * intros l'. rewrite fmap_app. intros Hin.
        apply not_elem_of_app in Hin as [Hin1 Hin2].
        assert (l' ≠ t) by (intros ->; apply Hin2; left).
        assert (l' ≠ l) by (intros ->; apply Hin1, last_loc_in).
        rewrite !lookup_insert_ne by done. by apply Hfm.
Qed.

(** The loop over the results when every allocation succeeds. *)
Lemma copy_results_all fuel results : ∀ w first addr built h0,
  copying h0 w first addr built →
  Forall (λ a, (a_ret a <? 0) = false)
         (take (length (kept results)) (w_script w)) →
  ∃ first' new w1,
    copy_results fuel results first addr w
    = (Going first' (fst <$> last (built ++ new)), w1) ∧
    copying h0 w1 first' (fst <$> last (built ++ new)) (built ++ new) ∧
    new.*2 = kept results ∧ w_fault w1 = w_fault w ∧
    w_last_error w1 = w_last_error w.
Proof.
  induction results as [|cur results IH]; intros w first addr built h0 Hcp Hok.
  - exists first, [], w. rewrite app_nil_r, <-(cp_prev _ _ _ _ _ Hcp). done.
  - destruct (inet cur) eqn:Hinet.
    + rewrite kept_cons_inet in * by done. simpl in Hok.
      apply peek_head in Hok as [Hok Hoks].
      destruct (copy_results_step _ _ _ _ _ _ Hcp Hinet Hok)
        as (w1 & first1 & t & Hrun & Hcp1 & Hsc & Hfa & Hle).
      destruct (IH w1 first1 (Some t) (built ++ [(t, ai_addr cur)]) h0)
        as (first' & new & w2 & E & Hcp2 & Hnew & Hfa2 & Hle2); [done| |].
      { by rewrite Hsc. }
      exists first', ((t, ai_addr cur) :: new), w2. rewrite Hrun, E.
      rewrite <-(assoc_L (++)) in Hcp2 |- *.
      split; [done|]. split; [done|]. split; [by rewrite fmap_cons, Hnew|].
      split; congruence.
    + rewrite kept_cons_other in * by done.
      destruct (IH w first addr built h0 Hcp Hok)
        as (first' & new & w2 & E & H).
      exists first', new, w2. split; [|done]. simpl. unfold inet in Hinet.
      by rewrite Hinet.
Qed.

Lemma free_loop_errno fuel : ∀ p w, w_errno (free_loop fuel p w).2 = w_errno w.
Proof.
  induction fuel as [|fuel IH]; intros [l|] w; simpl; try done.
  unfold mbind, M_bind, get_next, load, free, mbind, M_bind.
  destruct (w_heap w !! l) eqn:E; simpl; rewrite E; by rewrite IH.
Qed.

(** The loop over the results when an allocation fails: everything built is
    freed and the error of the allocation is recorded. *)
Lemma copy_results_fails fuel results : ∀ w first addr built h0,
  copying h0 w first addr built →
  (length built + length (kept results) ≤ fuel)%nat →
  Exists (λ a, (a_ret a <? 0) = true)
         (take (length (kept results)) (w_script w)) →
  ∃ w1,
    copy_results fuel results first addr w = (Returned (Some None), w1) ∧
    w_heap w1 = h0 ∧ w_fault w1 = w_fault w ∧
    w_last_error w1 = (IPP_STATUS_ERROR_INTERNAL, Strerror (w_errno w1)).
Proof.
  induction results as [|cur results IH]; intros w first addr built h0 Hcp Hf Hbad.
  { simpl in Hbad. by apply Exists_nil in Hbad. }
  destruct (inet cur) eqn:Hinet.
  - rewrite kept_cons_inet in * by done. simpl in Hbad, Hf.
    apply peek_failing in Hbad as [Hbad|[Hok Hbad]].
    + simpl. unfold inet in Hinet. rewrite Hinet.
      unfold calloc, httpAddrFreeList. unfold mbind at 1, M_bind at 1.
      rewrite alloc_eq, Hbad. unfold mbind at 1, M_bind at 1.
      pose proof (free_loop_errno fuel first (answered w)) as Herrno.
      destruct (free_loop_spec built fuel first (answered w))
        as (w1 & E & Hh & Hfa & Hle & _).
      { rewrite answered_heap. apply Hcp. }
      { lia. }
      rewrite E in Herrno |- *. simpl in Herrno.
      eexists. split; [reflexivity|]. simpl.
      rewrite Hfa, answered_fault. split; [|by rewrite Herrno].
      apply map_eq. intros l. rewrite Hh, answered_heap.
      case_decide as Hin.
      * symmetry. by apply (cp_fresh _ _ _ _ _ Hcp).
      * by apply (cp_frame _ _ _ _ _ Hcp).
    + destruct (copy_results_step _ _ _ _ _ _ Hcp Hinet Hok)
        as (w1 & first1 & t & Hrun & Hcp1 & Hsc & Hfa & Hle).
      destruct (IH w1 first1 (Some t) (built ++ [(t, ai_addr cur)]) h0)
        as (w2 & E & Hh & Hfa2 & Hle2); [done| | |].
      { rewrite length_app. simpl. lia. }
      { by rewrite Hsc. }
      exists w2. rewrite Hrun, E. split; [done|]. split; [done|].
      split; [congruence|done].
  - rewrite kept_cons_other in * by done.
    destruct (IH w first addr built h0 Hcp Hf Hbad) as (w2 & E & H).
    exists w2. split; [|done]. simpl. unfold inet in Hinet. by rewrite Hinet.
Qed.

End resolver_results.

Section resolver_lookup.

(** The lookup a call makes: the name and the flags handed to
    [getaddrinfo], if it is called at all.  A path of a domain socket and
    the name [localhost] are not looked up; a bracketed literal is looked up
    without its brackets; without a host name the lookup is passive. *)
Definition looked_up (hostname : option string) : option (option string * Z) :=
  match hostname with
  | None => Some (None, AI_PASSIVE)
  | Some h =>
    if is_char (first_char h) "/"%string then None
    else if _cups_strcasecmp h "localhost"%string =? 0 then None
    else Some (Some (unbracket h), 0)
  end.

(** The call from the lookup on, for a name that is looked up. *)
Definition from_lookup (fuel : nat) (family : Z) (service name : option string)
    (flags : Z) : M (option ptr) :=
  bh ← ('(error, results) ← sys_getaddrinfo name service family flags;
        if error =? 0 then
          b ← copy_results fuel results None None;
          mret (b, name)
        else
          (if error =? EAI_FAIL then put_need_res_init true else mret tt) ;;
          _cupsSetError IPP_STATUS_ERROR_INTERNAL (GaiStrerror error) ;;
          mret (Going None None, name));
  after_lookup fuel family service bh.

Lemma lookup_run fuel hostname family service w name flags :
  looked_up hostname = Some (name, flags) →
  httpAddrGetList fuel hostname family service w
  = from_lookup fuel family service name flags (before_lookup w).2.
Proof.
  intros Hl. rewrite httpAddrGetList_eq. unfold mbind at 1, M_bind at 1.
  destruct (before_lookup w) as [[] w1]. simpl (_.2).
  destruct hostname as [h|]; unfold looked_up in Hl.
  - destruct (is_char (first_char h) "/"%string); [done|].
    destruct (_cups_strcasecmp h "localhost"%string =? 0); [done|].
    by injection Hl as <- <-.
  - by injection Hl as <- <-.
Qed.

(** The world in which the results are copied: the one the call found, with
    the resolver re-initialised if that was due and the lookup logged. *)
Definition at_results (w : world) (name service : option string)
    (family flags : Z) : world :=
  add_log (EvGetaddrinfo name service family flags) (before_lookup w).2.

Lemma at_results_mem w name service family flags :
  same_mem w (at_results w name service family flags) ∧
  w_last_error (at_results w name service family flags) = w_last_error w ∧
  w_need_res_init (at_results w name service family flags) = false.
Proof.
  unfold at_results. pose proof (before_lookup_mem w) as [].
  pose proof (before_lookup_error w).
  split; [by split|]. split; [done|]. simpl.
  unfold before_lookup, mbind, M_bind, get_need_res_init. cbv beta.
  by destruct (w_need_res_init w) eqn:E.
Qed.

Lemma from_lookup_ok fuel family service name flags w results :
  w_dns w name service family flags = (0, results) →
  from_lookup fuel family service name flags (before_lookup w).2
  = (b ← copy_results fuel results None None;
     after_lookup fuel family service (b, name))
      (at_results w name service family flags).
Proof.
  intros Hdns. unfold from_lookup, mbind, M_bind, sys_getaddrinfo.
  rewrite (sm_dns _ _ (before_lookup_mem w)), Hdns. simpl.
  unfold at_results. by destruct (copy_results _ _ _ _ _).
Qed.

Lemma from_lookup_error fuel family service name flags w error results :
  w_dns w name service family flags = (error, results) → error ≠ 0 →
  from_lookup fuel family service name flags (before_lookup w).2
  = after_lookup fuel family service (Going None None, name)
      (set_last_error (IPP_STATUS_ERROR_INTERNAL, GaiStrerror error)
         (set_need_res_init (error =? EAI_FAIL)
            (at_results w name service family flags))).
Proof.
  intros Hdns Hne. unfold from_lookup, mbind, M_bind, sys_getaddrinfo.
  rewrite (sm_dns _ _ (before_lookup_mem w)), Hdns.
  rewrite (proj2 (Z.eqb_neq _ _) Hne).
  destruct (at_results_mem w name service family flags) as (_ & _ & Hflag).
  unfold at_results in *.
  destruct (error =? EAI_FAIL); simpl; [done|].
  f_equal. unfold set_last_error, set_need_res_init. simpl in *.
  by rewrite Hflag.
Qed.

Lemma path_not_localhost h :
  is_char (first_char h) "/"%string = true → _cups_strcasecmp h "localhost"%string ≠ 0.
Proof.
  intros Hp Hl. apply localhost_not_path in Hl. congruence.
Qed.

End resolver_lookup.

(** A resolver to run examples with: one printer with an IPv6 and an IPv4
    address (and a record of another family in between), one name whose
    lookup fails for good, one that has no internet address. *)
Definition office_dns (name service : option string) (family flags : Z)
    : Z * list addrinfo :=
  match name with
  | Some n =>
    if decide (n = "printer.example.com"%string) then
      (0, [AddrInfo AF_INET6 printer6; AddrInfo AF_LOCAL (AddrLocal "/run/x");
           AddrInfo AF_INET printer4])
    else if decide (n = "down.example.com"%string) then (EAI_FAIL, [])
    else if decide (n = "odd.example.com"%string) then
      (0, [AddrInfo AF_LOCAL (AddrLocal "/run/x")])
    else (-2, [])
  | None => (-2, [])
  end.

Definition office (script : list answer) : world :=
  World script 0 [0; 1; 2] ∅ false (IPP_STATUS_OK, NoMessage) false
        office_dns (λ _, None) [].

(** X10.  A lookup that succeeds: the call returns a list of new nodes
    holding the addresses of the results of family [AF_INET] or [AF_INET6],
    in the order of the results (results of other families are skipped),
    provided there is one and the allocations succeed.  Blocks that were
    live are untouched and the last-error slot is not written. *)
Theorem lookup_results_copied fuel hostname family service w name flags results :
  looked_up hostname = Some (name, flags) →
  w_dns w name service family flags = (0, results) →
  kept results ≠ [] →
  Forall (λ a, 0 ≤ a_ret a) (take (length (kept results)) (w_script w)) →
  ∃ first nodes w1,
    httpAddrGetList fuel hostname family service w = (Some (Some first), w1) ∧
    is_list (w_heap w1) (Some first) nodes ∧ nodes.*2 = kept results ∧
    (∀ l, l ∈ nodes.*1 → w_heap w !! l = None) ∧
    (∀ l, l ∉ nodes.*1 → w_heap w1 !! l = w_heap w !! l) ∧
    w_fault w1 = w_fault w ∧ w_last_error w1 = w_last_error w.
Proof.
  intros Hl Hdns Hne Hok.
  rewrite (lookup_run _ _ _ _ _ _ _ Hl), (from_lookup_ok _ _ _ _ _ _ _ Hdns).
  destruct (at_results_mem w name service family flags) as ([Hh Hs Hfa0 _ _] & He0 & _).
  revert Hh Hs Hfa0 He0.
  generalize (at_results w name service family flags). intros w2 Hh Hs Hfa0 He0.
  destruct (copy_results_all fuel results w2 None None [] (w_heap w2))
    as (first' & new & w3 & E & Hcp & Hnew & Hfa & Hle).
  { apply copying_start. }
  { rewrite Hs. eapply Forall_impl; [exact Hok|]. intros a Ha. by apply Z.ltb_ge. }
  simpl in Hcp, E. destruct Hcp as [Hb _ Hfr Hfm].
  destruct new as [|[l a] new] using rev_ind; [by rewrite <-Hnew in Hne|].
  clear IHnew. rewrite last_snoc in E. simpl in E.
  assert (∃ l0, first' = Some l0) as [l0 ->].
  { destruct new as [|[l0 a0] new]; simpl in Hb; destruct Hb as [-> _]; eauto. }
  exists l0, (new ++ [(l, a)]), w3. unfold mbind, M_bind. rewrite E. simpl.
  split; [done|]. split; [done|]. split; [done|].
  rewrite Hh in Hfr, Hfm. split; [done|]. split; [done|]. split; congruence.
Qed.

Lemma lookup_results_copied_witness :
  let w := office [] in
  ∃ first nodes w1,
    httpAddrGetList 2 (Some "printer.example.com"%string) AF_UNSPEC
      (Some "ipp"%string) w = (Some (Some first), w1) ∧
    is_list (w_heap w1) (Some first) nodes ∧ nodes.*2 = [printer6; printer4] ∧
    (∀ l, l ∈ nodes.*1 → w_heap w !! l = None) ∧
    (∀ l, l ∉ nodes.*1 → w_heap w1 !! l = w_heap w !! l) ∧
    w_fault w1 = w_fault w ∧ w_last_error w1 = w_last_error w.
Proof.
  intros w.
  apply (lookup_results_copied 2 (Some "printer.example.com"%string) AF_UNSPEC
           (Some "ipp"%string) w (Some "printer.example.com"%string) 0
           [AddrInfo AF_INET6 printer6; AddrInfo AF_LOCAL (AddrLocal "/run/x");
            AddrInfo AF_INET printer4]); try reflexivity; try done.
Defined.

(** X11.  A lookup that succeeds but cannot be copied: when an allocation
    fails the nodes built so far are freed (the heap is the one the call
    found), the call returns [NULL] and records the Internal status with the
    text of [errno]. *)
Theorem lookup_out_of_memory fuel hostname family service w name flags results :
  looked_up hostname = Some (name, flags) →
  w_dns w name service family flags = (0, results) →
  (length (kept results) ≤ fuel)%nat →
  Exists (λ a, a_ret a < 0) (take (length (kept results)) (w_script w)) →
  ∃ w1,
    httpAddrGetList fuel hostname family service w = (Some None, w1) ∧
    w_heap w1 = w_heap w ∧ w_fault w1 = w_fault w ∧
    w_last_error w1 = (IPP_STATUS_ERROR_INTERNAL, Strerror (w_errno w1)).
Proof.
  intros Hl Hdns Hf Hbad.
  rewrite (lookup_run _ _ _ _ _ _ _ Hl), (from_lookup_ok _ _ _ _ _ _ _ Hdns).
  destruct (at_results_mem w name service family flags) as ([Hh Hs Hfa0 _ _] & He0 & _).
  revert Hh Hs Hfa0 He0.
  generalize (at_results w name service family flags). intros w2 Hh Hs Hfa0 He0.
  destruct (copy_results_fails fuel results w2 None None [] (w_heap w2))
    as (w3 & E & Hh3 & Hfa3 & Hle3).
  { apply copying_start. }
  { exact Hf. }
  { rewrite Hs. eapply Exists_impl; [exact Hbad|]. intros a Ha. by apply Z.ltb_lt. }
  exists w3. unfold mbind, M_bind. rewrite E. simpl.
  split; [done|]. split; [congruence|]. split; [congruence|done].
Qed.

Lemma lookup_out_of_memory_witness :
  let w := office [ok; out_of_memory] in
  ∃ w1,
    httpAddrGetList 2 (Some "printer.example.com"%string) AF_UNSPEC
      (Some "ipp"%string) w = (Some None, w1) ∧
    w_heap w1 = w_heap w ∧ w_fault w1 = w_fault w ∧
    w_last_error w1 = (IPP_STATUS_ERROR_INTERNAL, Strerror (w_errno w1)).
Proof.
  intros w.
  apply (lookup_out_of_memory 2 (Some "printer.example.com"%string) AF_UNSPEC
           (Some "ipp"%string) w (Some "printer.example.com"%string) 0
           [AddrInfo AF_INET6 printer6; AddrInfo AF_LOCAL (AddrLocal "/run/x");
            AddrInfo AF_INET printer4]); try reflexivity.
  change (Exists (λ a, a_ret a < 0) [ok; out_of_memory]).
  apply Exists_cons_tl, Exists_cons_hd. simpl. lia.
Defined.

(** X12.  A lookup that fails, for a host name that is not [localhost]: the
    call returns [NULL], records the Internal status with the resolver's
    text for the error, allocates nothing, and asks for the resolver to be
    re-initialised exactly when the error is [EAI_FAIL]. *)
Theorem lookup_failure_reported fuel h family service w n error results :
  looked_up (Some h) = Some (Some n, 0) →
  _cups_strcasecmp n "localhost" ≠ 0 →
  w_dns w (Some n) service family 0 = (error, results) → error ≠ 0 →
  ∃ w1,
    httpAddrGetList fuel (Some h) family service w = (Some None, w1) ∧
    w_last_error w1 = (IPP_STATUS_ERROR_INTERNAL, GaiStrerror error) ∧
    w_need_res_init w1 = (error =? EAI_FAIL) ∧
    w_heap w1 = w_heap w ∧ w_script w1 = w_script w.
Proof.
  intros Hl Hnl Hdns Hne.
  rewrite (lookup_run _ _ _ _ _ _ _ Hl), (from_lookup_error _ _ _ _ _ _ _ _ Hdns Hne).
  destruct (at_results_mem w (Some n) service family 0) as ([Hh Hs _ _ _] & _ & _).
  eexists. split.
  { simpl. by rewrite (proj2 (Z.eqb_neq _ _) Hnl). }
  by simpl.
Qed.

Lemma lookup_failure_reported_witness :
  let w := office [] in
  ∃ w1,
    httpAddrGetList 2 (Some "down.example.com"%string) AF_UNSPEC
      (Some "ipp"%string) w = (Some None, w1) ∧
    w_last_error w1 = (IPP_STATUS_ERROR_INTERNAL, GaiStrerror EAI_FAIL) ∧
    w_need_res_init w1 = (EAI_FAIL =? EAI_FAIL) ∧
    w_heap w1 = w_heap w ∧ w_script w1 = w_script w.
Proof.
  intros w.
  apply (lookup_failure_reported 2 "down.example.com"%string AF_UNSPEC
           (Some "ipp"%string) w "down.example.com"%string EAI_FAIL []);
    try reflexivity; done.
Defined.

(** X13.  [NULL] without an error: when the lookup of a host name that is
    not [localhost] succeeds with no result of family [AF_INET] or
    [AF_INET6], the call returns [NULL] and the last-error slot is left as it
    was. *)
Theorem lookup_without_addresses fuel h family service w n results :
  looked_up (Some h) = Some (Some n, 0) →
  _cups_strcasecmp n "localhost" ≠ 0 →
  w_dns w (Some n) service family 0 = (0, results) →
  Forall (λ ai, inet ai = false) results →
  ∃ w1,
    httpAddrGetList fuel (Some h) family service w = (Some None, w1) ∧
    w_last_error w1 = w_last_error w ∧
    w_heap w1 = w_heap w ∧ w_script w1 = w_script w.
Proof.
  intros Hl Hnl Hdns Hno.
  rewrite (lookup_run _ _ _ _ _ _ _ Hl), (from_lookup_ok _ _ _ _ _ _ _ Hdns).
  destruct (at_results_mem w (Some n) service family 0) as ([Hh Hs _ _ _] & He & _).
  unfold mbind, M_bind. rewrite (copy_results_none _ _ _ _ _ Hno).
  eexists. split.
  { simpl. by rewrite (proj2 (Z.eqb_neq _ _) Hnl). }
  done.
Qed.

Lemma lookup_without_addresses_witness :
  let w := office [] in
  ∃ w1,
    httpAddrGetList 2 (Some "odd.example.com"%string) AF_UNSPEC
      (Some "ipp"%string) w = (Some None, w1) ∧
    w_last_error w1 = w_last_error w ∧
    w_heap w1 = w_heap w ∧ w_script w1 = w_script w.
Proof.
  intros w.
  apply (lookup_without_addresses 2 "odd.example.com"%string AF_UNSPEC
           (Some "ipp"%string) w "odd.example.com"%string
           [AddrInfo AF_LOCAL (AddrLocal "/run/x")]); try reflexivity; try done.
  by repeat constructor.
Defined.

(** X14.  A fallback that succeeds after a failed lookup: without a host
    name, when [getaddrinfo] fails and the service resolves, the call
    returns the list of wildcard addresses and yet leaves the Internal
    status with the resolver's error text in the last-error slot. *)
Theorem fallback_keeps_lookup_error fuel family service w error results portnum :
  w_dns w None service family AI_PASSIVE = (error, results) → error ≠ 0 →
  (service_port service w).1 = Some portnum →
  Forall (λ a, 0 ≤ a_ret a) (take 2 (w_script w)) →
  ∃ first nodes w1,
    httpAddrGetList fuel None family service w = (Some (Some first), w1) ∧
    is_list (w_heap w1) (Some first) nodes ∧
    nodes.*2 = both_families family (wildcard6 portnum) (wildcard4 portnum) ∧
    w_last_error w1 = (IPP_STATUS_ERROR_INTERNAL, GaiStrerror error).
Proof.
  intros Hdns Hne Hport Hok.
  rewrite (lookup_run fuel None family service w None AI_PASSIVE eq_refl).
  rewrite (from_lookup_error _ _ _ _ _ _ _ _ Hdns Hne).
  destruct (at_results_mem w None service family AI_PASSIVE)
    as ([Hh Hs Hf Hsv _] & _ & _).
  destruct (fallback_run fuel family service false None
              (set_last_error (IPP_STATUS_ERROR_INTERNAL, GaiStrerror error)
                 (set_need_res_init (error =? EAI_FAIL)
                    (at_results w None service family AI_PASSIVE))) portnum)
    as (first & nodes & w1 & E & Hl & Hn & _ & _ & _ & He); try done.
  { rewrite <-Hport. by apply service_port_value. }
  { rewrite <-Hs in Hok. exact Hok. }
  by exists first, nodes, w1.
Qed.

Lemma fallback_keeps_lookup_error_witness :
  let w := office [] in
  ∃ first nodes w1,
    httpAddrGetList 2 None AF_UNSPEC (Some "631"%string) w
    = (Some (Some first), w1) ∧
    is_list (w_heap w1) (Some first) nodes ∧
    nodes.*2 = both_families AF_UNSPEC (wildcard6 631) (wildcard4 631) ∧
    w_last_error w1 = (IPP_STATUS_ERROR_INTERNAL, GaiStrerror (-2)).
Proof.
  intros w.
  apply (fallback_keeps_lookup_error 2 AF_UNSPEC (Some "631"%string) w (-2) []);
    try reflexivity; done.
Defined.

Section resolver_ports.

Lemma ntohs_htons_mod p : ntohs (htons p) = p `mod` 65536.
Proof. unfold ntohs, htons. Z.div_mod_to_equations. lia. Qed.

Lemma heap_set_heap a b : w_heap (set_heap a b) = a.
Proof. done. Qed.

Lemma log_set_heap a b : w_log (set_heap a b) = w_log b.
Proof. done. Qed.

Lemma error_set_heap a b : w_last_error (set_heap a b) = w_last_error b.
Proof. done. Qed.

Lemma answered_log w :
  w_log (answered w) = w_log w ++ [EvAlloc (negb (a_ret (peek w) <? 0))].
Proof.
  unfold answered, peek, syscall, next_answer.
  destruct (w_script w) as [|a s]; simpl; [done|]. by destruct (a_ret a <? 0).
Qed.

Lemma both_families_ports family a6 a4 port :
  httpAddrGetPort a6 = port → httpAddrGetPort a4 = port →
  Forall (λ a, httpAddrGetPort a = port) (both_families family a6 a4).
Proof.
  intros H6 H4. unfold both_families.
  repeat case_decide; simpl; repeat constructor; done.
Qed.

(** The conversion to [int] keeps the low 16 bits. *)
Lemma to_int_mod x : to_int x `mod` 65536 = x `mod` 65536.
Proof.
  unfold to_int. rewrite (Z.mod_eq (x + 2147483648) 4294967296) by lia.
  replace (x + 2147483648 - 4294967296 * ((x + 2147483648) `div` 4294967296)
           - 2147483648)
    with (x + - (65536 * ((x + 2147483648) `div` 4294967296)) * 65536) by lia.
  apply Z_mod_plus_full.
Qed.

(** [atoi] on a string that starts with a digit: no white space and no sign
    to take, the digits are read and held at [LONG_MAX]. *)
Lemma atoi_digits s :
  isdigit (first_char s) = true → atoi s = to_int (Z.min LONG_MAX (atoi_from 0 s)).
Proof.
  destruct s as [|c s]; [done|]. simpl first_char. intros Hd.
  unfold atoi, strtol. f_equal.
  assert (isspace c = false) as Hs.
  { unfold isdigit, isspace in *. destruct (N_of_ascii c) as [|n]; [done|].
    apply andb_true_iff in Hd as [H1 H2].
    apply N.leb_le in H1. apply N.leb_le in H2.
    apply orb_false_iff. split; [apply N.eqb_neq; lia|].
    apply andb_false_iff. right. apply N.leb_gt. lia. }
  unfold skip_space. rewrite Hs. unfold is_char.
  destruct (decide (c = "-"%char)) as [->|_]; [done|].
  destruct (decide (c = "+"%char)) as [->|_]; [done|]. done.
Qed.

End resolver_ports.



(** Runs of the fallback with odd services: 70000 gives the wildcard on port
    4464; a service that only starts with digits is read up to its first
    other character; a number past [LONG_MAX] is held there by [strtol],
    which is -1 as an [int] and 65535 as a port. *)
Example fallback_odd_services :
  let run service :=
    let r := httpAddrGetList 2 None AF_INET (Some service) (world0 []) in
    (λ p, httpAddrGetPort <$> addresses 2 (w_heap r.2) p) <$> r.1 in
  run "70000"%string = Some [4464] ∧ run "8abc"%string = Some [8] ∧
  run "0631"%string = Some [631] ∧
  run "9223372036854775807"%string = Some [65535] ∧
  run "9223372036854775808"%string = Some [65535] ∧
  run "4294967376"%string = Some [80] ∧
  atoi "9223372036854775808" = -1.
Proof. by vm_compute. Qed.

(** X16.  A host name that starts with [/] is the path of a domain socket:
    when the allocation succeeds the call returns one new node holding the
    [AF_LOCAL] address with the first 107 bytes of the name as its path,
    whatever the family and the service, without asking the resolver or the
    service database and without writing the last-error slot. *)
Theorem domain_socket_address fuel h family service w :
  is_char (first_char h) "/" = true → 0 ≤ a_ret (peek w) →
  ∃ l w1,
    httpAddrGetList fuel (Some h) family service w = (Some (Some l), w1) ∧
    w_heap w !! l = None ∧
    w_heap w1 = <[l := Node None (AddrLocal (str_take 107 h))]> (w_heap w) ∧
    w_log w1 = w_log (before_lookup w).2 ++ [EvAlloc true] ∧
    w_last_error w1 = w_last_error w.
Proof.
  intros Hp Hok. rewrite httpAddrGetList_eq. unfold mbind at 1, M_bind at 1.
  change (str_take 107 h) with (cupsCopyString h 108).
  generalize (cupsCopyString h 108). intros path.
  pose proof (before_lookup_mem w) as [Hh Hs _ _ _].
  pose proof (before_lookup_error w) as He.
  destruct (before_lookup w) as [[] w0]. simpl in *. rewrite Hp.
  assert ((a_ret (peek w0) <? 0) = false) as Hok0.
  { unfold peek. rewrite Hs. by apply Z.ltb_ge. }
  unfold calloc, mbind, M_bind. rewrite alloc_eq, Hok0.
  rewrite (set_addr_eq _ zero_node) by (simpl; by rewrite lookup_insert_eq).
  simpl. exists (fresh (dom (w_heap w0))). eexists. split; [reflexivity|].
  rewrite !heap_set_heap, !log_set_heap, !error_set_heap, insert_insert_eq.
  rewrite answered_log, answered_last_error, Hok0, Hh.
  split; [apply fresh_block|]. done.
Qed.

Lemma domain_socket_address_witness :
  let w := world0 [] in
  ∃ l w1,
    httpAddrGetList 2 (Some "/run/cups/cups.sock"%string) AF_INET
      (Some "bogus-name"%string) w = (Some (Some l), w1) ∧
    w_heap w !! l = None ∧
    w_heap w1
    = <[l := Node None (AddrLocal (str_take 107 "/run/cups/cups.sock"))]> (w_heap w) ∧
    w_log w1 = w_log (before_lookup w).2 ++ [EvAlloc true] ∧
    w_last_error w1 = w_last_error w.
Proof.
  intros w.
  apply (domain_socket_address 2 "/run/cups/cups.sock"%string AF_INET
           (Some "bogus-name"%string) w); [reflexivity|simpl; lia].
Defined.

(** X17.  A domain socket path whose node cannot be allocated: the call
    returns [NULL] and records no error; heap and last-error slot are as
    the call found them. *)
Theorem domain_socket_out_of_memory fuel h family service w :
  is_char (first_char h) "/" = true → a_ret (peek w) < 0 →
  ∃ w1,
    httpAddrGetList fuel (Some h) family service w = (Some None, w1) ∧
    w_heap w1 = w_heap w ∧ w_last_error w1 = w_last_error w.
Proof.
  intros Hp Hbad. rewrite httpAddrGetList_eq. unfold mbind at 1, M_bind at 1.
  pose proof (before_lookup_mem w) as [Hh Hs _ _ _].
  pose proof (before_lookup_error w) as He.
  destruct (before_lookup w) as [[] w0]. simpl in *. rewrite Hp.
  assert ((a_ret (peek w0) <? 0) = true) as Hbad0.
  { unfold peek. rewrite Hs. by apply Z.ltb_lt. }
  unfold calloc, mbind, M_bind. rewrite alloc_eq, Hbad0. simpl.
  rewrite (proj2 (Z.eqb_neq _ _) (path_not_localhost h Hp)).
  eexists. split; [reflexivity|].
  by rewrite answered_heap, answered_last_error.
Qed.

Lemma domain_socket_out_of_memory_witness :
  let w := world0 [out_of_memory] in
  ∃ w1,
    httpAddrGetList 2 (Some "/run/cups/cups.sock"%string) AF_UNSPEC None w
    = (Some None, w1) ∧
    w_heap w1 = w_heap w ∧ w_last_error w1 = w_last_error w.
Proof.
  intros w.
  apply (domain_socket_out_of_memory 2 "/run/cups/cups.sock"%string AF_UNSPEC
           None w); [reflexivity|simpl; lia].
Defined.

(** * The resolver: which calls it makes *)

Section resolver_calls.

(** The calls into the resolver of the C library in a trace. *)
Definition resolver_calls (evs : list event) : list event :=
  omap (λ ev, match ev with
              | EvResInit | EvGetaddrinfo _ _ _ _ => Some ev
              | _ => None
              end) evs.

Lemma resolver_calls_app e1 e2 :
  resolver_calls (e1 ++ e2) = resolver_calls e1 ++ resolver_calls e2.
Proof. apply omap_app. Qed.

(** A computation that stays away from the resolver: it makes no call into
    it and leaves the flag that asks for its re-initialisation alone. *)
Definition away {A} (m : M A) : Prop :=
  ∀ w, ∃ evs, w_log (m w).2 = w_log w ++ evs ∧ resolver_calls evs = [] ∧
    w_need_res_init (m w).2 = w_need_res_init w.

Lemma away_ret {A} (a : A) : away (mret a).
Proof. intros w. exists []. by rewrite app_nil_r. Qed.

Lemma away_bind {A B} (m : M A) (f : A → M B) :
  away m → (∀ a, away (f a)) → away (m ≫= f).
Proof.
  intros Hm Hf w. unfold mbind, M_bind. destruct (Hm w) as (e1 & L1 & R1 & F1).
  destruct (m w) as [a w1]. simpl in *.
  destruct (Hf a w1) as (e2 & L2 & R2 & F2). exists (e1 ++ e2).
  rewrite L2, L1, (assoc_L (++)), resolver_calls_app, R1, R2, F2, F1. done.
Qed.

Lemma away_pure {A} (m : M A) :
  (∀ w, w_log (m w).2 = w_log w ∧
        w_need_res_init (m w).2 = w_need_res_init w) → away m.
Proof.
  intros H w. destruct (H w) as [L F]. exists []. by rewrite app_nil_r.
Qed.

Lemma away_load l : away (load l).
Proof. apply away_pure. intros w. unfold load. by destruct (_ !! _). Qed.

Lemma away_store l n : away (store l n).
Proof. apply away_pure. intros w. unfold store. by destruct (_ !! _). Qed.

Lemma away_free l : away (free l).
Proof.
  intros w. unfold free. destruct (_ !! _); simpl.
  - by exists [EvFree l].
  - exists []. by rewrite app_nil_r.
Qed.

Lemma away_alloc : away alloc.
Proof.
  intros w. rewrite alloc_eq.
  assert (w_need_res_init (answered w) = w_need_res_init w) as Hf.
  { unfold answered, syscall, next_answer.
    destruct (w_script w) as [|a s]; simpl; [done|]. by destruct (a_ret a <? 0). }
  exists [EvAlloc (negb (a_ret (peek w) <? 0))].
  destruct (a_ret (peek w) <? 0) eqn:E; simpl;
    by rewrite ?log_set_heap, answered_log, E.
Qed.

Lemma away_get_next l : away (get_next l).
Proof. apply away_bind; [apply away_load|intros; apply away_ret]. Qed.

Lemma away_set_next l q : away (set_next l q).
Proof. apply away_bind; [apply away_load|intros; apply away_store]. Qed.

Lemma away_set_addr l a : away (set_addr l a).
Proof. apply away_bind; [apply away_load|intros; apply away_store]. Qed.

Lemma away_free_loop fuel p : away (free_loop fuel p).
Proof.
  revert p. induction fuel as [|fuel IH]; intros [l|]; simpl;
    try apply away_ret.
  apply away_bind; [apply away_get_next|intros nx].
  apply away_bind; [apply away_free|intros _]. apply IH.
Qed.

Lemma away_cupsSetError status msg : away (_cupsSetError status msg).
Proof. by apply away_pure. Qed.

Lemma away_get_errno : away get_errno.
Proof. by apply away_pure. Qed.

Lemma away_getservbyname s : away (sys_getservbyname s).
Proof. intros w. by exists [EvGetservbyname s]. Qed.

Ltac stay_away :=
  repeat first
    [ apply away_ret | apply away_alloc | apply away_set_addr
    | apply away_set_next | apply away_get_errno | apply away_cupsSetError
    | apply away_free_loop | apply away_getservbyname
    | apply away_bind; [|intros ?]
    | match goal with
      | |- away (match ?x with _ => _ end) => destruct x
      end ].

Lemma away_service_port service : away (service_port service).
Proof. unfold service_port. stay_away. Qed.

Lemma away_copy_results fuel results first addr :
  away (copy_results fuel results first addr).
Proof.
  revert first addr. induction results as [|current results IH];
    intros first addr; simpl; [apply away_ret|].
  destruct (_ || _); [|apply IH].
  unfold calloc, httpAddrFreeList.
  apply away_bind; [apply away_alloc|intros [t|]]; [|stay_away].
  apply away_bind; [apply away_set_addr|intros _].
  apply away_bind; [destruct addr; stay_away|intros _]. apply IH.
Qed.

Lemma away_add_fallback fuel a ipv6 first addr :
  away (add_fallback fuel a ipv6 first addr).
Proof. unfold add_fallback, calloc, httpAddrFreeList. stay_away. Qed.

Lemma away_add_fallbacks fuel family a6 a4 first addr :
  away (add_fallbacks fuel family a6 a4 first addr).
Proof.
  unfold add_fallbacks.
  apply away_bind; [destruct (negb _); [apply away_add_fallback|stay_away]|].
  intros [first' addr'|r]; [|stay_away].
  destruct (negb _); [apply away_add_fallback|stay_away].
Qed.

Lemma away_after_lookup fuel family service bh :
  away (after_lookup fuel family service bh).
Proof.
  destruct bh as [[first [a|]|r] hostname]; simpl; try apply away_ret.
  destruct (_ || _); [|apply away_ret].
  apply away_bind; [apply away_service_port|intros [portnum|]].
  - apply away_bind; [destruct (match hostname with Some _ => _ | None => _ end);
                      apply away_add_fallbacks|].
    intros [? ?|?]; apply away_ret.
  - unfold httpAddrFreeList. stay_away.
Qed.

Lemma resolver_calls_lookup name service family flags evs :
  resolver_calls (EvGetaddrinfo name service family flags :: evs)
  = EvGetaddrinfo name service family flags :: resolver_calls evs.
Proof. done. Qed.

Lemma before_lookup_calls w :
  w_log (before_lookup w).2
  = w_log w ++ (if w_need_res_init w then [EvResInit] else []) ∧
  w_need_res_init (before_lookup w).2 = false.
Proof.
  unfold before_lookup, mbind, M_bind, get_need_res_init. cbv beta.
  destruct (w_need_res_init w) eqn:E; simpl; [done|]. by rewrite app_nil_r.
Qed.

End resolver_calls.

(** X18.  The calls a resolve makes into the resolver of the C library:
    [res_init] first, exactly when the flag left by an earlier call asks for
    it; then at most one [getaddrinfo], for the host name without its
    brackets with the caller's family and service, passive when there is no
    host name, and none at all for the path of a domain socket or for
    [localhost].  When the call returns, the flag is set exactly when that
    lookup failed with [EAI_FAIL]. *)
Theorem resolver_calls_made fuel hostname family service w :
  let r := httpAddrGetList fuel hostname family service w in
  ∃ evs, w_log r.2 = w_log w ++ evs ∧
    resolver_calls evs
    = (if w_need_res_init w then [EvResInit] else []) ++
      match looked_up hostname with
      | None => []
      | Some (name, flags) => [EvGetaddrinfo name service family flags]
      end ∧
    w_need_res_init r.2
    = match looked_up hostname with
      | None => false
      | Some (name, flags) => (w_dns w name service family flags).1 =? EAI_FAIL
      end.
Proof.
  cbv zeta. destruct (before_lookup_calls w) as [L0 F0].
  assert (resolver_calls (if w_need_res_init w then [EvResInit] else [])
          = if w_need_res_init w then [EvResInit] else []) as R0
    by (by destruct (w_need_res_init w)).
  destruct (looked_up hostname) as [[name flags]|] eqn:Hl.
  - rewrite (lookup_run _ _ _ _ _ _ _ Hl).
    destruct (w_dns w name service family flags) as [error results] eqn:Hdns.
    destruct (decide (error = 0)) as [->|Hne].
    + rewrite (from_lookup_ok _ _ _ _ _ _ _ Hdns).
      destruct (away_bind (copy_results fuel results None None)
                  (λ b, after_lookup fuel family service (b, name))
                  (away_copy_results _ _ _ _)
                  (λ b, away_after_lookup _ _ _ _)
                  (at_results w name service family flags))
        as (e1 & L1 & R1 & F1).
      exists ((if w_need_res_init w then [EvResInit] else [])
              ++ [EvGetaddrinfo name service family flags] ++ e1).
      rewrite L1, F1. unfold at_results. simpl. rewrite L0, F0.
      rewrite resolver_calls_app, resolver_calls_lookup, R0, R1.
      by rewrite <-!(assoc_L (++)).
    + rewrite (from_lookup_error _ _ _ _ _ _ _ _ Hdns Hne).
      destruct (away_after_lookup fuel family service (Going None None, name)
                  (set_last_error (IPP_STATUS_ERROR_INTERNAL, GaiStrerror error)
                     (set_need_res_init (error =? EAI_FAIL)
                        (at_results w name service family flags))))
        as (e1 & L1 & R1 & F1).
      exists ((if w_need_res_init w then [EvResInit] else [])
              ++ [EvGetaddrinfo name service family flags] ++ e1).
      rewrite L1, F1. unfold at_results. simpl. rewrite L0.
      rewrite resolver_calls_app, resolver_calls_lookup, R0, R1.
      by rewrite <-!(assoc_L (++)).
  - assert (∀ A (k : M A), (before_lookup ;; k) w = k (before_lookup w).2) as Hbl.
    { intros. unfold mbind, M_bind. by destruct (before_lookup w) as [[] ?]. }
    rewrite httpAddrGetList_eq, Hbl.
    destruct hostname as [h|]; [|done]. unfold looked_up in Hl.
    match goal with
    | |- ∃ evs, w_log ((?m ≫= ?k) _).2 = _ ∧ _ =>
      assert (away (m ≫= k)) as Haway
    end.
    { apply away_bind; [|intros bh; apply away_after_lookup].
      destruct (is_char (first_char h) "/").
      - unfold calloc. apply away_bind; [apply away_alloc|].
        intros [f|]; [|apply away_ret].
        apply away_bind; [apply away_set_addr|intros; apply away_ret].
      - destruct (_cups_strcasecmp h "localhost" =? 0); [|done].
        apply away_ret. }
    destruct (Haway (before_lookup w).2) as (e1 & L1 & R1 & F1).
    exists ((if w_need_res_init w then [EvResInit] else []) ++ e1).
    rewrite L1, F1, L0, F0, resolver_calls_app, R0, R1, (assoc_L (++)). done.
Qed.

(** Two calls in a row for a name whose lookup fails with [EAI_FAIL]: the
    second starts by re-initialising the resolver, the first does not. *)
Example reinit_after_failure :
  let first := httpAddrGetList 2 (Some "down.example.com"%string) AF_UNSPEC
                 (Some "ipp"%string) (office []) in
  let second := httpAddrGetList 2 (Some "down.example.com"%string) AF_UNSPEC
                  (Some "ipp"%string) first.2 in
  resolver_calls (w_log first.2)
  = [EvGetaddrinfo (Some "down.example.com"%string) (Some "ipp"%string) AF_UNSPEC 0] ∧
  resolver_calls (drop (length (w_log first.2)) (w_log second.2))
  = [EvResInit;
     EvGetaddrinfo (Some "down.example.com"%string) (Some "ipp"%string) AF_UNSPEC 0].
Proof. by vm_compute. Qed.

Section resolver_brackets.

Local Open Scope string_scope.

Lemma prefix_v1_app a :
  String.prefix "v1." a = false → String.prefix "v1." (a +:+ "]") = false.
Proof.
  destruct a as [|c1 [|c2 [|c3 a]]].
  - done.
  - change (String c1 "" +:+ "]") with (String c1 "]").
    cbn [String.prefix]. by destruct (ascii_dec "v" c1).
  - change (String c1 (String c2 "") +:+ "]") with (String c1 (String c2 "]")).
    cbn [String.prefix]. destruct (ascii_dec "v" c1); [|done].
    by destruct (ascii_dec "1" c2).
  - change (String c1 (String c2 (String c3 a)) +:+ "]")
      with (String c1 (String c2 (String c3 (a +:+ "]")))).
    cbn [String.prefix]. destruct (ascii_dec "v" c1); [|done].
    destruct (ascii_dec "1" c2); [|done].
    destruct (ascii_dec "." c3); [|done].
    assert (∀ s, String.prefix "" s = true) as Hp by (by intros [|]).
    by rewrite !Hp.
Qed.

(** The literal [[addr]] is unwrapped to [addr] when it fits the 64-byte
    buffer. *)
Lemma unbracket_plain a :
  String.prefix "v1." a = false → (String.length a ≤ 62)%nat →
  unbracket ("[" +:+ a +:+ "]") = a.
Proof.
  intros Hv Hlen. unfold unbracket.
  change ("[" +:+ a +:+ "]") with (String "[" (a +:+ "]")).
  cbn [first_char is_char String.prefix str_drop].
  rewrite !decide_True by done.
  destruct (ascii_dec "[" "["); [|done].
  rewrite (prefix_v1_app a Hv). unfold cupsCopyString.
  rewrite str_take_all.
  - by rewrite chop_bracket_app.
  - rewrite length_append. simpl. lia.
Qed.

End resolver_brackets.

(** X19.  A bracketed address literal [[addr]] that is not of the [v1.]
    form and has at most 62 bytes between its brackets is looked up without
    the brackets: the first call after the function's preamble is the lookup
    of [addr]. *)
Theorem bracketed_literal_lookup fuel a family service w :
  String.prefix "v1." a = false → (String.length a ≤ 62)%nat →
  ∃ evs,
    w_log (httpAddrGetList fuel (Some ("[" +:+ a +:+ "]")%string)
             family service w).2
    = w_log (before_lookup w).2
      ++ EvGetaddrinfo (Some a) service family 0 :: evs.
Proof.
  intros Hv Hlen.
  pose proof (lookup_logged fuel (a +:+ "]")%string family service w) as H.
  change (String "["%char (a +:+ "]")) with ("[" +:+ a +:+ "]")%string in H.
  by rewrite (unbracket_plain a Hv Hlen) in H.
Qed.

Lemma bracketed_literal_lookup_witness :
  ∃ evs,
    w_log (httpAddrGetList 2 (Some "[2001:db8::1]"%string) AF_UNSPEC
             (Some "ipp"%string) (world0 [])).2
    = w_log (before_lookup (world0 [])).2
      ++ EvGetaddrinfo (Some "2001:db8::1"%string) (Some "ipp"%string)
                       AF_UNSPEC 0 :: evs.
Proof.
  apply (bracketed_literal_lookup 2 "2001:db8::1"%string AF_UNSPEC
           (Some "ipp"%string) (world0 [])); [reflexivity|simpl; lia].
Defined.

(** Names the block leaves as they are: one without an opening bracket, and
    a bracketed one that lacks its closing bracket or is too long for the
    buffer. *)
Example names_left_alone :
  unbracket "printer.example.com" = "printer.example.com"%string ∧
  unbracket "[2001:db8::1" = "[2001:db8::1"%string ∧
  unbracket "[localhost]" = "localhost"%string ∧
  let long := String.string_of_list_ascii (replicate 63 "a"%char) in
  unbracket ("[" +:+ long +:+ "]") = ("[" +:+ long +:+ "]")%string.
Proof. by vm_compute. Qed.

(** * Notification subjects and texts: the other forms *)

Section notify_forms.

Context `{ipp_h} (cups_lang_t ipp_t : Type).
Context (cupsLangGetString : cups_lang_t → string → string).
Context (ippFindAttribute : ipp_t → string → Z → option ipp_attribute_t).

Local Abbreviation pword := (printer_state_word cups_lang_t cupsLangGetString).
Local Abbreviation subject :=
  (cupsLocalizeNotifySubject cups_lang_t ipp_t cupsLangGetString
                             ippFindAttribute).

(** The words a printer state is shown as. *)
Definition printer_state_words : list string :=
  ["idle"; "processing"; "stopped"; "unknown"]%string.

Lemma printer_state_word_in lang state :
  pword lang state ∈ cupsLangGetString lang <$> printer_state_words.
Proof.
  unfold printer_state_word, printer_state_words.
  repeat (match goal with |- context [if ?b then _ else _] => destruct b end;
          [simpl; repeat constructor|]).
  simpl. repeat constructor.
Qed.

Lemma length_str_take n s : (String.length (str_take n s) ≤ n)%nat.
Proof.
  revert s. induction n as [|n IH]; intros [|c s]; simpl; try lia.
  specialize (IH s). lia.
Qed.

Lemma strdup_some s w r : (strdup s w).1 = Some r → r = s.
Proof.
  unfold strdup, mbind, M_bind. destruct (syscall _ w) as [a w1].
  destruct (a_ret a <? 0); simpl; congruence.
Qed.

(** The event is not a job event: it lacks one of the four attributes a
    job subject needs. *)
Definition not_job_event (event : ipp_t) : Prop :=
  ippFindAttribute event "notify-job-id" IPP_TAG_INTEGER = None ∨
  ippFindAttribute event "printer-name" IPP_TAG_NAME = None ∨
  ippFindAttribute event "notify-printer-uri" IPP_TAG_URI = None ∨
  ippFindAttribute event "job-state" IPP_TAG_ENUM = None.

(** Nor a printer event: it lacks one of the three attributes a printer
    subject needs. *)
Definition not_printer_event (event : ipp_t) : Prop :=
  ippFindAttribute event "notify-printer-uri" IPP_TAG_URI = None ∨
  ippFindAttribute event "printer-name" IPP_TAG_NAME = None ∨
  ippFindAttribute event "printer-state" IPP_TAG_ENUM = None.

(** X20.  The subject of a printer event: for an event that is not a job
    event and has the attributes notify-printer-uri, printer-name and
    printer-state, the function returns the first 1023 bytes of
    ["<prefix> <printer> <state>"], the state being one of the four words
    for idle, processing, stopped and unknown. *)
Theorem printer_subject_returned lang event printer_name uri printer_state w :
  not_job_event event →
  ippFindAttribute event "notify-printer-uri" IPP_TAG_URI = Some uri →
  ippFindAttribute event "printer-name" IPP_TAG_NAME = Some printer_name →
  ippFindAttribute event "printer-state" IPP_TAG_ENUM = Some printer_state →
  0 ≤ a_ret (peek w) →
  let state := pword lang (integer printer_state) in
  (subject (Some lang) (Some event) w).1
  = Some (str_take 1023 (printer_subject (cupsLangGetString lang "Printer:")
                                         (text printer_name) state)) ∧
  state ∈ cupsLangGetString lang <$> printer_state_words.
Proof.
  intros Hnj Huri Hpn Hps Hok state. split; [|apply printer_state_word_in].
  unfold cupsLocalizeNotifySubject. rewrite Huri, Hpn, Hps.
  destruct Hnj as [Hj|[Hj|[Hj|Hj]]]; try congruence.
  - rewrite Hj. by apply strdup_ok.
  - destruct (ippFindAttribute event "notify-job-id" IPP_TAG_INTEGER);
      rewrite ?Hj; by apply strdup_ok.
Qed.

(** X21.  The subject of any other event: for an event that is neither a
    job nor a printer event the function returns the first 1023 bytes of the
    keyword of notify-subscribed-event, and [NULL] when the event has no
    such attribute. *)
Theorem other_subject_returned lang event w :
  not_job_event event → not_printer_event event →
  0 ≤ a_ret (peek w) →
  (subject (Some lang) (Some event) w).1
  = (λ s, str_take 1023 (text s))
      <$> ippFindAttribute event "notify-subscribed-event" IPP_TAG_KEYWORD.
Proof.
  intros Hnj Hnp Hok. unfold cupsLocalizeNotifySubject.
  assert (∀ s, (strdup (cupsCopyString (text s) buffer_size) w).1
               = Some (str_take 1023 (text s))) as Hdup.
  { intros s. by apply strdup_ok. }
  unfold not_job_event, not_printer_event in *.
  destruct (ippFindAttribute event "notify-job-id" IPP_TAG_INTEGER) as [job_id|];
  destruct (ippFindAttribute event "printer-name" IPP_TAG_NAME) as [pn|];
  destruct (ippFindAttribute event "notify-printer-uri" IPP_TAG_URI) as [uri|];
  destruct (ippFindAttribute event "job-state" IPP_TAG_ENUM) as [js|];
  destruct (ippFindAttribute event "printer-state" IPP_TAG_ENUM) as [ps|];
  try (destruct Hnj as [?|[?|[?|?]]]; destruct Hnp as [?|[?|?]]; congruence);
  destruct (ippFindAttribute event "notify-subscribed-event" IPP_TAG_KEYWORD);
  unfold fmap, option_fmap, option_map; first [apply Hdup | done].
Qed.

(** X22.  Whatever the event holds, a subject the function returns has at
    most 1023 bytes. *)
Theorem subject_fits_buffer lang event w s :
  (subject lang event w).1 = Some s → (String.length s ≤ 1023)%nat.
Proof.
  unfold cupsLocalizeNotifySubject, snprintf, cupsCopyString, buffer_size.
  change (1024 - 1)%nat with 1023%nat.
  destruct event as [event|], lang as [lang|]; try done.
  repeat match goal with
         | |- context [match ?x with Some _ => _ | None => _ end] =>
           destruct x
         end;
    try done; intros ->%strdup_some; apply length_str_take.
Qed.

End notify_forms.

(** A printer event and an event of another kind, as a CUPS server sends
    them. *)
Definition printer_event (printer : string) (state : Z) : message :=
  [("notify-subscribed-event", 68, Attribute 0 "printer-stopped");
   ("notify-printer-uri", 69, Attribute 0 "ipp://localhost/printers/office");
   ("printer-name", 66, Attribute 0 printer);
   ("printer-state", 35, Attribute state "")]%string.

Definition server_event : message :=
  [("notify-subscribed-event", 68, Attribute 0 "server-restarted");
   ("notify-text", 65, Attribute 0 "The server was restarted.")]%string.

Lemma printer_subject_returned_witness :
  (subject_in_english (Some tt) (Some (printer_event "office" 5)) (world0 [])).1
  = Some (str_take 1023 "Printer: office stopped") ∧
  "stopped"%string ∈ plain_language tt <$> printer_state_words.
Proof.
  apply (printer_subject_returned (H := rfc8011) unit message plain_language
           find_attribute tt (printer_event "office" 5)
           (Attribute 0 "office")
           (Attribute 0 "ipp://localhost/printers/office") (Attribute 5 "")
           (world0 [])); first [reflexivity | left; reflexivity].
Defined.

Lemma other_subject_returned_witness :
  (subject_in_english (Some tt) (Some server_event) (world0 [])).1
  = (λ s, str_take 1023 (text s))
      <$> find_attribute server_event "notify-subscribed-event" 68.
Proof.
  apply (other_subject_returned (H := rfc8011) unit message plain_language
           find_attribute tt server_event (world0 []));
    first [reflexivity | left; reflexivity].
Defined.

Lemma subject_fits_buffer_witness :
  (String.length (str_take 1023 ("Print Job: " +:+ long_name)) ≤ 1023)%nat.
Proof.
  apply (subject_fits_buffer (H := rfc8011) unit message plain_language
           find_attribute (Some tt) (Some (job_event long_name "report.pdf"))
           (world0 [])).
  vm_compute. reflexivity.
Defined.

(** The subjects of the three kinds of event, and of an event of none. *)
Example subjects_by_kind :
  let subject event := (subject_in_english (Some tt) (Some event) (world0 [])).1 in
  subject (job_event "office" "report.pdf")
  = Some "Print Job: office-42 (report.pdf) completed"%string ∧
  subject (printer_event "office" 3) = Some "Printer: office idle"%string ∧
  subject (printer_event "office" 9) = Some "Printer: office unknown"%string ∧
  subject server_event = Some "server-restarted"%string ∧
  subject [] = None.
Proof. by vm_compute. Qed.

Section notify_texts.

Context (IPP_TAG_TEXT : Z) (cups_lang_t ipp_t : Type).
Context (ippFindAttribute : ipp_t → string → Z → option ipp_attribute_t).

Local Abbreviation text_of :=
  (cupsLocalizeNotifyText IPP_TAG_TEXT cups_lang_t ipp_t ippFindAttribute).

(** X23.  [cupsLocalizeNotifyText] returns a copy of the whole text of the
    event's notify-text attribute, whatever its length and whatever the
    language; it returns [NULL], without allocating, when the language, the
    event or the attribute is missing. *)
Theorem notify_text_returned lang event w :
  0 ≤ a_ret (peek w) →
  (text_of (Some lang) (Some event) w).1
  = text <$> ippFindAttribute event "notify-text" IPP_TAG_TEXT ∧
  text_of None (Some event) w = (None, w) ∧
  text_of (Some lang) None w = (None, w) ∧
  (ippFindAttribute event "notify-text" IPP_TAG_TEXT = None →
   text_of (Some lang) (Some event) w = (None, w)).
Proof.
  intros Hok. unfold cupsLocalizeNotifyText.
  destruct (ippFindAttribute event "notify-text" IPP_TAG_TEXT) as [t|];
    [|done].
  split; [by apply strdup_ok|done].
Qed.

End notify_texts.

Definition text_in_english : option unit → option message → M (option string) :=
  cupsLocalizeNotifyText 65 unit message find_attribute.

Lemma notify_text_returned_witness :
  let w := world0 [] in
  (text_in_english (Some tt) (Some server_event) w).1
  = text <$> find_attribute server_event "notify-text" 65 ∧
  text_in_english None (Some server_event) w = (None, w) ∧
  text_in_english (Some tt) None w = (None, w) ∧
  (find_attribute server_event "notify-text" 65 = None →
   text_in_english (Some tt) (Some server_event) w = (None, w)).
Proof.
  intros w.
  apply (notify_text_returned 65 unit message find_attribute tt server_event w).
  reflexivity.
Defined.

(** The text of an event is not cut where its subject would be. *)
Example long_text_kept :
  let event := [("notify-text", 65, Attribute 0 long_name)]%string in
  (text_in_english (Some tt) (Some event) (world0 [])).1 = Some long_name ∧
  String.length long_name = 1100%nat ∧
  (text_in_english (Some tt) (Some event) (world0 [out_of_memory])).1 = None.
Proof. by vm_compute. Qed.
